(** * Exeedo/hashing: SipHash and an open-addressing hash table

    A shallow embedding of [siphash.py] and [hashtable.py].

    Python integers are unbounded, so they are modelled by [Z] and every
    64-bit truncation is the mask the source writes.  Loops that the source
    writes as [while] are modelled by fuel: [None] / [Timeout] means the fuel
    ran out, and a loop that runs out of every amount of fuel does not
    terminate.  Diagnostic printing ([verbose], [print_hex], the [print]
    methods) has no effect on the state and is left out. *)

From Stdlib Require Import ZArith List Bool Lia String Ascii QArith Permutation.
Import ListNotations.
Local Open Scope Z_scope.

(** ** Python values

    Keys and values are arbitrary Python objects.  The model keeps the three
    kinds the hash function tells apart: [str] (as the list of the code
    points [ord c] of its characters), [int] ([bool] is a subclass of [int]
    and behaves as [0] / [1]), and any other object, which carries a tag
    that stands for its identity.  [None] is the object the entry class
    tests with [is None]. *)
Inductive obj : Type :=
| PyNone
| PyInt (n : Z)
| PyStr (s : list N)
| PyObj (tag : N).

(** [a == b].  Two [int]s, or two [str]s, are equal when their values are,
    and an [int] is never equal to a [str].  For every other pair Python
    asks the [__eq__] methods of the two objects: [other_eq a b] stands for
    their answer, taken to be the same each time it is asked, and nothing
    else is assumed about it.  It need not hold of an object and itself
    ([float('nan') == float('nan')] is [False]), and it can hold of two
    different objects ([1.0 == 1] is [True]). *)
Definition obj_eqb (other_eq : obj -> obj -> bool) (a b : obj) : bool :=
  match a, b with
  | PyInt n, PyInt m => n =? m
  | PyStr s, PyStr t => if list_eq_dec N.eq_dec s t then true else false
  | PyInt _, PyStr _ => false
  | PyStr _, PyInt _ => false
  | _, _ => other_eq a b
  end.

(** Whether two modelled objects are the same object or value. *)
Definition obj_eq_dec (a b : obj) : {a = b} + {a <> b}.
Proof.
  decide equality;
    [apply Z.eq_dec|apply (list_eq_dec N.eq_dec)|apply N.eq_dec].
Defined.

Inductive exn : Type :=
| TypeError
| IndexError
| ZeroDivisionError
| AssertionError.

(** [l[i]] and [l[i] = x] with Python's index rules: a negative index counts
    from the end, and an index out of range raises [IndexError] ([None]). *)
Definition norm_index {A} (l : list A) (i : Z) : option nat :=
  let n := Z.of_nat (List.length l) in
  let j := if i <? 0 then i + n else i in
  if (0 <=? j) && (j <? n) then Some (Z.to_nat j) else None.

Definition getitem {A} (l : list A) (i : Z) : option A :=
  match norm_index l i with
  | Some j => nth_error l j
  | None => None
  end.

Fixpoint replace_nth {A} (l : list A) (j : nat) (x : A) : list A :=
  match l, j with
  | [], _ => []
  | _ :: r, O => x :: r
  | a :: r, S j' => a :: replace_nth r j' x
  end.

Definition setitem {A} (l : list A) (i : Z) (x : A) : option (list A) :=
  match norm_index l i with
  | Some j => Some (replace_nth l j x)
  | None => None
  end.

(** [bin n]: the text Python's builtin gives, ["0b101"] or ["-0b101"]. *)
Fixpoint bin_digits (p : positive) (acc : string) : string :=
  match p with
  | xH => String "1" acc
  | xO q => bin_digits q (String "0" acc)
  | xI q => bin_digits q (String "1" acc)
  end.

Definition bin (n : Z) : string :=
  match n with
  | Z0 => "0b0"
  | Zpos p => "0b" ++ bin_digits p ""
  | Zneg p => "-0b" ++ bin_digits p ""
  end.

Definition len (s : string) : Z := Z.of_nat (String.length s).

(** ** siphash.py *)
Module siphash.

Definition split_lower_upper_words (big_int : Z) : Z * Z :=
  let lower := Z.land big_int (Z.shiftl 1 64 - 1) in
  let upper := Z.shiftr big_int 64 in
  (lower, upper).

Definition circular_shift (var shift : Z) : Z :=
  let '(lower, upper) := split_lower_upper_words (Z.shiftl var shift) in
  Z.lor lower upper.

(** [for i, c in enumerate(str_msg): int_msg |= ord(c) << (i << 3)] *)
Fixpoint str2int_from (i : Z) (str_msg : list N) (int_msg : Z) : Z :=
  match str_msg with
  | [] => int_msg
  | c :: rest =>
      str2int_from (i + 1) rest
        (Z.lor int_msg (Z.shiftl (Z.of_N c) (Z.shiftl i 3)))
  end.

Definition str2int (str_msg : list N) : Z := str2int_from 0 str_msg 0.

Definition negate (val : Z) : Z :=
  - (Z.lxor val (Z.shiftl 1 64 - 1)) - 1.

(** The fields of a [SipHash] object; [state_variables] is the list
    [[v0, v1, v2, v3]]. *)
Record SipHash : Type := mkSipHash {
  secret_key : Z;
  state_variables : Z * Z * Z * Z;
  hash_value : Z;
  allow_negative : bool
}.

Definition with_vars (self : SipHash) (vars : Z * Z * Z * Z) : SipHash :=
  mkSipHash (secret_key self) vars (hash_value self) (allow_negative self).

Definition with_hash (self : SipHash) (h : Z) : SipHash :=
  mkSipHash (secret_key self) (state_variables self) h (allow_negative self).

Section Runtime.

(** The interpreter's [_Py_HashSecret.siphash] words (two [c_uint64]) and
    its [id] builtin. *)
Variables hashsecret_k0 hashsecret_k1 : N.
Variable id : obj -> N.

Definition get_default_secret_key : Z :=
  Z.lor (Z.shiftl (Z.of_N hashsecret_k1) 64) (Z.of_N hashsecret_k0).

(** [SipHash(secret_key=None, verbose=False, allow_negative=False)] *)
Definition init (secret_key : option Z) (allow_negative : bool) : SipHash :=
  mkSipHash
    (match secret_key with None => get_default_secret_key | Some k => k end)
    (0, 0, 0, 0) 0 allow_negative.

Definition add_size_byte (msg : Z) : Z :=
  let size_bits := len (bin msg) - 2 in
  let size_bytes := Z.shiftr (size_bits + 7) 3 in
  let size_words := Z.shiftr (size_bytes + 8) 3 in
  let size_bytes := Z.land size_bytes 255 in
  let size_words := Z.shiftl size_words 6 in
  Z.lor msg (Z.shiftl size_bytes (size_words - 8)).

Definition half_sipround (s t : Z) (self : SipHash) : SipHash :=
  let '(v0, v1, v2, v3) := state_variables self in
  let v0 := fst (split_lower_upper_words (v0 + v1)) in
  let v2 := fst (split_lower_upper_words (v2 + v3)) in
  let v1 := Z.lxor (circular_shift v1 s) v0 in
  let v3 := Z.lxor (circular_shift v3 t) v2 in
  let v0 := circular_shift v0 32 in
  with_vars self (v2, v1, v0, v3).

Definition double_sipround (self : SipHash) : SipHash :=
  half_sipround 17 21
    (half_sipround 13 16
       (half_sipround 17 21
          (half_sipround 13 16 self))).

Definition initialization (self : SipHash) : SipHash :=
  let '(k0, k1) := split_lower_upper_words (secret_key self) in
  with_vars self
    (Z.lxor k0 0x736F6D6570736575,
     Z.lxor k1 0x646F72616E646F6D,
     Z.lxor k0 0x6C7967656E657261,
     Z.lxor k1 0x7465646279746573).

Definition reset (self : SipHash) : SipHash :=
  with_hash (initialization (with_vars self (0, 0, 0, 0))) 0.

Definition set_secret_key (new_secret_key : Z) (self : SipHash) : SipHash :=
  reset (mkSipHash new_secret_key (state_variables self) (hash_value self)
           (allow_negative self)).

Definition compress_word (word : Z) (self : SipHash) : SipHash :=
  let '(v0, v1, v2, v3) := state_variables self in
  let self := double_sipround (with_vars self (v0, v1, v2, Z.lxor v3 word)) in
  let '(v0, v1, v2, v3) := state_variables self in
  with_vars self (Z.lxor v0 word, v1, v2, v3).

(** [while upper: lower, upper = split(upper); compress_word(lower)] *)
Fixpoint compression_loop (fuel : nat) (upper : Z) (self : SipHash)
  : option SipHash :=
  if upper =? 0 then Some self
  else match fuel with
       | O => None
       | S fuel' =>
           let '(lower, upper) := split_lower_upper_words upper in
           compression_loop fuel' upper (compress_word lower self)
       end.

Definition compression (fuel : nat) (msg : Z) (self : SipHash)
  : option SipHash :=
  let updated_msg := add_size_byte msg in
  let '(lower, upper) := split_lower_upper_words updated_msg in
  compression_loop fuel upper (compress_word lower self).

Definition finalization (self : SipHash) : SipHash :=
  let '(v0, v1, v2, v3) := state_variables self in
  double_sipround (double_sipround (with_vars self (v0, v1, Z.lxor v2 255, v3))).

Definition siphash_main (fuel : nat) (int_msg : Z) (self : SipHash)
  : option SipHash :=
  match compression fuel int_msg self with
  | None => None
  | Some self =>
      let self := finalization self in
      let '(v0, v1, v2, v3) := state_variables self in
      let h := Z.lxor (Z.lxor (Z.lxor (Z.lxor (hash_value self) v0) v1) v2) v3 in
      let self := with_hash self h in
      if negb (Z.land h (Z.shiftl 1 63) =? 0) && negb (allow_negative self)
      then Some (with_hash self (negate h))
      else Some self
  end.

(** [get_hash] returns the hash and leaves the object in its final state. *)
Definition get_hash (fuel : nat) (input_msg : obj) (self : SipHash)
  : option (Z * SipHash) :=
  let self := reset self in
  let r :=
    match input_msg with
    | PyStr s => siphash_main fuel (str2int s) self
    | PyInt n => siphash_main fuel n self
    | _ => siphash_main fuel (Z.of_N (id input_msg)) self
    end in
  match r with
  | None => None
  | Some self => Some (hash_value self, self)
  end.

End Runtime.

(** The published SipHash-2-4 vector: key [00 01 .. 0f], message the 15
    bytes [00 01 .. 0e]. *)
Example siphash_2_4_reference_vector :
  option_map fst
    (get_hash (fun _ => 0%N) 8
       (PyStr [0;1;2;3;4;5;6;7;8;9;10;11;12;13;14]%N)
       (init 0 0 (Some 0x0f0e0d0c0b0a09080706050403020100) true))
  = Some 0xa129ca6149be45e5.
Proof. vm_compute. reflexivity. Qed.

End siphash.

(** ** hashtable.py *)

(** The result of a method of a mutable object: it returns [a] and leaves the
    object in state [s], or raises [e] and leaves the object in the state [s]
    it had reached, or it is still running when the fuel is spent. *)
Inductive outcome (S A : Type) : Type :=
| Done (a : A) (s : S)
| Raised (e : exn) (s : S)
| Timeout.
Arguments Done {S A} a s.
Arguments Raised {S A} e s.
Arguments Timeout {S A}.

Definition bind {S A B} (m : outcome S A) (k : A -> S -> outcome S B)
  : outcome S B :=
  match m with
  | Done a s => k a s
  | Raised e s => Raised e s
  | Timeout => Timeout
  end.

Module hashtable.

Record HashTableEntry : Type := mkEntry {
  key : obj;
  value : obj;
  hash_value : option Z;
  dummy : bool
}.

(** [self.__dummy = True] *)
Definition set_dummy (self : HashTableEntry) : HashTableEntry :=
  mkEntry (key self) (value self) (hash_value self) true.

(** -1: dummy, 0: empty, 1: filled *)
Definition state (self : HashTableEntry) : Z :=
  if dummy self then -1
  else match hash_value self with
       | None => 0
       | Some _ => 1
       end.

Definition is_dummy (self : HashTableEntry) : bool := state self =? -1.
Definition is_filled (self : HashTableEntry) : bool := state self =? 1.
Definition is_empty (self : HashTableEntry) : bool := state self =? 0.

Definition hash_eqb (a b : option Z) : bool :=
  match a, b with
  | None, None => true
  | Some x, Some y => x =? y
  | _, _ => false
  end.

(** [__eq__]: the hashes first, the keys (by [==]) only when the hashes
    agree. *)
Definition eq (other_eq : obj -> obj -> bool) (self other : HashTableEntry)
  : bool :=
  if negb (hash_eqb (hash_value self) (hash_value other)) then false
  else obj_eqb other_eq (key self) (key other).

Inductive probing : Type := simple | modified | pythonic.

(** The fields of a [HashTable]; [get_new_index] holds the bound method
    chosen by the constructor. *)
Record HashTable : Type := mkTable {
  size : Z;
  used : Z;
  update_used : bool;
  internal_list : list HashTableEntry;
  collision_counter : Z;
  hash_key : option Z;
  get_new_index : probing
}.

Definition load_factor : Q := 1.

Definition with_list (self : HashTable) (l : list HashTableEntry) : HashTable :=
  mkTable (size self) (used self) (update_used self) l
    (collision_counter self) (hash_key self) (get_new_index self).

Definition with_used (self : HashTable) (u : Z) : HashTable :=
  mkTable (size self) u (update_used self) (internal_list self)
    (collision_counter self) (hash_key self) (get_new_index self).

Definition with_update_used (self : HashTable) (b : bool) : HashTable :=
  mkTable (size self) (used self) b (internal_list self)
    (collision_counter self) (hash_key self) (get_new_index self).

Definition with_size (self : HashTable) (n : Z) : HashTable :=
  mkTable n (used self) (update_used self) (internal_list self)
    (collision_counter self) (hash_key self) (get_new_index self).

Definition with_collision_counter (self : HashTable) (c : Z) : HashTable :=
  mkTable (size self) (used self) (update_used self) (internal_list self)
    c (hash_key self) (get_new_index self).

Definition simple_linear_probing (self : HashTable) (prev_index hash_value : Z)
  : Z * Z :=
  (Z.land (prev_index + 1) (size self - 1), hash_value).

Definition modified_linear_probing (self : HashTable) (prev_index hash_value : Z)
  : Z * Z :=
  (Z.land (5 * prev_index + 1) (size self - 1), hash_value).

Definition pythonic_linear_probing (self : HashTable) (prev_index hash_value : Z)
  : Z * Z :=
  (Z.land (5 * prev_index + 1 + hash_value) (size self - 1),
   Z.shiftr hash_value 5).

Definition call_get_new_index (self : HashTable) (prev_index hash_value : Z)
  : Z * Z :=
  match get_new_index self with
  | simple => simple_linear_probing self prev_index hash_value
  | modified => modified_linear_probing self prev_index hash_value
  | pythonic => pythonic_linear_probing self prev_index hash_value
  end.

(** [[HashTableEntry()] * self.__size]: every slot is the one empty entry.
    Only filled entries are ever marked dummy, and each of those is built by
    [update] for one slot, so the sharing is never observed. *)
Definition empty_entry : HashTableEntry := mkEntry PyNone PyNone None false.

Definition init_internal_list (self : HashTable) : list HashTableEntry :=
  repeat empty_entry (Z.to_nat (size self)).

(** [HashTable(hash_key, verbose, collision_resolution)]; the two [assert]s
    raise [AssertionError], and then no object is returned. *)
Definition init (hash_key_arg : option Z) (collision_resolution : string)
  : exn + HashTable :=
  let self := mkTable 8 0 true [] 0 None simple in
  let self := with_list self (init_internal_list self) in
  let self := mkTable (size self) (used self) (update_used self)
                (internal_list self) (collision_counter self) hash_key_arg
                (get_new_index self) in
  let bind_probe p :=
    mkTable (size self) (used self) (update_used self) (internal_list self)
      (collision_counter self) (hash_key self) p in
  if negb (String.eqb collision_resolution "simple"
           || String.eqb collision_resolution "modified"
           || String.eqb collision_resolution "pythonic")
  then inl AssertionError
  else if String.eqb collision_resolution "simple" then inr (bind_probe simple)
  else if String.eqb collision_resolution "modified" then inr (bind_probe modified)
  else if String.eqb collision_resolution "pythonic" then inr (bind_probe pythonic)
  else inl AssertionError.

(** [__get_items]: keys, values and hashes of the filled slots, in slot
    order. *)
Fixpoint get_items_of (l : list HashTableEntry)
  : list obj * list obj * list (option Z) :=
  match l with
  | [] => ([], [], [])
  | entry :: rest =>
      let '(keys, values, hashes) := get_items_of rest in
      if is_filled entry
      then (key entry :: keys, value entry :: values, hash_value entry :: hashes)
      else (keys, values, hashes)
  end.

Definition get_items (self : HashTable) := get_items_of (internal_list self).

Definition keys (self : HashTable) : list obj := fst (fst (get_items self)).
Definition values (self : HashTable) : list obj := snd (fst (get_items self)).

(** [zip(keys, values)] *)
Definition items (self : HashTable) : list (obj * obj) :=
  let '(keys, values, _) := get_items self in
  combine keys values.

(** [__print_collision] counts the probe step; the rest of it prints. *)
Definition print_collision (self : HashTable) : HashTable :=
  with_collision_counter self (collision_counter self + 1).

Section Runtime.

Variables hashsecret_k0 hashsecret_k1 : N.
Variable id : obj -> N.

(** Class attributes of [HashTableEntry]. *)
Variable hash_compress_bits : N.

(** What [==] answers for two keys that are not both [int] or [str]. *)
Variable other_eq : obj -> obj -> bool.

Definition siphash_ : siphash.SipHash :=
  siphash.init hashsecret_k0 hashsecret_k1 None true.

(** [while hash_value: compressed_hash ^= hash_value & lower;
    hash_value >>= self.hash_compress_bits] *)
Fixpoint compress_hash_loop (fuel : nat) (lower compressed_hash hash_value : Z)
  : option Z :=
  if hash_value =? 0 then Some compressed_hash
  else match fuel with
       | O => None
       | S fuel' =>
           compress_hash_loop fuel' lower
             (Z.lxor compressed_hash (Z.land hash_value lower))
             (Z.shiftr hash_value (Z.of_N hash_compress_bits))
       end.

Definition compress_hash (fuel : nat) (hash_value : Z) : option Z :=
  let lower := Z.shiftl 1 (Z.of_N hash_compress_bits) - 1 in
  compress_hash_loop fuel lower 0 hash_value.

(** [__get_hash]; the shared [SipHash] object is reset by every [get_hash],
    so only its secret key and [allow_negative] matter. *)
Definition get_hash (fuel : nat) (key : obj) : option Z :=
  match siphash.get_hash id fuel key siphash_ with
  | None => None
  | Some (hash_value, _) =>
      if negb (hash_compress_bits =? 0)%N then compress_hash fuel hash_value
      else Some hash_value
  end.

(** [HashTableEntry(key, value)]; the [hash_value] argument of the source is
    never read. *)
Definition new_entry (fuel : nat) (key value : obj)
  : option HashTableEntry :=
  match key with
  | PyNone => Some (mkEntry key value None false)
  | _ =>
      match get_hash fuel key with
      | None => None
      | Some h => Some (mkEntry key value (Some h) false)
      end
  end.

Fixpoint lookup_loop (fuel : nat) (entry : HashTableEntry)
    (index hash_value : Z) (skip_dummy : bool) (self : HashTable)
  : outcome HashTable Z :=
  match fuel with
  | O => Timeout
  | S fuel' =>
      match getitem (internal_list self) index with
      | None => Raised IndexError self
      | Some slot =>
          let next :=
            let self := print_collision self in
            let '(index, hash_value) :=
              call_get_new_index self index hash_value in
            lookup_loop fuel' entry index hash_value skip_dummy self in
          if is_dummy slot then
            if negb skip_dummy then Done index self else next
          else if is_filled slot then
            if eq other_eq entry slot then Done index self else next
          else Done index self
      end
  end.

(** [__lookup_key(key, skip_dummy)] *)
Definition lookup_key (fuel : nat) (key : obj) (skip_dummy : bool)
    (self : HashTable) : outcome HashTable Z :=
  match new_entry fuel key PyNone with
  | None => Timeout
  | Some entry =>
      match hash_value entry with
      | None => Raised TypeError self
      | Some hash_value =>
          let index := Z.land hash_value (size self - 1) in
          lookup_loop fuel entry index hash_value skip_dummy self
      end
  end.

(** [get(key)]; the value [None] stands for a key that is not there. *)
Definition get (fuel : nat) (key : obj) (self : HashTable)
  : outcome HashTable obj :=
  bind (lookup_key fuel key true self) (fun index self =>
  match getitem (internal_list self) index with
  | None => Raised IndexError self
  | Some slot =>
      if is_filled slot then Done (value slot) self else Done PyNone self
  end).

Definition remove (fuel : nat) (key : obj) (self : HashTable)
  : outcome HashTable unit :=
  bind (lookup_key fuel key true self) (fun index self =>
  match getitem (internal_list self) index with
  | None => Raised IndexError self
  | Some slot =>
      if is_filled slot then
        match setitem (internal_list self) index (set_dummy slot) with
        | None => Raised IndexError self
        | Some l => Done tt (with_list self l)
        end
      else Done tt self
  end).

(** [for key, value in items: self.update(key, value)] *)
Fixpoint replay (update : obj -> obj -> HashTable -> outcome HashTable unit)
    (items : list (obj * obj)) (self : HashTable) : outcome HashTable unit :=
  match items with
  | [] => Done tt self
  | (key, value) :: rest =>
      bind (update key value self) (fun _ self => replay update rest self)
  end.

(** [__increment_size], with the recursive call to [update] passed in. *)
Definition increment_size
    (update : obj -> obj -> HashTable -> outcome HashTable unit)
    (self : HashTable) : outcome HashTable unit :=
  let self := with_update_used self false in
  let self := with_size self (Z.shiftl (size self) 1) in
  let items := items self in
  let self := with_list self (init_internal_list self) in
  bind (replay update items self) (fun _ self =>
  Done tt (with_update_used self true)).

(** [(self.__used + 1) / self.__size > self.load_factor].  Python divides two
    integers into a float; the quotient of an integer below 2^53 by a power
    of two is exact, so the comparison is the one of the rationals. *)
Definition over_load_factor (self : HashTable) : bool :=
  negb (Qle_bool (inject_Z (used self + 1) / inject_Z (size self)) load_factor).

Fixpoint update (fuel : nat) (key value : obj) (self : HashTable)
  : outcome HashTable unit :=
  match fuel with
  | O => Timeout
  | S fuel' =>
      if size self =? 0 then Raised ZeroDivisionError self else
      bind (if over_load_factor self
            then increment_size (update fuel') self
            else Done tt self) (fun _ self =>
      bind (lookup_key fuel' key false self) (fun index self =>
      match getitem (internal_list self) index with
      | None => Raised IndexError self
      | Some slot =>
          let self :=
            if negb (is_dummy slot) && update_used self
            then with_used self (used self + 1) else self in
          match new_entry fuel' key value with
          | None => Timeout
          | Some entry =>
              match setitem (internal_list self) index entry with
              | None => Raised IndexError self
              | Some l => Done tt (with_list self l)
              end
          end
      end))
  end.

End Runtime.

End hashtable.

(** * Properties *)

(** ** Lists indexed the Python way *)

Lemma norm_index_in_range {A} (l : list A) (i : Z) :
  0 <= i < Z.of_nat (List.length l) -> norm_index l i = Some (Z.to_nat i).
Proof.
  intros Hi. unfold norm_index.
  destruct (i <? 0) eqn:E; [apply Z.ltb_lt in E; lia|].
  replace (0 <=? i) with true by (symmetry; apply Z.leb_le; lia).
  replace (i <? Z.of_nat (List.length l)) with true
    by (symmetry; apply Z.ltb_lt; lia).
  reflexivity.
Qed.

Lemma norm_index_bound {A} (l : list A) (i : Z) (j : nat) :
  norm_index l i = Some j -> (j < List.length l)%nat.
Proof.
  unfold norm_index. intros H.
  destruct ((0 <=? _) && (_ <? _)) eqn:E; [|discriminate].
  injection H as <-. apply andb_true_iff in E as [E1 E2].
  apply Z.leb_le in E1. apply Z.ltb_lt in E2. lia.
Qed.

Lemma replace_nth_length {A} (l : list A) (j : nat) (x : A) :
  List.length (replace_nth l j x) = List.length l.
Proof.
  revert j. induction l as [|a l IH]; intros [|j]; simpl; auto.
Qed.

Lemma nth_error_replace_nth_same {A} (l : list A) (j : nat) (x : A) :
  (j < List.length l)%nat -> nth_error (replace_nth l j x) j = Some x.
Proof.
  revert j. induction l as [|a l IH]; intros [|j] H; simpl in *;
    try lia; auto. apply IH. lia.
Qed.

Lemma nth_error_replace_nth_other {A} (l : list A) (j j' : nat) (x : A) :
  j <> j' -> nth_error (replace_nth l j x) j' = nth_error l j'.
Proof.
  revert j j'. induction l as [|a l IH]; intros [|j] [|j'] H; simpl;
    try congruence; auto.
Qed.

(** ** The length of [bin] *)

Lemma bin_digits_length (p : positive) (acc : string) :
  Z.of_nat (String.length (bin_digits p acc))
  = Z.pos (Pos.size p) + Z.of_nat (String.length acc).
Proof.
  revert acc. induction p as [p IH|p IH|]; intros acc; simpl bin_digits.
  - rewrite IH. simpl String.length. simpl Pos.size. lia.
  - rewrite IH. simpl String.length. simpl Pos.size. lia.
  - simpl String.length. simpl Pos.size. lia.
Qed.

(** The number of binary digits of a non-negative integer. *)
Definition bit_length (m : Z) : Z := if m =? 0 then 1 else Z.log2 m + 1.

Lemma log2_pos_size (p : positive) : Z.log2 (Z.pos p) + 1 = Z.pos (Pos.size p).
Proof. destruct p; simpl; try rewrite Pos2Z.inj_succ; lia. Qed.

Lemma len_bin_nonneg (m : Z) : 0 <= m -> len (bin m) - 2 = bit_length m.
Proof.
  intros Hm. unfold len, bit_length. destruct m as [|p|p]; try lia.
  - reflexivity.
  - change (Z.pos p =? 0) with false. cbv iota.
    unfold bin. simpl String.append.
    change (String.length (String "0" (String "b" (bin_digits p ""))))
      with (S (S (String.length (bin_digits p "")))).
    rewrite !Nat2Z.inj_succ, bin_digits_length, log2_pos_size.
    simpl String.length. lia.
Qed.

Lemma len_bin_neg (p : positive) :
  len (bin (Z.neg p)) - 2 = bit_length (Z.pos p) + 1.
Proof.
  unfold len, bit_length. change (Z.pos p =? 0) with false. cbv iota.
  unfold bin. simpl String.append.
  change (String.length (String "-" (String "0" (String "b" (bin_digits p "")))))
    with (S (S (S (String.length (bin_digits p ""))))).
  rewrite !Nat2Z.inj_succ, bin_digits_length, log2_pos_size.
    simpl String.length. lia.
Qed.

Lemma bit_length_pos (m : Z) : 0 <= m -> 1 <= bit_length m.
Proof.
  intros Hm. unfold bit_length. destruct (m =? 0); [lia|].
  pose proof (Z.log2_nonneg m). lia.
Qed.

Lemma bit_length_bound (m : Z) : 0 <= m -> m < 2 ^ bit_length m.
Proof.
  intros Hm. unfold bit_length. destruct (m =? 0) eqn:E.
  - apply Z.eqb_eq in E. subst. reflexivity.
  - apply Z.eqb_neq in E.
    destruct (Z.log2_spec m) as [_ H]; [lia|].
    replace (Z.log2 m + 1) with (Z.succ (Z.log2 m)) by lia. exact H.
Qed.

(** ** SipHash: the length byte *)

Section SipHashFacts.

Variable id : obj -> N.

(** The byte length [L'] of a message and its number of 64-bit words [W],
    as the source computes them. *)
Definition byte_length (m : Z) : Z := Z.shiftr (bit_length m + 7) 3.
Definition word_count (m : Z) : Z := Z.shiftr (byte_length m + 8) 3.

(** The tag with the shift [8*W - 8], as the specification of C8 writes it:
    [m | (L << (8*W - 8))]. *)
Definition spec_add_size_byte (m : Z) : Z :=
  Z.lor m (Z.shiftl (byte_length m mod 256) (8 * word_count m - 8)).

Lemma byte_length_bounds (m : Z) :
  0 <= m -> 1 <= byte_length m /\ bit_length m <= 8 * byte_length m.
Proof.
  intros Hm. pose proof (bit_length_pos m Hm) as Hb. unfold byte_length.
  rewrite Z.shiftr_div_pow2 by lia. change (2 ^ 3) with 8.
  pose proof (Z.div_mod (bit_length m + 7) 8 ltac:(lia)).
  pose proof (Z.mod_pos_bound (bit_length m + 7) 8 ltac:(lia)). lia.
Qed.

Lemma word_count_bounds (m : Z) :
  0 <= m -> 1 <= word_count m /\ 8 * byte_length m <= 64 * word_count m - 8.
Proof.
  intros Hm. destruct (byte_length_bounds m Hm) as [Hb _]. unfold word_count.
  rewrite Z.shiftr_div_pow2 by lia. change (2 ^ 3) with 8.
  pose proof (Z.div_mod (byte_length m + 8) 8 ltac:(lia)).
  pose proof (Z.mod_pos_bound (byte_length m + 8) 8 ltac:(lia)). lia.
Qed.

Lemma add_size_byte_eq (m : Z) :
  0 <= m ->
  siphash.add_size_byte m
  = Z.lor m (Z.shiftl (byte_length m mod 256) (64 * word_count m - 8)).
Proof.
  intros Hm. unfold siphash.add_size_byte.
  rewrite (len_bin_nonneg m Hm).
  fold (byte_length m). fold (word_count m).
  change 255 with (Z.ones 8). rewrite Z.land_ones by lia.
  rewrite (Z.shiftl_mul_pow2 (word_count m) 6) by lia. change (2 ^ 6) with 64.
  change (2 ^ 8) with 256. f_equal. f_equal. lia.
Qed.

Lemma message_below_tag (m : Z) :
  0 <= m -> m < 2 ^ (64 * word_count m - 8).
Proof.
  intros Hm. pose proof (bit_length_bound m Hm) as H1.
  pose proof (bit_length_pos m Hm).
  destruct (byte_length_bounds m Hm) as [_ H2].
  destruct (word_count_bounds m Hm) as [_ H3].
  eapply Z.lt_le_trans; [exact H1|]. apply Z.pow_le_mono_r; lia.
Qed.

Lemma testbit_above (m k i : Z) :
  0 <= m < 2 ^ k -> k <= i -> Z.testbit m i = false.
Proof.
  intros [Hm Hlt] Hi. destruct (Z.eq_dec m 0) as [->|Hne].
  - apply Z.bits_0.
  - apply Z.bits_above_log2; [lia|].
    assert (Z.log2 m < k); [|lia].
    apply Z.log2_lt_pow2; lia.
Qed.

Lemma add_size_byte_nonneg (m : Z) : 0 <= m -> 0 <= siphash.add_size_byte m.
Proof.
  intros Hm. rewrite add_size_byte_eq by assumption.
  apply Z.lor_nonneg. split; [assumption|].
  apply Z.shiftl_nonneg. apply Z.mod_pos_bound. lia.
Qed.

Lemma add_size_byte_neg (m : Z) : m < 0 -> siphash.add_size_byte m < 0.
Proof.
  intros Hm. unfold siphash.add_size_byte. apply Z.lor_neg. left. exact Hm.
Qed.

(** C8 with the shift [8*W - 8] fails already for the message [1]: the source
    puts the length byte at bit 56, the shift [8*W - 8] is 0. *)
Lemma add_size_byte_claimed_shift_wrong :
  siphash.add_size_byte 1 = 2 ^ 56 + 1 /\
  spec_add_size_byte 1 = 1 /\
  siphash.add_size_byte 1 <> spec_add_size_byte 1.
Proof. vm_compute. repeat split; congruence. Qed.

(** C8 (amended): for a non-negative message [m] with byte length
    [L' = (bit_length m + 7) >> 3] and [W = (L' + 8) >> 3] words,
    [add_size_byte m = m | ((L' mod 256) << (64*W - 8))]: the length byte is
    the top byte of the last of the [W] words, the tag lies inside that word,
    and it shares no bit with the message. *)
Theorem add_size_byte_top_byte (m : Z) :
  0 <= m ->
  let tag := Z.shiftl (byte_length m mod 256) (64 * word_count m - 8) in
  siphash.add_size_byte m = Z.lor m tag /\
  byte_length m = (bit_length m + 7) / 8 /\
  word_count m = (byte_length m + 8) / 8 /\
  m < 2 ^ (64 * word_count m - 8) /\
  (forall i, 0 <= i < 64 * word_count m - 8 -> Z.testbit tag i = false) /\
  tag < 2 ^ (64 * word_count m) /\
  Z.land m tag = 0 /\
  siphash.add_size_byte m = m + tag.
Proof.
  intros Hm tag.
  destruct (word_count_bounds m Hm) as [Hw _].
  pose proof (message_below_tag m Hm) as Hlt.
  assert (Hlow : forall i, 0 <= i < 64 * word_count m - 8 ->
                           Z.testbit tag i = false).
  { intros i Hi. unfold tag. rewrite Z.shiftl_spec by lia.
    apply Z.testbit_neg_r. lia. }
  assert (Hland : Z.land m tag = 0).
  { apply Z.bits_inj'. intros i Hi. rewrite Z.land_spec, Z.bits_0.
    destruct (Z_lt_le_dec i (64 * word_count m - 8)).
    - rewrite Hlow by lia. apply andb_false_r.
    - rewrite (testbit_above m (64 * word_count m - 8) i) by lia.
      reflexivity. }
  repeat split.
  - apply add_size_byte_eq; assumption.
  - unfold byte_length. rewrite Z.shiftr_div_pow2 by lia. reflexivity.
  - unfold word_count. rewrite Z.shiftr_div_pow2 by lia. reflexivity.
  - exact Hlt.
  - exact Hlow.
  - unfold tag. rewrite Z.shiftl_mul_pow2 by lia.
    assert (Hp : 2 ^ (64 * word_count m) = 256 * 2 ^ (64 * word_count m - 8)).
    { replace (64 * word_count m) with (8 + (64 * word_count m - 8)) at 1 by lia.
      rewrite Z.pow_add_r by lia. reflexivity. }
    rewrite Hp.
    pose proof (Z.mod_pos_bound (byte_length m) 256 ltac:(lia)).
    assert (0 < 2 ^ (64 * word_count m - 8)) by (apply Z.pow_pos_nonneg; lia).
    nia.
  - exact Hland.
  - rewrite add_size_byte_eq by assumption. fold tag.
    rewrite Z.add_nocarry_lxor by exact Hland.
    rewrite Z.lxor_lor by exact Hland. reflexivity.
Qed.

(** The theorem at the message [1]. *)
Lemma add_size_byte_top_byte_witness :
  0 <= 1 /\ siphash.add_size_byte 1 = Z.lor 1 (Z.shiftl 1 56).
Proof.
  split; [lia|].
  pose proof (add_size_byte_top_byte 1 ltac:(lia)) as H.
  cbv zeta in H. destruct H as [H _]. exact H.
Defined.

(** ** SipHash: termination *)

Lemma compression_loop_negative (fuel : nat) (upper : Z) (self : siphash.SipHash) :
  upper < 0 -> siphash.compression_loop fuel upper self = None.
Proof.
  revert upper self. induction fuel as [|fuel IH]; intros upper self Hu.
  - simpl. destruct (upper =? 0) eqn:E; [apply Z.eqb_eq in E; lia|reflexivity].
  - simpl. destruct (upper =? 0) eqn:E; [apply Z.eqb_eq in E; lia|].
    apply IH. apply Z.shiftr_neg. exact Hu.
Qed.

Lemma compression_negative (fuel : nat) (msg : Z) (self : siphash.SipHash) :
  msg < 0 -> siphash.compression fuel msg self = None.
Proof.
  intros Hm. unfold siphash.compression. simpl.
  apply compression_loop_negative. apply Z.shiftr_neg.
  apply add_size_byte_neg. exact Hm.
Qed.

Lemma compression_loop_mono (fuel fuel' : nat) (upper : Z)
    (self r : siphash.SipHash) :
  (fuel <= fuel')%nat ->
  siphash.compression_loop fuel upper self = Some r ->
  siphash.compression_loop fuel' upper self = Some r.
Proof.
  revert fuel' upper self. induction fuel as [|fuel IH];
    intros fuel' upper self Hle H.
  - simpl in H. destruct (upper =? 0) eqn:E; [|discriminate].
    destruct fuel'; simpl; rewrite E; exact H.
  - destruct fuel' as [|fuel']; [lia|]. simpl in *.
    destruct (upper =? 0); [exact H|]. apply IH; [lia|exact H].
Qed.

Lemma compression_loop_total (n : nat) (upper : Z) (self : siphash.SipHash) :
  0 <= upper <= Z.of_nat n ->
  exists r, siphash.compression_loop n upper self = Some r.
Proof.
  revert upper self. induction n as [|n IH]; intros upper self Hu.
  - exists self. simpl. replace upper with 0 by lia. reflexivity.
  - simpl. destruct (upper =? 0) eqn:E; [eauto|].
    apply Z.eqb_neq in E. apply IH.
    rewrite Z.shiftr_div_pow2 by lia. split.
    + apply Z.div_pos; lia.
    + assert (upper / 2 ^ 64 < upper) by (apply Z.div_lt; lia). lia.
Qed.

Definition vars_nonneg (self : siphash.SipHash) : Prop :=
  let '(v0, v1, v2, v3) := siphash.state_variables self in
  0 <= v0 /\ 0 <= v1 /\ 0 <= v2 /\ 0 <= v3.

Lemma lower_word_nonneg (x : Z) : 0 <= fst (siphash.split_lower_upper_words x).
Proof. simpl. apply Z.land_nonneg. right. vm_compute. discriminate. Qed.

Lemma circular_shift_nonneg (v s : Z) : 0 <= v -> 0 <= siphash.circular_shift v s.
Proof.
  intros Hv. unfold siphash.circular_shift. simpl. apply Z.lor_nonneg. split.
  - apply Z.land_nonneg. right. vm_compute. discriminate.
  - apply Z.shiftr_nonneg. apply Z.shiftl_nonneg. exact Hv.
Qed.

Lemma half_sipround_nonneg (s t : Z) (self : siphash.SipHash) :
  vars_nonneg self -> vars_nonneg (siphash.half_sipround s t self).
Proof.
  unfold vars_nonneg, siphash.half_sipround.
  destruct (siphash.state_variables self) as [[[v0 v1] v2] v3].
  intros (H0 & H1 & H2 & H3). cbn [siphash.with_vars siphash.state_variables].
  pose proof (lower_word_nonneg (v0 + v1)).
  pose proof (lower_word_nonneg (v2 + v3)).
  repeat split; auto.
  - apply Z.lxor_nonneg. split; intros _; auto using circular_shift_nonneg.
  - apply circular_shift_nonneg; assumption.
  - apply Z.lxor_nonneg. split; intros _; auto using circular_shift_nonneg.
Qed.

Lemma double_sipround_nonneg (self : siphash.SipHash) :
  vars_nonneg self -> vars_nonneg (siphash.double_sipround self).
Proof.
  intros H. unfold siphash.double_sipround.
  repeat apply half_sipround_nonneg. exact H.
Qed.

Lemma compress_word_nonneg (word : Z) (self : siphash.SipHash) :
  0 <= word -> vars_nonneg self -> vars_nonneg (siphash.compress_word word self).
Proof.
  intros Hw H. unfold siphash.compress_word.
  destruct (siphash.state_variables self) as [[[v0 v1] v2] v3] eqn:E.
  assert (Hd : vars_nonneg (siphash.double_sipround
            (siphash.with_vars self (v0, v1, v2, Z.lxor v3 word)))).
  { apply double_sipround_nonneg. unfold vars_nonneg in *. rewrite E in H.
    cbn [siphash.with_vars siphash.state_variables].
    destruct H as (H0 & H1 & H2 & H3). repeat split; auto.
    apply Z.lxor_nonneg. tauto. }
  unfold vars_nonneg in Hd |- *.
  destruct (siphash.state_variables (siphash.double_sipround _))
    as [[[w0 w1] w2] w3].
  cbn [siphash.with_vars siphash.state_variables].
  destruct Hd as (H0 & H1 & H2 & H3). repeat split; auto.
  apply Z.lxor_nonneg. tauto.
Qed.

Lemma compression_loop_nonneg (fuel : nat) (upper : Z) (self r : siphash.SipHash) :
  0 <= upper -> vars_nonneg self ->
  siphash.compression_loop fuel upper self = Some r -> vars_nonneg r.
Proof.
  revert upper self. induction fuel as [|fuel IH]; intros upper self Hu Hs H;
    simpl in H; destruct (upper =? 0); try congruence.
  eapply IH; [| |exact H].
  - apply Z.shiftr_nonneg. exact Hu.
  - apply compress_word_nonneg; [|exact Hs]. apply (lower_word_nonneg upper).
Qed.

Lemma finalization_nonneg (self : siphash.SipHash) :
  vars_nonneg self -> vars_nonneg (siphash.finalization self).
Proof.
  intros H. unfold siphash.finalization.
  destruct (siphash.state_variables self) as [[[v0 v1] v2] v3] eqn:E.
  repeat apply double_sipround_nonneg. unfold vars_nonneg in *.
  rewrite E in H. cbn [siphash.with_vars siphash.state_variables].
  destruct H as (H0 & H1 & H2 & H3). repeat split; auto.
  apply Z.lxor_nonneg. split; intros _; [lia|assumption].
Qed.

Lemma reset_nonneg (self : siphash.SipHash) :
  0 <= siphash.secret_key self -> vars_nonneg (siphash.reset self).
Proof.
  intros Hk. unfold siphash.reset, siphash.initialization, vars_nonneg.
  cbn [siphash.with_vars siphash.with_hash siphash.state_variables
       siphash.secret_key siphash.split_lower_upper_words].
  assert (0 <= Z.land (siphash.secret_key self) (Z.shiftl 1 64 - 1))
    by (apply Z.land_nonneg; right; vm_compute; discriminate).
  assert (0 <= Z.shiftr (siphash.secret_key self) 64)
    by (apply Z.shiftr_nonneg; exact Hk).
  repeat split; apply Z.lxor_nonneg; split; intros _; auto;
    vm_compute; discriminate.
Qed.

Lemma reset_fields (self : siphash.SipHash) :
  siphash.secret_key (siphash.reset self) = siphash.secret_key self /\
  siphash.hash_value (siphash.reset self) = 0 /\
  siphash.allow_negative (siphash.reset self) = siphash.allow_negative self.
Proof.
  unfold siphash.reset, siphash.initialization.
  cbn [siphash.with_vars siphash.with_hash siphash.state_variables
       siphash.secret_key siphash.split_lower_upper_words
       siphash.hash_value siphash.allow_negative]. auto.
Qed.

(** The fields the mixing steps leave alone. *)
Definition same_config (a b : siphash.SipHash) : Prop :=
  siphash.secret_key a = siphash.secret_key b /\
  siphash.hash_value a = siphash.hash_value b /\
  siphash.allow_negative a = siphash.allow_negative b.

Lemma same_config_refl a : same_config a a.
Proof. repeat split. Qed.

Lemma same_config_trans a b c :
  same_config a b -> same_config b c -> same_config a c.
Proof. unfold same_config. intuition congruence. Qed.

Lemma with_vars_config self vars : same_config (siphash.with_vars self vars) self.
Proof. repeat split. Qed.

Lemma half_sipround_config s t self :
  same_config (siphash.half_sipround s t self) self.
Proof.
  unfold siphash.half_sipround.
  destruct (siphash.state_variables self) as [[[v0 v1] v2] v3].
  apply with_vars_config.
Qed.

Lemma double_sipround_config self :
  same_config (siphash.double_sipround self) self.
Proof.
  unfold siphash.double_sipround.
  repeat (eapply same_config_trans; [apply half_sipround_config|]).
  apply same_config_refl.
Qed.

Lemma compress_word_config word self :
  same_config (siphash.compress_word word self) self.
Proof.
  unfold siphash.compress_word.
  destruct (siphash.state_variables self) as [[[v0 v1] v2] v3].
  destruct (siphash.state_variables (siphash.double_sipround _))
    as [[[w0 w1] w2] w3].
  eapply same_config_trans; [apply with_vars_config|].
  eapply same_config_trans; [apply double_sipround_config|].
  apply with_vars_config.
Qed.

Lemma compression_loop_config fuel upper self r :
  siphash.compression_loop fuel upper self = Some r -> same_config r self.
Proof.
  revert upper self. induction fuel as [|fuel IH]; intros upper self H;
    simpl in H; destruct (upper =? 0); try discriminate;
    try (injection H as <-; apply same_config_refl).
  eapply same_config_trans; [eapply IH; exact H|]. apply compress_word_config.
Qed.

Lemma finalization_config self : same_config (siphash.finalization self) self.
Proof.
  unfold siphash.finalization.
  destruct (siphash.state_variables self) as [[[v0 v1] v2] v3].
  repeat (eapply same_config_trans; [apply double_sipround_config|]).
  apply with_vars_config.
Qed.

Lemma str2int_from_nonneg (s : list N) (i acc : Z) :
  0 <= acc -> 0 <= siphash.str2int_from i s acc.
Proof.
  revert i acc. induction s as [|c s IH]; intros i acc Ha; simpl; [exact Ha|].
  apply IH. apply Z.lor_nonneg. split; [exact Ha|].
  apply Z.shiftl_nonneg. lia.
Qed.

(** The integer [get_hash] passes to [__siphash_main]. *)
Definition message_of (input_msg : obj) : Z :=
  match input_msg with
  | PyStr s => siphash.str2int s
  | PyInt n => n
  | _ => Z.of_N (id input_msg)
  end.

Lemma get_hash_unfold fuel input_msg self :
  siphash.get_hash id fuel input_msg self
  = match siphash.siphash_main fuel (message_of input_msg) (siphash.reset self) with
    | None => None
    | Some r => Some (siphash.hash_value r, r)
    end.
Proof. destruct input_msg; reflexivity. Qed.

Lemma message_of_nonneg (input_msg : obj) :
  (forall n, input_msg = PyInt n -> 0 <= n) -> 0 <= message_of input_msg.
Proof.
  intros H. destruct input_msg; simpl; try lia.
  - apply H. reflexivity.
  - apply str2int_from_nonneg. lia.
Qed.

Lemma siphash_main_negative fuel msg self :
  msg < 0 -> siphash.siphash_main fuel msg self = None.
Proof.
  intros H. unfold siphash.siphash_main.
  rewrite compression_negative by exact H. reflexivity.
Qed.

Lemma siphash_main_mono fuel fuel' msg self r :
  (fuel <= fuel')%nat ->
  siphash.siphash_main fuel msg self = Some r ->
  siphash.siphash_main fuel' msg self = Some r.
Proof.
  intros Hle. unfold siphash.siphash_main, siphash.compression.
  cbn [siphash.split_lower_upper_words].
  destruct (siphash.compression_loop fuel _ _) as [c|] eqn:E; [|discriminate].
  rewrite (compression_loop_mono fuel fuel' _ _ c Hle E). auto.
Qed.

Lemma siphash_main_total msg self :
  0 <= msg ->
  exists fuel r, siphash.siphash_main fuel msg self = Some r.
Proof.
  intros Hm. unfold siphash.siphash_main, siphash.compression.
  cbn [siphash.split_lower_upper_words].
  set (upper := Z.shiftr (siphash.add_size_byte msg) 64).
  assert (Hu : 0 <= upper)
    by (apply Z.shiftr_nonneg, add_size_byte_nonneg; exact Hm).
  destruct (compression_loop_total (Z.to_nat upper) upper
              (siphash.compress_word
                 (Z.land (siphash.add_size_byte msg) (Z.shiftl 1 64 - 1)) self))
    as [c Hc]; [lia|].
  exists (Z.to_nat upper). rewrite Hc.
  destruct (siphash.state_variables (siphash.finalization c))
    as [[[v0 v1] v2] v3].
  destruct (_ && _); eauto.
Qed.

Lemma siphash_main_nonneg fuel msg self r :
  0 <= msg -> vars_nonneg self -> 0 <= siphash.hash_value self ->
  siphash.allow_negative self = true ->
  siphash.siphash_main fuel msg self = Some r -> 0 <= siphash.hash_value r.
Proof.
  intros Hm Hv Hh Ha. unfold siphash.siphash_main, siphash.compression.
  cbn [siphash.split_lower_upper_words].
  destruct (siphash.compression_loop fuel _ _) as [c|] eqn:E; [|discriminate].
  assert (Hc : vars_nonneg (siphash.finalization c)).
  { apply finalization_nonneg. eapply compression_loop_nonneg; [| |exact E].
    - apply Z.shiftr_nonneg, add_size_byte_nonneg; exact Hm.
    - apply compress_word_nonneg; [|exact Hv].
      apply (lower_word_nonneg (siphash.add_size_byte msg)). }
  assert (Hcfg : same_config (siphash.finalization c) self).
  { eapply same_config_trans; [apply finalization_config|].
    eapply same_config_trans; [eapply compression_loop_config; exact E|].
    apply compress_word_config. }
  destruct Hcfg as (_ & Hh' & Ha'). unfold vars_nonneg in Hc.
  destruct (siphash.state_variables (siphash.finalization c))
    as [[[v0 v1] v2] v3].
  destruct Hc as (H0 & H1 & H2 & H3).
  cbn [siphash.with_hash siphash.allow_negative].
  rewrite Ha', Ha, andb_false_r. intros H. injection H as <-.
  cbn [siphash.with_hash siphash.hash_value]. rewrite Hh'.
  repeat (apply Z.lxor_nonneg; split; intros _; auto).
Qed.

(** Hashing a negative integer never returns: [-n | tag] stays negative, so
    [upper] is negative for ever in [while upper]. *)
Lemma get_hash_negative_int fuel n self :
  n < 0 -> siphash.get_hash id fuel (PyInt n) self = None.
Proof.
  intros Hn. rewrite get_hash_unfold. simpl message_of.
  rewrite siphash_main_negative by exact Hn. reflexivity.
Qed.

Lemma get_hash_mono fuel fuel' input_msg self r :
  (fuel <= fuel')%nat ->
  siphash.get_hash id fuel input_msg self = Some r ->
  siphash.get_hash id fuel' input_msg self = Some r.
Proof.
  intros Hle. rewrite !get_hash_unfold.
  destruct (siphash.siphash_main fuel _ _) as [c|] eqn:E; [|discriminate].
  rewrite (siphash_main_mono fuel fuel' _ _ c Hle E). auto.
Qed.

Lemma get_hash_total input_msg self :
  (forall n, input_msg = PyInt n -> 0 <= n) ->
  exists fuel r, siphash.get_hash id fuel input_msg self = Some r.
Proof.
  intros H.
  destruct (siphash_main_total (message_of input_msg) (siphash.reset self)
              (message_of_nonneg _ H)) as (fuel & r & Hr).
  exists fuel. rewrite get_hash_unfold, Hr. eauto.
Qed.

Lemma get_hash_nonneg fuel input_msg self h r :
  0 <= siphash.secret_key self -> siphash.allow_negative self = true ->
  siphash.get_hash id fuel input_msg self = Some (h, r) -> 0 <= h.
Proof.
  intros Hk Ha. rewrite get_hash_unfold.
  destruct (siphash.siphash_main fuel _ _) as [c|] eqn:E; [|discriminate].
  intros H. injection H as <- <-.
  destruct (Z_lt_le_dec (message_of input_msg) 0) as [Hneg|Hpos].
  - rewrite siphash_main_negative in E by exact Hneg. discriminate.
  - destruct (reset_fields self) as (_ & Hh & Ha').
    eapply siphash_main_nonneg; [exact Hpos| | | |exact E].
    + apply reset_nonneg. exact Hk.
    + rewrite Hh. lia.
    + congruence.
Qed.

(** C7 at the failing input: for the integer [-1] the hash is never
    returned, whatever the fuel, the secret key and the state of the hasher,
    while the hash of [1], which C7 says it equals, is returned. *)
Theorem get_hash_minus_one_never_returns :
  forall (fuel : nat) (self : siphash.SipHash),
    siphash.get_hash id fuel (PyInt (-1)) self = None /\
    exists fuel1 r, siphash.get_hash id fuel1 (PyInt 1) self = Some r.
Proof.
  intros fuel self. split.
  - apply get_hash_negative_int. lia.
  - apply get_hash_total. intros n H. injection H as <-. lia.
Qed.

(** ** SipHash: words, rotations and the string encoding *)

(** X1: [split_lower_upper_words] cuts any integer, negative ones included,
    into a 64-bit low word and the rest, and the two parts give the integer
    back. *)
Theorem split_words_recombine (big_int : Z) :
  0 <= fst (siphash.split_lower_upper_words big_int) < 2 ^ 64 /\
  big_int
  = fst (siphash.split_lower_upper_words big_int)
    + 2 ^ 64 * snd (siphash.split_lower_upper_words big_int).
Proof.
  cbn [siphash.split_lower_upper_words fst snd].
  change (Z.shiftl 1 64 - 1) with (Z.ones 64).
  rewrite Z.land_ones, Z.shiftr_div_pow2 by lia. split.
  - apply Z.mod_pos_bound. lia.
  - rewrite Z.add_comm. apply Z.div_mod. lia.
Qed.

Lemma circular_shift_testbit (var shift i : Z) :
  0 <= var < 2 ^ 64 -> 0 <= shift <= 64 -> 0 <= i ->
  Z.testbit (siphash.circular_shift var shift) i
  = if i <? 64 then Z.testbit var ((i - shift) mod 64) else false.
Proof.
  intros Hv Hs Hi. unfold siphash.circular_shift.
  cbn [siphash.split_lower_upper_words].
  change (Z.shiftl 1 64 - 1) with (Z.ones 64).
  rewrite Z.lor_spec, Z.land_spec, Z.shiftr_spec, !Z.shiftl_spec by lia.
  destruct (i <? 64) eqn:E.
  - apply Z.ltb_lt in E. rewrite Z.ones_spec_low by lia. rewrite andb_true_r.
    destruct (Z_lt_le_dec i shift) as [Hlt|Hge].
    + rewrite (Z.testbit_neg_r var (i - shift)) by lia. simpl.
      f_equal. replace (i - shift) with (i + 64 - shift + (-1) * 64) by lia.
      rewrite Z.mod_add by lia. rewrite Z.mod_small by lia. reflexivity.
    + rewrite (testbit_above var 64 (i + 64 - shift)) by lia.
      rewrite orb_false_r. rewrite Z.mod_small by lia. reflexivity.
  - apply Z.ltb_ge in E. rewrite Z.ones_spec_high by lia.
    rewrite andb_false_r. simpl. apply (testbit_above var 64); lia.
Qed.

Lemma word_of_bits (x : Z) :
  0 <= x -> (forall i, 64 <= i -> Z.testbit x i = false) -> x < 2 ^ 64.
Proof.
  intros Hx Hbits. destruct (Z.eq_dec x 0) as [->|Hne]; [reflexivity|].
  apply Z.log2_lt_pow2; [lia|].
  destruct (Z_lt_le_dec (Z.log2 x) 64) as [H|H]; [exact H|].
  specialize (Hbits _ H). rewrite Z.bit_log2 in Hbits by lia. discriminate.
Qed.

Lemma word_of_bits_inv (x : Z) :
  0 <= x -> (forall i, 64 <= i -> Z.testbit x i = false) -> 0 <= x < 2 ^ 64.
Proof. intros Hx Hb. split; [exact Hx|apply word_of_bits; assumption]. Qed.

Lemma circular_shift_word (var shift : Z) :
  0 <= var < 2 ^ 64 -> 0 <= shift <= 64 ->
  0 <= siphash.circular_shift var shift < 2 ^ 64.
Proof.
  intros Hv Hs. apply word_of_bits_inv.
  - apply circular_shift_nonneg. lia.
  - intros i Hi. rewrite circular_shift_testbit by lia.
    replace (i <? 64) with false by (symmetry; apply Z.ltb_ge; lia).
    reflexivity.
Qed.

(** X2: on a 64-bit word [circular_shift] is the rotation to the left: the
    result is a 64-bit word again and its bit [i] is bit [i - shift]
    (modulo 64) of the argument. *)
Theorem circular_shift_rotates (var shift : Z) :
  0 <= var < 2 ^ 64 -> 0 <= shift <= 64 ->
  0 <= siphash.circular_shift var shift < 2 ^ 64 /\
  forall i, 0 <= i < 64 ->
    Z.testbit (siphash.circular_shift var shift) i
    = Z.testbit var ((i - shift) mod 64).
Proof.
  intros Hv Hs. split; [apply circular_shift_word; assumption|].
  intros i Hi. rewrite circular_shift_testbit by lia.
  replace (i <? 64) with true by (symmetry; apply Z.ltb_lt; lia).
  reflexivity.
Qed.

(** X3: rotating by [shift] and then by [64 - shift] gives the word back. *)
Theorem circular_shift_round_trip (var shift : Z) :
  0 <= var < 2 ^ 64 -> 0 <= shift <= 64 ->
  siphash.circular_shift (siphash.circular_shift var shift) (64 - shift) = var.
Proof.
  intros Hv Hs.
  pose proof (circular_shift_word var shift Hv Hs) as Hw.
  apply Z.bits_inj'. intros i Hi.
  rewrite circular_shift_testbit by lia.
  destruct (i <? 64) eqn:E.
  - apply Z.ltb_lt in E.
    rewrite circular_shift_testbit by (try lia; apply Z.mod_pos_bound; lia).
    pose proof (Z.mod_pos_bound (i - (64 - shift)) 64 ltac:(lia)).
    replace ((i - (64 - shift)) mod 64 <? 64) with true
      by (symmetry; apply Z.ltb_lt; lia).
    f_equal. rewrite Zminus_mod_idemp_l.
    replace (i - (64 - shift) - shift) with (i + (-1) * 64) by lia.
    rewrite Z.mod_add by lia. apply Z.mod_small. lia.
  - apply Z.ltb_ge in E. symmetry. apply (testbit_above var 64); lia.
Qed.

Lemma lor_shiftl_disjoint (a b k : Z) :
  0 <= k -> 0 <= a < 2 ^ k -> Z.lor a (Z.shiftl b k) = a + b * 2 ^ k.
Proof.
  intros Hk Ha.
  assert (Hland : Z.land a (Z.shiftl b k) = 0).
  { apply Z.bits_inj'. intros i Hi. rewrite Z.land_spec, Z.bits_0.
    destruct (Z_lt_le_dec i k).
    - rewrite Z.shiftl_spec, (Z.testbit_neg_r b (i - k)) by lia.
      apply andb_false_r.
    - rewrite (testbit_above a k i) by lia. reflexivity. }
  rewrite <- Z.shiftl_mul_pow2 by lia.
  rewrite Z.add_nocarry_lxor by exact Hland.
  rewrite Z.lxor_lor by exact Hland. reflexivity.
Qed.

(** The integer whose base-256 digits, lowest first, are the characters. *)
Fixpoint bytes_value (s : list N) : Z :=
  match s with
  | [] => 0
  | c :: rest => Z.of_N c + 256 * bytes_value rest
  end.

Definition latin1 (s : list N) : Prop := Forall (fun c => (c < 256)%N) s.

Lemma bytes_value_bound (s : list N) :
  latin1 s -> 0 <= bytes_value s < 2 ^ (8 * Z.of_nat (List.length s)).
Proof.
  induction 1 as [|c s Hc _ IH]; [simpl; lia|].
  cbn [bytes_value List.length]. rewrite Nat2Z.inj_succ.
  replace (8 * Z.succ (Z.of_nat (List.length s)))
    with (8 + 8 * Z.of_nat (List.length s)) by lia.
  rewrite Z.pow_add_r by lia. change (2 ^ 8) with 256. lia.
Qed.

Lemma str2int_from_value (s : list N) : forall i acc,
  latin1 s -> 0 <= i -> 0 <= acc < 2 ^ (8 * i) ->
  siphash.str2int_from i s acc = acc + 2 ^ (8 * i) * bytes_value s.
Proof.
  induction s as [|c s IH]; intros i acc Hs Hi Hacc.
  - simpl. lia.
  - inversion Hs as [|? ? Hc Hs']; subst.
    cbn [siphash.str2int_from bytes_value].
    rewrite (Z.shiftl_mul_pow2 i 3) by lia. change (2 ^ 3) with 8.
    replace (i * 8) with (8 * i) by lia.
    rewrite lor_shiftl_disjoint by lia.
    assert (Hp : 2 ^ (8 * (i + 1)) = 256 * 2 ^ (8 * i)).
    { replace (8 * (i + 1)) with (8 + 8 * i) by lia.
      rewrite Z.pow_add_r by lia. reflexivity. }
    rewrite IH; [rewrite Hp; ring|exact Hs'|lia|].
    rewrite Hp. assert (0 < 2 ^ (8 * i)) by (apply Z.pow_pos_nonneg; lia).
    nia.
Qed.

Lemma str2int_value (s : list N) : latin1 s -> siphash.str2int s = bytes_value s.
Proof.
  intros Hs. unfold siphash.str2int.
  rewrite str2int_from_value by (auto; simpl; lia). simpl (2 ^ (8 * 0)). lia.
Qed.

Lemma bytes_value_byte (s : list N) : forall (i : nat) c,
  latin1 s -> nth_error s i = Some c ->
  Z.land (Z.shiftr (bytes_value s) (8 * Z.of_nat i)) 255 = Z.of_N c.
Proof.
  induction s as [|a s IH]; intros [|i] c Hs Hn; simpl in Hn; try discriminate;
    inversion Hs as [|? ? Ha Hs']; subst; cbn [bytes_value].
  - injection Hn as ->. simpl (8 * Z.of_nat 0). rewrite Z.shiftr_0_r.
    change 255 with (Z.ones 8). rewrite Z.land_ones by lia.
    change (2 ^ 8) with 256.
    rewrite (Z.mul_comm 256), Z.mod_add by lia.
    apply Z.mod_small. lia.
  - rewrite Nat2Z.inj_succ.
    replace (8 * Z.succ (Z.of_nat i)) with (8 + 8 * Z.of_nat i) by lia.
    rewrite <- Z.shiftr_shiftr by lia.
    rewrite (Z.shiftr_div_pow2 _ 8) by lia. change (2 ^ 8) with 256.
    rewrite (Z.mul_comm 256), Z.div_add by lia.
    rewrite (Z.div_small (Z.of_N a)) by lia. rewrite Z.add_0_l.
    apply IH; assumption.
Qed.

(** X4: for a string of characters below 256, [str2int] is the little-endian
    byte packing: the byte [i] of the integer is the character [i], and no bit
    is set beyond the last character.  The empty string is 0. *)
Theorem str2int_packs_bytes (s : list N) :
  latin1 s ->
  (forall (i : nat) c, nth_error s i = Some c ->
     Z.land (Z.shiftr (siphash.str2int s) (8 * Z.of_nat i)) 255 = Z.of_N c) /\
  0 <= siphash.str2int s < 2 ^ (8 * Z.of_nat (List.length s)) /\
  siphash.str2int [] = 0.
Proof.
  intros Hs. rewrite (str2int_value s Hs). split.
  - intros i c Hn. apply bytes_value_byte; assumption.
  - split; [apply bytes_value_bound; exact Hs|reflexivity].
Qed.

Lemma str2int_from_trailing_nul (s : list N) : forall i acc,
  siphash.str2int_from i (s ++ [0%N]) acc = siphash.str2int_from i s acc.
Proof.
  induction s as [|c s IH]; intros i acc.
  - simpl. rewrite Z.shiftl_0_l. apply Z.lor_0_r.
  - simpl. apply IH.
Qed.

(** X5: the hash sees a key only through its integer encoding.  A string
    hashes like the integer [str2int] makes of it, and a string with a NUL
    character appended hashes like the string itself, whatever the secret
    key. *)
Theorem hash_sees_only_the_encoding (fuel : nat) (s : list N)
    (self : siphash.SipHash) :
  siphash.get_hash id fuel (PyStr (s ++ [0%N])) self
  = siphash.get_hash id fuel (PyStr s) self /\
  siphash.get_hash id fuel (PyStr s) self
  = siphash.get_hash id fuel (PyInt (siphash.str2int s)) self.
Proof.
  rewrite !get_hash_unfold. cbn [message_of]. unfold siphash.str2int.
  rewrite str2int_from_trailing_nul. split; reflexivity.
Qed.

Lemma lxor_ones_sub (val : Z) :
  0 <= val < 2 ^ 64 -> Z.lxor val (Z.ones 64) = Z.ones 64 - val.
Proof.
  intros Hv.
  assert (Hland : Z.land val (Z.lxor val (Z.ones 64)) = 0).
  { apply Z.bits_inj'. intros i Hi.
    rewrite Z.land_spec, Z.lxor_spec, Z.bits_0.
    destruct (Z_lt_le_dec i 64).
    - rewrite Z.ones_spec_low by lia. destruct (Z.testbit val i); reflexivity.
    - rewrite (testbit_above val 64 i) by lia. reflexivity. }
  pose proof (Z.add_nocarry_lxor _ _ Hland) as H.
  rewrite <- Z.lxor_assoc, Z.lxor_nilpotent, Z.lxor_0_l in H. lia.
Qed.

(** X6: on a 64-bit pattern [negate] subtracts [2^64]: it is the signed
    reading of a pattern whose top bit is set. *)
Theorem negate_is_twos_complement (val : Z) :
  0 <= val < 2 ^ 64 -> siphash.negate val = val - 2 ^ 64.
Proof.
  intros Hv. unfold siphash.negate.
  change (Z.shiftl 1 64 - 1) with (Z.ones 64).
  rewrite lxor_ones_sub by exact Hv. rewrite Z.ones_equiv. lia.
Qed.

(** ** SipHash: the hash is a 64-bit value *)

Definition word64 (x : Z) : Prop := 0 <= x < 2 ^ 64.

Definition vars_word (self : siphash.SipHash) : Prop :=
  let '(v0, v1, v2, v3) := siphash.state_variables self in
  word64 v0 /\ word64 v1 /\ word64 v2 /\ word64 v3.

Lemma lxor_word (a b : Z) : word64 a -> word64 b -> word64 (Z.lxor a b).
Proof.
  intros Ha Hb. apply word_of_bits_inv.
  - apply Z.lxor_nonneg. unfold word64 in *. split; intros _; lia.
  - intros i Hi. rewrite Z.lxor_spec.
    rewrite (testbit_above a 64 i), (testbit_above b 64 i) by (unfold word64 in *; lia).
    reflexivity.
Qed.

Lemma lower_word (x : Z) : word64 (fst (siphash.split_lower_upper_words x)).
Proof.
  unfold word64. cbn [siphash.split_lower_upper_words fst].
  change (Z.shiftl 1 64 - 1) with (Z.ones 64).
  rewrite Z.land_ones by lia. apply Z.mod_pos_bound. lia.
Qed.

Lemma half_sipround_word (s t : Z) (self : siphash.SipHash) :
  0 <= s <= 64 -> 0 <= t <= 64 ->
  vars_word self -> vars_word (siphash.half_sipround s t self).
Proof.
  intros Hs Ht. unfold vars_word, siphash.half_sipround.
  destruct (siphash.state_variables self) as [[[v0 v1] v2] v3].
  intros (H0 & H1 & H2 & H3). cbn [siphash.with_vars siphash.state_variables].
  pose proof (lower_word (v0 + v1)). pose proof (lower_word (v2 + v3)).
  split; [assumption|]. split.
  { apply lxor_word; [apply circular_shift_word|]; assumption. }
  split.
  { apply circular_shift_word; [assumption|lia]. }
  apply lxor_word; [apply circular_shift_word|]; assumption.
Qed.

Lemma double_sipround_word (self : siphash.SipHash) :
  vars_word self -> vars_word (siphash.double_sipround self).
Proof.
  intros H. unfold siphash.double_sipround.
  repeat (apply half_sipround_word; [lia|lia|]). exact H.
Qed.

Lemma compress_word_word (word : Z) (self : siphash.SipHash) :
  word64 word -> vars_word self -> vars_word (siphash.compress_word word self).
Proof.
  intros Hw H. unfold siphash.compress_word.
  destruct (siphash.state_variables self) as [[[v0 v1] v2] v3] eqn:E.
  assert (Hd : vars_word (siphash.double_sipround
            (siphash.with_vars self (v0, v1, v2, Z.lxor v3 word)))).
  { apply double_sipround_word. unfold vars_word in *. rewrite E in H.
    cbn [siphash.with_vars siphash.state_variables].
    destruct H as (H0 & H1 & H2 & H3).
    split; [assumption|]. split; [assumption|]. split; [assumption|].
    apply lxor_word; assumption. }
  unfold vars_word in Hd |- *.
  destruct (siphash.state_variables (siphash.double_sipround _))
    as [[[w0 w1] w2] w3].
  cbn [siphash.with_vars siphash.state_variables].
  destruct Hd as (H0 & H1 & H2 & H3).
  split; [apply lxor_word; assumption|]. auto.
Qed.

Lemma compression_loop_word (fuel : nat) (upper : Z) (self r : siphash.SipHash) :
  vars_word self ->
  siphash.compression_loop fuel upper self = Some r -> vars_word r.
Proof.
  revert upper self. induction fuel as [|fuel IH]; intros upper self Hs H;
    simpl in H; destruct (upper =? 0); try congruence.
  eapply IH; [|exact H].
  apply compress_word_word; [|exact Hs]. apply (lower_word upper).
Qed.

Lemma finalization_word (self : siphash.SipHash) :
  vars_word self -> vars_word (siphash.finalization self).
Proof.
  intros H. unfold siphash.finalization.
  destruct (siphash.state_variables self) as [[[v0 v1] v2] v3] eqn:E.
  repeat apply double_sipround_word. unfold vars_word in *.
  rewrite E in H. cbn [siphash.with_vars siphash.state_variables].
  destruct H as (H0 & H1 & H2 & H3).
  split; [assumption|]. split; [assumption|]. split; [|assumption].
  apply lxor_word; [assumption|]. unfold word64. lia.
Qed.

Lemma reset_word (self : siphash.SipHash) :
  0 <= siphash.secret_key self < 2 ^ 128 -> vars_word (siphash.reset self).
Proof.
  intros Hk. unfold siphash.reset, siphash.initialization, vars_word.
  cbn [siphash.with_vars siphash.with_hash siphash.state_variables
       siphash.secret_key siphash.split_lower_upper_words].
  assert (H0 : word64 (Z.land (siphash.secret_key self) (Z.shiftl 1 64 - 1)))
    by (apply (lower_word (siphash.secret_key self))).
  assert (H1 : word64 (Z.shiftr (siphash.secret_key self) 64)).
  { unfold word64. rewrite Z.shiftr_div_pow2 by lia. split.
    - apply Z.div_pos; lia.
    - apply Z.div_lt_upper_bound; [lia|].
      change (2 ^ 64 * 2 ^ 64) with (2 ^ 128). lia. }
  repeat split; apply lxor_word; auto; unfold word64; lia.
Qed.

Lemma top_bit_set (h : Z) :
  0 <= h < 2 ^ 64 -> (Z.land h (Z.shiftl 1 63) =? 0) = (h <? 2 ^ 63).
Proof.
  intros Hh. change (Z.shiftl 1 63) with (2 ^ 63).
  assert (Hl : Z.land h (2 ^ 63) = if Z.testbit h 63 then 2 ^ 63 else 0).
  { apply Z.bits_inj'. intros i Hi. rewrite Z.land_spec, Z.pow2_bits_eqb by lia.
    destruct (Z.eqb_spec 63 i) as [<-|Hne].
    - rewrite andb_true_r. destruct (Z.testbit h 63).
      + rewrite Z.pow2_bits_true; [reflexivity|lia].
      + rewrite Z.bits_0. reflexivity.
    - rewrite andb_false_r. destruct (Z.testbit h 63).
      + rewrite Z.pow2_bits_false by lia. reflexivity.
      + rewrite Z.bits_0. reflexivity. }
  rewrite Hl. rewrite Z.testbit_odd, Z.shiftr_div_pow2 by lia.
  assert (Hq : 0 <= h / 2 ^ 63 < 2).
  { split; [apply Z.div_pos; lia|apply Z.div_lt_upper_bound; lia]. }
  destruct (Z.ltb_spec h (2 ^ 63)) as [Hlt|Hge].
  - rewrite Z.div_small by lia. reflexivity.
  - assert (h / 2 ^ 63 = 1).
    { assert (1 <= h / 2 ^ 63); [|lia].
      apply Z.div_le_lower_bound; lia. }
    rewrite H. reflexivity.
Qed.

(** The value [get_hash] returns is the XOR [h0] of the four state words,
    passed through [negate] when its top bit is set and [allow_negative] is
    not. *)
Lemma get_hash_pattern (fuel : nat) (input_msg : obj)
    (self r : siphash.SipHash) (h : Z) :
  0 <= siphash.secret_key self < 2 ^ 128 ->
  siphash.get_hash id fuel input_msg self = Some (h, r) ->
  exists h0, word64 h0 /\
    h = if siphash.allow_negative self then h0
        else if h0 <? 2 ^ 63 then h0 else siphash.negate h0.
Proof.
  intros Hk. rewrite get_hash_unfold.
  destruct (siphash.siphash_main fuel _ _) as [c|] eqn:E; [|discriminate].
  intros H. injection H as <- <-.
  destruct (reset_fields self) as (_ & Hh0 & Ha0).
  pose proof (reset_word self Hk) as Hw.
  revert E. generalize (siphash.reset self) Hh0 Ha0 Hw. clear Hw Hh0 Ha0.
  intros s0 Hh0 Ha0 Hw. unfold siphash.siphash_main, siphash.compression.
  cbn [siphash.split_lower_upper_words].
  destruct (siphash.compression_loop fuel _ _) as [c1|] eqn:E1; [|discriminate].
  assert (Hc : vars_word (siphash.finalization c1)).
  { apply finalization_word. eapply compression_loop_word; [|exact E1].
    apply compress_word_word; [|exact Hw].
    apply (lower_word (siphash.add_size_byte (message_of input_msg))). }
  assert (Hcfg : same_config (siphash.finalization c1) s0).
  { eapply same_config_trans; [apply finalization_config|].
    eapply same_config_trans; [eapply compression_loop_config; exact E1|].
    apply compress_word_config. }
  destruct Hcfg as (_ & Hh' & Ha'). unfold vars_word in Hc.
  destruct (siphash.state_variables (siphash.finalization c1))
    as [[[v0 v1] v2] v3].
  destruct Hc as (H0 & H1 & H2 & H3).
  cbn [siphash.with_hash siphash.allow_negative].
  rewrite Hh', Hh0, Ha', Ha0.
  set (h0 := Z.lxor (Z.lxor (Z.lxor (Z.lxor 0 v0) v1) v2) v3).
  assert (Hh : word64 h0).
  { unfold h0. repeat apply lxor_word; auto. unfold word64. lia. }
  rewrite top_bit_set by exact Hh.
  exists h0. split; [exact Hh|].
  destruct (siphash.allow_negative self) eqn:Ea.
  - rewrite andb_false_r in E. injection E as <-. reflexivity.
  - rewrite andb_true_r in E.
    destruct (h0 <? 2 ^ 63); simpl in E; injection E as <-; reflexivity.
Qed.

(** X7: with a secret key of 128 bits the hash is a 64-bit value: an
    unsigned one, in [[0, 2^64)], when [allow_negative] is set, and otherwise
    the signed reading of that pattern, in [[-2^63, 2^63)]. *)
Theorem get_hash_is_a_64_bit_value (fuel : nat) (input_msg : obj)
    (self r : siphash.SipHash) (h : Z) :
  0 <= siphash.secret_key self < 2 ^ 128 ->
  siphash.get_hash id fuel input_msg self = Some (h, r) ->
  (siphash.allow_negative self = true -> 0 <= h < 2 ^ 64) /\
  (siphash.allow_negative self = false -> - 2 ^ 63 <= h < 2 ^ 63).
Proof.
  intros Hk Hg.
  destruct (get_hash_pattern fuel input_msg self r h Hk Hg) as (h0 & Hh & ->).
  unfold word64 in Hh. split; intros Ea; rewrite Ea; [exact Hh|].
  destruct (Z.ltb_spec h0 (2 ^ 63)) as [Hlt|Hge]; [lia|].
  unfold siphash.negate. change (Z.shiftl 1 64 - 1) with (Z.ones 64).
  rewrite lxor_ones_sub by exact Hh. rewrite Z.ones_equiv. lia.
Qed.

(** ** SipHash: each call starts afresh *)

Lemma reset_eq (a b : siphash.SipHash) :
  siphash.secret_key a = siphash.secret_key b ->
  siphash.allow_negative a = siphash.allow_negative b ->
  siphash.reset a = siphash.reset b.
Proof.
  destruct a, b. cbn [siphash.secret_key siphash.allow_negative].
  intros -> ->. reflexivity.
Qed.

Lemma siphash_main_config fuel msg self r :
  siphash.siphash_main fuel msg self = Some r ->
  siphash.secret_key r = siphash.secret_key self /\
  siphash.allow_negative r = siphash.allow_negative self.
Proof.
  unfold siphash.siphash_main, siphash.compression.
  cbn [siphash.split_lower_upper_words].
  destruct (siphash.compression_loop fuel _ _) as [c1|] eqn:E1; [|discriminate].
  assert (Hcfg : same_config (siphash.finalization c1) self).
  { eapply same_config_trans; [apply finalization_config|].
    eapply same_config_trans; [eapply compression_loop_config; exact E1|].
    apply compress_word_config. }
  destruct Hcfg as (Hk & _ & Ha).
  destruct (siphash.state_variables (siphash.finalization c1))
    as [[[v0 v1] v2] v3].
  destruct (_ && _); intros H; injection H as <-;
    cbn [siphash.with_hash siphash.secret_key siphash.allow_negative]; auto.
Qed.

(** X8: a hasher carries nothing from one call to the next but its secret
    key and [allow_negative]: after any call that returned, the next call
    gives what a hasher just built with that key gives; and after
    [set_secret_key] the hasher hashes like one built with the new key. *)
Theorem get_hash_starts_afresh (fuel fuel' : nat) (x y : obj)
    (self r : siphash.SipHash) (h : Z) (new_secret_key : Z) :
  siphash.get_hash id fuel x self = Some (h, r) ->
  option_map fst (siphash.get_hash id fuel' y r)
  = option_map fst
      (siphash.get_hash id fuel' y
         (siphash.init 0 0 (Some (siphash.secret_key self))
            (siphash.allow_negative self))) /\
  option_map fst
    (siphash.get_hash id fuel' y (siphash.set_secret_key new_secret_key self))
  = option_map fst
      (siphash.get_hash id fuel' y
         (siphash.init 0 0 (Some new_secret_key) (siphash.allow_negative self))).
Proof.
  intros H. rewrite get_hash_unfold in H.
  destruct (siphash.siphash_main fuel _ _) as [c|] eqn:E; [|discriminate].
  injection H as _ <-.
  destruct (siphash_main_config _ _ _ _ E) as (Hk & Ha).
  destruct (reset_fields self) as (Hk0 & _ & Ha0).
  rewrite !get_hash_unfold. split.
  - rewrite (reset_eq c (siphash.init 0 0 (Some (siphash.secret_key self))
                           (siphash.allow_negative self))); [reflexivity| |].
    + simpl. congruence.
    + simpl. congruence.
  - rewrite (reset_eq (siphash.set_secret_key new_secret_key self)
               (siphash.init 0 0 (Some new_secret_key)
                  (siphash.allow_negative self))); reflexivity.
Qed.

(** ** SipHash: one loop iteration per message word *)

Lemma compression_loop_bounded (fuel : nat) : forall upper self,
  0 <= upper < 2 ^ (64 * Z.of_nat fuel) ->
  exists r, siphash.compression_loop fuel upper self = Some r.
Proof.
  induction fuel as [|fuel IH]; intros upper self Hu.
  - exists self. simpl in *. replace upper with 0 by lia. reflexivity.
  - simpl. destruct (upper =? 0); [eauto|]. apply IH.
    rewrite Z.shiftr_div_pow2 by lia. split; [apply Z.div_pos; lia|].
    apply Z.div_lt_upper_bound; [lia|].
    rewrite <- Z.pow_add_r by lia.
    replace (64 + 64 * Z.of_nat fuel) with (64 * Z.of_nat (S fuel)) by lia.
    lia.
Qed.

Lemma add_size_byte_bound (m : Z) :
  0 <= m -> 0 <= siphash.add_size_byte m < 2 ^ (64 * word_count m).
Proof.
  intros Hm. split; [apply add_size_byte_nonneg; exact Hm|].
  destruct (word_count_bounds m Hm) as [Hw _].
  pose proof (message_below_tag m Hm) as Hlt.
  rewrite add_size_byte_eq by exact Hm.
  rewrite lor_shiftl_disjoint by lia.
  pose proof (Z.mod_pos_bound (byte_length m) 256 ltac:(lia)).
  assert (Hp : 2 ^ (64 * word_count m) = 256 * 2 ^ (64 * word_count m - 8)).
  { replace (64 * word_count m) with (8 + (64 * word_count m - 8)) at 1 by lia.
    rewrite Z.pow_add_r by lia. reflexivity. }
  rewrite Hp. nia.
Qed.

(** X9: hashing a string, a non-negative integer or any other object
    returns, and the loop of [__compression] runs at most once per 64-bit
    word of the tagged message: [word_count] iterations are enough. *)
Theorem get_hash_returns_within_word_count (input_msg : obj)
    (self : siphash.SipHash) :
  (forall n, input_msg = PyInt n -> 0 <= n) ->
  exists h r,
    siphash.get_hash id (Z.to_nat (word_count (message_of input_msg)))
      input_msg self = Some (h, r).
Proof.
  intros Hin. pose proof (message_of_nonneg input_msg Hin) as Hm.
  rewrite get_hash_unfold. unfold siphash.siphash_main, siphash.compression.
  cbn [siphash.split_lower_upper_words].
  set (m := message_of input_msg) in *.
  destruct (word_count_bounds m Hm) as [Hw _].
  destruct (add_size_byte_bound m Hm) as [H0 H1].
  edestruct (compression_loop_bounded (Z.to_nat (word_count m))
               (Z.shiftr (siphash.add_size_byte m) 64)) as [c Hc].
  - rewrite Z.shiftr_div_pow2 by lia. split; [apply Z.div_pos; lia|].
    apply Z.div_lt_upper_bound; [lia|].
    rewrite Z2Nat.id by lia. rewrite <- Z.pow_add_r by lia.
    eapply Z.lt_le_trans; [exact H1|]. apply Z.pow_le_mono_r; lia.
  - rewrite Hc.
    destruct (siphash.state_variables (siphash.finalization c))
      as [[[v0 v1] v2] v3].
    destruct (_ && _); eauto.
Qed.

End SipHashFacts.

(** ** The probe sequences reach every slot

    [5 * i + 1] modulo a power of two runs through every residue, because 5
    has order [2^n] modulo [2^(n+2)]. *)

Lemma five_pow_two_pow (n : nat) :
  exists (e : nat) (c : Z),
    5 ^ Z.of_nat e = 1 + 2 ^ (Z.of_nat n + 2) * c /\ Z.odd c = true.
Proof.
  induction n as [|n (e & c & He & Hc)].
  - exists 1%nat, 1. split; reflexivity.
  - exists (e + e)%nat, (c + 2 ^ (Z.of_nat n + 1) * (c * c)). split.
    + rewrite Nat2Z.inj_add, Z.pow_add_r, He by lia.
      replace (Z.of_nat (S n) + 2) with (Z.of_nat n + 2 + 1) by lia.
      replace (Z.of_nat n + 2) with (Z.of_nat n + 1 + 1) by lia.
      rewrite !Z.pow_add_r by lia. change (2 ^ 1) with 2. ring.
    + rewrite Z.odd_add, Hc, Z.odd_mul.
      replace (Z.of_nat n + 1) with (Z.succ (Z.of_nat n)) by lia.
      rewrite Z.pow_succ_r by lia. rewrite Z.odd_mul. reflexivity.
Qed.

Lemma odd_of_mod4 (u : Z) : u mod 4 = 1 -> Z.odd u = true.
Proof.
  intros H. rewrite (Z.div_mod u 4) by lia. rewrite H.
  replace (4 * (u / 4) + 1) with (1 + 2 * (2 * (u / 4))) by lia.
  rewrite Z.odd_add_mul_2. reflexivity.
Qed.

Lemma five_generates (n : nat) (u w : Z) :
  u mod 4 = 1 -> w mod 4 = 1 ->
  exists (m : nat) (d : Z), 5 ^ Z.of_nat m * u - w = 2 ^ (Z.of_nat n + 2) * d.
Proof.
  intros Hu Hw. induction n as [|n (m & d & Hm)].
  - exists 0%nat, (u / 4 - w / 4). change (5 ^ Z.of_nat 0) with 1.
    change (2 ^ (Z.of_nat 0 + 2)) with 4.
    pose proof (Z.div_mod u 4 ltac:(lia)). pose proof (Z.div_mod w 4 ltac:(lia)).
    lia.
  - replace (Z.of_nat (S n) + 2) with (Z.succ (Z.of_nat n + 2)) by lia.
    rewrite Z.pow_succ_r by lia.
    destruct (Z.odd d) eqn:Hd.
    + destruct (five_pow_two_pow n) as (e & c & He & Hc).
      assert (Hodd : Z.odd (5 ^ Z.of_nat m * u) = true).
      { replace (5 ^ Z.of_nat m * u) with (w + 2 * (2 ^ (Z.of_nat n + 1) * d)).
        - rewrite Z.odd_add_mul_2. apply odd_of_mod4. exact Hw.
        - replace (Z.of_nat n + 2) with (Z.succ (Z.of_nat n + 1)) in Hm by lia.
          rewrite Z.pow_succ_r in Hm by lia. lia. }
      assert (Hev : Z.even (d + c * (5 ^ Z.of_nat m * u)) = true).
      { rewrite Z.even_add, <- !Z.negb_odd, Hd, Z.odd_mul, Hc, Hodd.
        reflexivity. }
      apply Z.even_spec in Hev. destruct Hev as [q Hq].
      exists (m + e)%nat, q.
      rewrite Nat2Z.inj_add, Z.pow_add_r, He by lia.
      replace ((5 ^ Z.of_nat m * (1 + 2 ^ (Z.of_nat n + 2) * c)) * u - w)
        with ((5 ^ Z.of_nat m * u - w)
              + 2 ^ (Z.of_nat n + 2) * (c * (5 ^ Z.of_nat m * u))) by ring.
      rewrite Hm. rewrite <- Z.mul_add_distr_l, Hq. ring.
    + assert (Hev : Z.even d = true) by (rewrite <- Z.negb_odd, Hd; reflexivity).
      apply Z.even_spec in Hev. destruct Hev as [q Hq].
      exists m, q. rewrite Hm, Hq. ring.
Qed.

(** [1 + 5 + ... + 5^(m-1)] *)
Fixpoint geo (m : nat) : Z :=
  match m with
  | O => 0
  | S m' => 5 * geo m' + 1
  end.

Lemma geo_closed (m : nat) : 4 * geo m + 1 = 5 ^ Z.of_nat m.
Proof.
  induction m as [|m IH]; [reflexivity|].
  rewrite Nat2Z.inj_succ, Z.pow_succ_r by lia.
  change (geo (S m)) with (5 * geo m + 1). lia.
Qed.

Lemma lcg_reaches (n : nat) (i j : Z) :
  0 <= j < 2 ^ Z.of_nat n ->
  exists m : nat, (5 ^ Z.of_nat m * i + geo m) mod 2 ^ Z.of_nat n = j.
Proof.
  intros Hj.
  destruct (five_generates n (4 * i + 1) (4 * j + 1)) as (m & d & Hm).
  - rewrite Z.add_comm, Z.mul_comm, Z.mod_add by lia. reflexivity.
  - rewrite Z.add_comm, Z.mul_comm, Z.mod_add by lia. reflexivity.
  - exists m. pose proof (geo_closed m) as Hg.
    rewrite Z.pow_add_r in Hm by lia. change (2 ^ 2) with 4 in Hm.
    assert (Heq : 5 ^ Z.of_nat m * i + geo m = j + d * 2 ^ Z.of_nat n) by nia.
    rewrite Heq, Z.mod_add by lia. apply Z.mod_small. exact Hj.
Qed.

(** The three probing rules as functions of the strategy and the size. *)
Definition next_index (p : hashtable.probing) (sz i h : Z) : Z * Z :=
  match p with
  | hashtable.simple => (Z.land (i + 1) (sz - 1), h)
  | hashtable.modified => (Z.land (5 * i + 1) (sz - 1), h)
  | hashtable.pythonic => (Z.land (5 * i + 1 + h) (sz - 1), Z.shiftr h 5)
  end.

Lemma call_get_new_index_eq (t : hashtable.HashTable) (i h : Z) :
  hashtable.call_get_new_index t i h
  = next_index (hashtable.get_new_index t) (hashtable.size t) i h.
Proof.
  unfold hashtable.call_get_new_index, next_index.
  destruct (hashtable.get_new_index t); reflexivity.
Qed.

(** The pair (index, hash) after [m] probe steps. *)
Fixpoint probe_at (p : hashtable.probing) (sz : Z) (m : nat) (x : Z * Z)
  : Z * Z :=
  match m with
  | O => x
  | S m' => probe_at p sz m' (next_index p sz (fst x) (snd x))
  end.

Lemma probe_at_add p sz (a b : nat) x :
  probe_at p sz (a + b) x = probe_at p sz b (probe_at p sz a x).
Proof.
  revert x. induction a as [|a IH]; intros x; simpl; [reflexivity|apply IH].
Qed.

Lemma probe_at_succ_r p sz (m : nat) x :
  probe_at p sz (S m) x
  = next_index p sz (fst (probe_at p sz m x)) (snd (probe_at p sz m x)).
Proof.
  replace (S m) with (m + 1)%nat by lia. rewrite probe_at_add. reflexivity.
Qed.

Lemma land_mask (x : Z) (n : nat) :
  Z.land x (2 ^ Z.of_nat n - 1) = x mod 2 ^ Z.of_nat n.
Proof.
  rewrite <- Z.land_ones by lia. rewrite Z.ones_equiv. reflexivity.
Qed.

Lemma pow2_pos (n : nat) : 0 < 2 ^ Z.of_nat n.
Proof. apply Z.pow_pos_nonneg; lia. Qed.

Lemma next_index_range p (n : nat) i h :
  0 <= fst (next_index p (2 ^ Z.of_nat n) i h) < 2 ^ Z.of_nat n.
Proof.
  pose proof (pow2_pos n).
  destruct p; simpl; rewrite land_mask; apply Z.mod_pos_bound; lia.
Qed.

Lemma probe_at_range p (n m : nat) i h :
  0 <= i < 2 ^ Z.of_nat n ->
  0 <= fst (probe_at p (2 ^ Z.of_nat n) m (i, h)) < 2 ^ Z.of_nat n.
Proof.
  intros Hi. destruct m as [|m]; [exact Hi|].
  rewrite probe_at_succ_r. apply next_index_range.
Qed.

Lemma lcg_step_mod (a b x N : Z) :
  0 < N -> (a * (x mod N) + b) mod N = (a * x + b) mod N.
Proof.
  intros HN. rewrite <- Z.add_mod_idemp_l by lia.
  rewrite Z.mul_mod_idemp_r by lia.
  rewrite Z.add_mod_idemp_l by lia. reflexivity.
Qed.

Lemma simple_closed (n m : nat) i h :
  0 <= i < 2 ^ Z.of_nat n ->
  probe_at hashtable.simple (2 ^ Z.of_nat n) m (i, h)
  = ((i + Z.of_nat m) mod 2 ^ Z.of_nat n, h).
Proof.
  intros Hi. induction m as [|m IH].
  - simpl. rewrite Z.add_0_r, Z.mod_small by lia. reflexivity.
  - rewrite probe_at_succ_r, IH. simpl. rewrite land_mask.
    rewrite Z.add_mod_idemp_l by (pose proof (pow2_pos n); lia).
    f_equal. f_equal. lia.
Qed.

Lemma modified_closed (n m : nat) i h :
  0 <= i < 2 ^ Z.of_nat n ->
  probe_at hashtable.modified (2 ^ Z.of_nat n) m (i, h)
  = ((5 ^ Z.of_nat m * i + geo m) mod 2 ^ Z.of_nat n, h).
Proof.
  intros Hi. pose proof (pow2_pos n). induction m as [|m IH].
  - cbn [probe_at geo]. change (5 ^ Z.of_nat 0) with 1.
    rewrite Z.mul_1_l, Z.add_0_r, Z.mod_small by lia. reflexivity.
  - rewrite probe_at_succ_r, IH. cbn [fst snd next_index].
    rewrite land_mask, lcg_step_mod by lia.
    rewrite Nat2Z.inj_succ, Z.pow_succ_r by lia.
    change (geo (S m)) with (5 * geo m + 1).
    f_equal. f_equal. ring.
Qed.

Lemma pythonic_zero_closed (n m : nat) i :
  0 <= i < 2 ^ Z.of_nat n ->
  probe_at hashtable.pythonic (2 ^ Z.of_nat n) m (i, 0)
  = ((5 ^ Z.of_nat m * i + geo m) mod 2 ^ Z.of_nat n, 0).
Proof.
  intros Hi. pose proof (pow2_pos n). induction m as [|m IH].
  - cbn [probe_at geo]. change (5 ^ Z.of_nat 0) with 1.
    rewrite Z.mul_1_l, Z.add_0_r, Z.mod_small by lia. reflexivity.
  - rewrite probe_at_succ_r, IH. cbn [fst snd next_index].
    rewrite land_mask, Z.add_0_r, lcg_step_mod by lia.
    rewrite Nat2Z.inj_succ, Z.pow_succ_r by lia.
    change (geo (S m)) with (5 * geo m + 1).
    f_equal. f_equal. ring.
Qed.

Lemma pythonic_hash (sz : Z) (m : nat) i h :
  snd (probe_at hashtable.pythonic sz m (i, h)) = Z.shiftr h (5 * Z.of_nat m).
Proof.
  induction m as [|m IH].
  - simpl. rewrite Z.shiftr_0_r. reflexivity.
  - rewrite probe_at_succ_r. simpl snd at 1. rewrite IH.
    rewrite Z.shiftr_shiftr by lia. f_equal. lia.
Qed.

Lemma shiftr_eventually_zero (h : Z) :
  0 <= h -> exists m : nat, Z.shiftr h (5 * Z.of_nat m) = 0.
Proof.
  intros Hh. exists (Z.to_nat (Z.log2 h + 1)).
  pose proof (Z.log2_nonneg h).
  destruct (Z.eq_dec h 0) as [->|Hne]; [apply Z.shiftr_0_l|].
  apply Z.shiftr_eq_0; lia.
Qed.

(** Every slot index is met after finitely many probe steps. *)
Lemma probe_reaches p (n : nat) (i h j : Z) :
  0 <= i < 2 ^ Z.of_nat n -> 0 <= h -> 0 <= j < 2 ^ Z.of_nat n ->
  exists m : nat, fst (probe_at p (2 ^ Z.of_nat n) m (i, h)) = j.
Proof.
  intros Hi Hh Hj. pose proof (pow2_pos n). destruct p.
  - exists (Z.to_nat ((j - i) mod 2 ^ Z.of_nat n)).
    rewrite simple_closed by exact Hi. simpl.
    pose proof (Z.mod_pos_bound (j - i) (2 ^ Z.of_nat n) ltac:(lia)).
    rewrite Z2Nat.id by lia.
    rewrite Z.add_mod_idemp_r by lia.
    replace (i + (j - i)) with j by lia. apply Z.mod_small. exact Hj.
  - destruct (lcg_reaches n i j Hj) as [m Hm]. exists m.
    rewrite modified_closed by exact Hi. exact Hm.
  - destruct (shiftr_eventually_zero h Hh) as [a Ha].
    pose proof (probe_at_range hashtable.pythonic n a i h Hi) as Hr.
    pose proof (pythonic_hash (2 ^ Z.of_nat n) a i h) as Hs.
    destruct (probe_at hashtable.pythonic (2 ^ Z.of_nat n) a (i, h))
      as [i' h'] eqn:E.
    cbn [fst snd] in Hr, Hs. rewrite Ha in Hs. subst h'.
    destruct (lcg_reaches n i' j Hj) as [m Hm]. exists (a + m)%nat.
    rewrite probe_at_add, E, pythonic_zero_closed by exact Hr. exact Hm.
Qed.

(** ** The hash table *)

Section TableFacts.

Variables hashsecret_k0 hashsecret_k1 : N.
Variable id : obj -> N.
Variable hash_compress_bits : N.
Variable other_eq : obj -> obj -> bool.

Local Abbreviation get_hash := (hashtable.get_hash hashsecret_k0 hashsecret_k1 id hash_compress_bits).
Local Abbreviation new_entry := (hashtable.new_entry hashsecret_k0 hashsecret_k1 id hash_compress_bits).
Local Abbreviation lookup_key := (hashtable.lookup_key hashsecret_k0 hashsecret_k1 id hash_compress_bits other_eq).
Local Abbreviation get := (hashtable.get hashsecret_k0 hashsecret_k1 id hash_compress_bits other_eq).
Local Abbreviation remove := (hashtable.remove hashsecret_k0 hashsecret_k1 id hash_compress_bits other_eq).
Local Abbreviation update := (hashtable.update hashsecret_k0 hashsecret_k1 id hash_compress_bits other_eq).
Local Abbreviation compress_hash_loop := (hashtable.compress_hash_loop hash_compress_bits).
Local Abbreviation compress_hash := (hashtable.compress_hash hash_compress_bits).
Local Abbreviation siphash_ := (hashtable.siphash_ hashsecret_k0 hashsecret_k1).
Local Abbreviation lookup_loop := (hashtable.lookup_loop other_eq).
Local Abbreviation entry_eq := (hashtable.eq other_eq).
Local Abbreviation key_eq := (obj_eqb other_eq).

(** *** Hashing a key *)

(** The keys [update] can store: not [None] (its hash is [None], and
    [None & mask] raises) and not a negative integer (hashing it never
    returns). *)
Definition hashable (k : obj) : bool :=
  match k with
  | PyNone => false
  | PyInt n => 0 <=? n
  | _ => true
  end.

Lemma compress_hash_loop_mono fuel fuel' lower c h r :
  (fuel <= fuel')%nat ->
  compress_hash_loop fuel lower c h = Some r ->
  compress_hash_loop fuel' lower c h = Some r.
Proof.
  revert fuel' c h. induction fuel as [|fuel IH]; intros fuel' c h Hle H.
  - simpl in H. destruct (h =? 0) eqn:E; [|discriminate].
    destruct fuel'; simpl; rewrite E; exact H.
  - destruct fuel' as [|fuel']; [lia|]. simpl in *.
    destruct (h =? 0); [exact H|]. apply IH; [lia|exact H].
Qed.

Lemma compress_hash_loop_total (n : nat) lower c h :
  (0 < hash_compress_bits)%N -> 0 <= h <= Z.of_nat n ->
  exists r, compress_hash_loop n lower c h = Some r.
Proof.
  intros Hb. revert c h. induction n as [|n IH]; intros c h Hh.
  - exists c. simpl. replace h with 0 by lia. reflexivity.
  - simpl. destruct (h =? 0) eqn:E; [eauto|].
    apply Z.eqb_neq in E. apply IH.
    rewrite Z.shiftr_div_pow2 by lia. split.
    + apply Z.div_pos; [lia|]. apply Z.pow_pos_nonneg; lia.
    + assert (h / 2 ^ Z.of_N hash_compress_bits < h); [|lia].
      apply Z.div_lt; [lia|].
      replace 1 with (2 ^ 0) by reflexivity. apply Z.pow_lt_mono_r; lia.
Qed.

Lemma compress_hash_loop_nonneg fuel lower c h r :
  0 <= lower -> 0 <= c -> 0 <= h ->
  compress_hash_loop fuel lower c h = Some r -> 0 <= r.
Proof.
  intros Hl. revert c h. induction fuel as [|fuel IH]; intros c h Hc Hh H;
    simpl in H; destruct (h =? 0); try congruence.
  eapply IH; [| |exact H].
  - apply Z.lxor_nonneg. split; intros _; [|exact Hc].
    apply Z.land_nonneg. left. exact Hh.
  - apply Z.shiftr_nonneg. exact Hh.
Qed.

Lemma siphash_secret_nonneg : 0 <= siphash.secret_key siphash_.
Proof.
  simpl. unfold siphash.get_default_secret_key. apply Z.lor_nonneg. split.
  - apply Z.shiftl_nonneg. lia.
  - lia.
Qed.

Lemma table_get_hash_mono fuel fuel' k h :
  (fuel <= fuel')%nat -> get_hash fuel k = Some h -> get_hash fuel' k = Some h.
Proof.
  intros Hle. unfold hashtable.get_hash.
  destruct (siphash.get_hash id fuel k siphash_) as [[h0 s0]|] eqn:E;
    [|discriminate].
  rewrite (get_hash_mono id fuel fuel' k siphash_ (h0, s0) Hle E).
  destruct (negb (hash_compress_bits =? 0)%N); [|auto].
  apply compress_hash_loop_mono. exact Hle.
Qed.

Lemma table_get_hash_nonneg fuel k h : get_hash fuel k = Some h -> 0 <= h.
Proof.
  unfold hashtable.get_hash.
  destruct (siphash.get_hash id fuel k siphash_) as [[h0 s0]|] eqn:E;
    [|discriminate].
  assert (H0 : 0 <= h0).
  { eapply get_hash_nonneg; [| |exact E].
    - apply siphash_secret_nonneg.
    - reflexivity. }
  destruct (negb (hash_compress_bits =? 0)%N); [|congruence].
  apply compress_hash_loop_nonneg; try lia.
  assert (0 < 2 ^ Z.of_N hash_compress_bits) by (apply Z.pow_pos_nonneg; lia).
  rewrite Z.shiftl_1_l. lia.
Qed.

Lemma table_get_hash_total k :
  (forall n, k = PyInt n -> 0 <= n) -> exists fuel h, get_hash fuel k = Some h.
Proof.
  intros Hk.
  destruct (get_hash_total id k siphash_ Hk) as (f1 & [h0 s0] & H1).
  assert (H0 : 0 <= h0).
  { eapply get_hash_nonneg; [| |exact H1].
    - apply siphash_secret_nonneg.
    - reflexivity. }
  destruct (N.eq_dec hash_compress_bits 0) as [Hz|Hnz].
  - exists f1, h0. unfold hashtable.get_hash. rewrite H1.
    apply N.eqb_eq in Hz. rewrite Hz. reflexivity.
  - destruct (compress_hash_loop_total (Z.to_nat h0)
                (Z.shiftl 1 (Z.of_N hash_compress_bits) - 1) 0 h0)
      as [r Hr]; [lia|lia|].
    exists (Nat.max f1 (Z.to_nat h0)), r. unfold hashtable.get_hash.
    rewrite (get_hash_mono id f1 _ k siphash_ (h0, s0) (Nat.le_max_l _ _) H1).
    apply N.eqb_neq in Hnz. rewrite Hnz. simpl negb. cbv iota.
    unfold hashtable.compress_hash.
    eapply compress_hash_loop_mono; [apply Nat.le_max_r|exact Hr].
Qed.

Lemma table_get_hash_negative fuel n : n < 0 -> get_hash fuel (PyInt n) = None.
Proof.
  intros Hn. unfold hashtable.get_hash.
  rewrite get_hash_negative_int by exact Hn. reflexivity.
Qed.

Lemma hashable_spec k :
  hashable k = true <-> k <> PyNone /\ (forall n, k = PyInt n -> 0 <= n).
Proof.
  destruct k; simpl; split; try intuition congruence.
  - intros H. split; [discriminate|]. intros m E. injection E as <-.
    apply Z.leb_le. exact H.
  - intros [_ H]. apply Z.leb_le. apply H. reflexivity.
Qed.

Lemma hashable_total k :
  hashable k = true -> exists fuel h, get_hash fuel k = Some h.
Proof. intros H. apply table_get_hash_total, hashable_spec, H. Qed.

(** *** Entries *)

Lemma new_entry_mono fuel fuel' k v e :
  (fuel <= fuel')%nat -> new_entry fuel k v = Some e -> new_entry fuel' k v = Some e.
Proof.
  intros Hle. unfold hashtable.new_entry.
  destruct k; auto;
    (destruct (get_hash fuel _) as [h|] eqn:E; [|discriminate];
     rewrite (table_get_hash_mono fuel fuel' _ h Hle E); auto).
Qed.

Lemma new_entry_hashed fuel k v e h :
  new_entry fuel k v = Some e -> hashtable.hash_value e = Some h ->
  hashable k = true /\ get_hash fuel k = Some h /\
  e = hashtable.mkEntry k v (Some h) false.
Proof.
  unfold hashtable.new_entry. intros H Hh.
  destruct k as [|n|s|tag].
  - injection H as <-. discriminate.
  - destruct (get_hash fuel (PyInt n)) as [h'|] eqn:E; [|discriminate].
    injection H as <-. simpl in Hh. injection Hh as ->. repeat split; auto.
    simpl. apply Z.leb_le. destruct (Z_lt_le_dec n 0) as [Hn|Hn]; [|exact Hn].
    rewrite table_get_hash_negative in E by exact Hn. discriminate.
  - destruct (get_hash fuel (PyStr s)) as [h'|] eqn:E; [|discriminate].
    injection H as <-. simpl in Hh. injection Hh as ->. repeat split; auto.
  - destruct (get_hash fuel (PyObj tag)) as [h'|] eqn:E; [|discriminate].
    injection H as <-. simpl in Hh. injection Hh as ->. repeat split; auto.
Qed.

Lemma new_entry_of_hash fuel k v h :
  hashable k = true -> get_hash fuel k = Some h ->
  new_entry fuel k v = Some (hashtable.mkEntry k v (Some h) false).
Proof.
  intros Hk Hh. unfold hashtable.new_entry.
  destruct k; try discriminate; rewrite Hh; reflexivity.
Qed.

(** *** The probe loop *)

(** Whether the loop of [__lookup_key] returns at a slot. *)
Definition stops (entry slot : hashtable.HashTableEntry) (skip_dummy : bool)
  : bool :=
  if hashtable.is_dummy slot then negb skip_dummy
  else if hashtable.is_filled slot then entry_eq entry slot
  else true.

Definition slot_stops (l : list hashtable.HashTableEntry)
    (entry : hashtable.HashTableEntry) (skip_dummy : bool) (i : Z)
  : option bool :=
  option_map (fun slot => stops entry slot skip_dummy) (getitem l i).

(** The table after [m] more counted collisions. *)
Definition bump (t : hashtable.HashTable) (m : nat) : hashtable.HashTable :=
  hashtable.with_collision_counter t
    (hashtable.collision_counter t + Z.of_nat m).

Lemma bump_0 t : bump t 0 = t.
Proof.
  destruct t. unfold bump, hashtable.with_collision_counter. simpl.
  f_equal. lia.
Qed.

Lemma bump_print_collision t m :
  bump (hashtable.print_collision t) m = bump t (S m).
Proof.
  destruct t.
  unfold bump, hashtable.print_collision, hashtable.with_collision_counter.
  simpl. f_equal. lia.
Qed.

Lemma bump_bump t a b : bump (bump t a) b = bump t (a + b).
Proof.
  destruct t. unfold bump, hashtable.with_collision_counter. simpl.
  f_equal. lia.
Qed.

Lemma lookup_loop_step fuel e i h skip t :
  lookup_loop (S fuel) e i h skip t
  = match getitem (hashtable.internal_list t) i with
    | None => Raised IndexError t
    | Some slot =>
        if stops e slot skip then Done i t
        else lookup_loop fuel e
               (fst (next_index (hashtable.get_new_index t) (hashtable.size t) i h))
               (snd (next_index (hashtable.get_new_index t) (hashtable.size t) i h))
               skip (hashtable.print_collision t)
    end.
Proof.
  simpl. destruct (getitem (hashtable.internal_list t) i) as [slot|];
    [|reflexivity].
  rewrite call_get_new_index_eq.
  change (hashtable.get_new_index (hashtable.print_collision t))
    with (hashtable.get_new_index t).
  change (hashtable.size (hashtable.print_collision t)) with (hashtable.size t).
  destruct (next_index _ _ i h) as [i' h']. unfold stops. simpl.
  destruct (hashtable.is_dummy slot), skip, (hashtable.is_filled slot),
    (entry_eq e slot); reflexivity.
Qed.

Lemma lookup_loop_mono fuel fuel' e i h skip t r :
  (fuel <= fuel')%nat -> r <> Timeout ->
  lookup_loop fuel e i h skip t = r ->
  lookup_loop fuel' e i h skip t = r.
Proof.
  revert fuel' i h t. induction fuel as [|fuel IH]; intros fuel' i h t Hle Hr H.
  - simpl in H. congruence.
  - destruct fuel' as [|fuel']; [lia|].
    rewrite lookup_loop_step in *.
    destruct (getitem (hashtable.internal_list t) i) as [slot|]; [|exact H].
    destruct (stops e slot skip); [exact H|].
    apply IH; [lia|exact Hr|exact H].
Qed.

Lemma lookup_loop_found (m : nat) : forall fuel e i h skip t,
  (m < fuel)%nat ->
  (forall m', (m' < m)%nat ->
     slot_stops (hashtable.internal_list t) e skip
       (fst (probe_at (hashtable.get_new_index t) (hashtable.size t) m' (i, h)))
     = Some false) ->
  slot_stops (hashtable.internal_list t) e skip
    (fst (probe_at (hashtable.get_new_index t) (hashtable.size t) m (i, h)))
  = Some true ->
  lookup_loop fuel e i h skip t
  = Done (fst (probe_at (hashtable.get_new_index t) (hashtable.size t) m (i, h)))
      (bump t m).
Proof.
  induction m as [|m IH]; intros fuel e i h skip t Hlt Hbefore Hat;
    (destruct fuel as [|fuel]; [lia|]); rewrite lookup_loop_step.
  - simpl in Hat. unfold slot_stops in Hat.
    destruct (getitem (hashtable.internal_list t) i) as [slot|];
      [|discriminate].
    simpl in Hat. injection Hat as ->. rewrite bump_0. reflexivity.
  - pose proof (Hbefore 0%nat ltac:(lia)) as H0. simpl in H0.
    unfold slot_stops in H0.
    destruct (getitem (hashtable.internal_list t) i) as [slot|];
      [|discriminate].
    simpl in H0. injection H0 as ->.
    destruct (next_index _ _ i h) as [i' h'] eqn:En. cbn [fst snd].
    rewrite (IH fuel e i' h' skip (hashtable.print_collision t)).
    + rewrite bump_print_collision. cbn [probe_at fst snd].
      change (hashtable.get_new_index (hashtable.print_collision t))
        with (hashtable.get_new_index t).
      change (hashtable.size (hashtable.print_collision t))
        with (hashtable.size t).
      rewrite En. reflexivity.
    + lia.
    + intros m' Hm'. specialize (Hbefore (S m') ltac:(lia)).
      cbn [probe_at fst snd] in Hbefore. rewrite En in Hbefore. exact Hbefore.
    + cbn [probe_at fst snd] in Hat. rewrite En in Hat. exact Hat.
Qed.

Lemma lookup_loop_done_inv fuel : forall e i h skip t idx t',
  lookup_loop fuel e i h skip t = Done idx t' ->
  exists m : nat,
    (m < fuel)%nat /\
    idx = fst (probe_at (hashtable.get_new_index t) (hashtable.size t) m (i, h)) /\
    t' = bump t m /\
    (forall m', (m' < m)%nat ->
       slot_stops (hashtable.internal_list t) e skip
         (fst (probe_at (hashtable.get_new_index t) (hashtable.size t) m' (i, h)))
       = Some false) /\
    slot_stops (hashtable.internal_list t) e skip idx = Some true.
Proof.
  induction fuel as [|fuel IH]; intros e i h skip t idx t' H;
    [discriminate|].
  rewrite lookup_loop_step in H.
  destruct (getitem (hashtable.internal_list t) i) as [slot|] eqn:Eg;
    [|discriminate].
  destruct (stops e slot skip) eqn:Es.
  - injection H as <- <-. exists 0%nat. rewrite bump_0.
    repeat split; try lia.
    unfold slot_stops. rewrite Eg. simpl. rewrite Es. reflexivity.
  - destruct (next_index _ _ i h) as [i' h'] eqn:En. cbn [fst snd] in H.
    apply IH in H. destruct H as (m & Hm & Hidx & Ht' & Hbefore & Hat).
    change (hashtable.get_new_index (hashtable.print_collision t))
      with (hashtable.get_new_index t) in *.
    change (hashtable.size (hashtable.print_collision t))
      with (hashtable.size t) in *.
    change (hashtable.internal_list (hashtable.print_collision t))
      with (hashtable.internal_list t) in *.
    exists (S m). cbn [probe_at fst snd]. rewrite En.
    repeat split; try lia; try assumption.
    + rewrite Ht'. apply bump_print_collision.
    + intros [|m'] Hm'.
      * simpl. unfold slot_stops. rewrite Eg. simpl. rewrite Es. reflexivity.
      * cbn [probe_at fst snd]. rewrite En. apply Hbefore. lia.
Qed.

(** *** Well-formed tables *)

Definition entry_ok (e : hashtable.HashTableEntry) : Prop :=
  hashtable.is_filled e = true -> hashable (hashtable.key e) = true.

(** The size is a power of two, the list has that many slots, and the
    stored keys can be hashed again. *)
Definition wf (t : hashtable.HashTable) : Prop :=
  (exists n : nat, hashtable.size t = 2 ^ Z.of_nat n) /\
  Z.of_nat (List.length (hashtable.internal_list t)) = hashtable.size t /\
  Forall entry_ok (hashtable.internal_list t).

(** Slots that are filled or dummy. *)
Definition nonempty (l : list hashtable.HashTableEntry) : Z :=
  Z.of_nat (List.length (filter (fun e => negb (hashtable.is_empty e)) l)).

Lemma state_cases (e : hashtable.HashTableEntry) :
  (hashtable.is_dummy e = true /\ hashtable.is_filled e = false
   /\ hashtable.is_empty e = false) \/
  (hashtable.is_dummy e = false /\ hashtable.is_filled e = true
   /\ hashtable.is_empty e = false) \/
  (hashtable.is_dummy e = false /\ hashtable.is_filled e = false
   /\ hashtable.is_empty e = true).
Proof.
  unfold hashtable.is_dummy, hashtable.is_filled, hashtable.is_empty,
    hashtable.state.
  destruct (hashtable.dummy e); [auto|].
  destruct (hashtable.hash_value e); auto.
Qed.

Lemma empty_stops e slot skip : hashtable.is_empty slot = true -> stops e slot skip = true.
Proof.
  intros H. unfold stops.
  destruct (state_cases slot) as [(?&?&?)|[(?&?&?)|(Hd&Hf&_)]]; try congruence.
  rewrite Hd, Hf. reflexivity.
Qed.

Lemma nonempty_le_length l : nonempty l <= Z.of_nat (List.length l).
Proof.
  unfold nonempty. pose proof (filter_length_le (fun e => negb (hashtable.is_empty e)) l).
  lia.
Qed.

Lemma nonempty_cons e l :
  nonempty (e :: l) = (if hashtable.is_empty e then 0 else 1) + nonempty l.
Proof.
  unfold nonempty. cbn [filter]. destruct (hashtable.is_empty e);
    cbn [negb List.length]; lia.
Qed.

Lemma exists_empty_slot l :
  nonempty l < Z.of_nat (List.length l) ->
  exists (j : nat) slot, nth_error l j = Some slot /\ hashtable.is_empty slot = true.
Proof.
  induction l as [|e l IH]; intros H.
  - unfold nonempty in H. simpl in H. lia.
  - rewrite nonempty_cons in H. simpl List.length in H.
    destruct (hashtable.is_empty e) eqn:E.
    + exists 0%nat, e. auto.
    + destruct IH as (j & slot & Hj & Hs); [lia|].
      exists (S j), slot. auto.
Qed.

Lemma nonempty_replace_nth l j slot e :
  nth_error l j = Some slot -> hashtable.is_empty e = false ->
  nonempty (replace_nth l j e)
  = nonempty l + (if hashtable.is_empty slot then 1 else 0).
Proof.
  revert j. induction l as [|a l IH]; intros [|j] Hn He; simpl in Hn;
    try discriminate.
  - injection Hn as ->. simpl replace_nth. rewrite !nonempty_cons, He.
    destruct (hashtable.is_empty slot); lia.
  - simpl replace_nth. rewrite !nonempty_cons, (IH j Hn He). lia.
Qed.

Lemma getitem_nth_error {A} (l : list A) (i : Z) :
  0 <= i < Z.of_nat (List.length l) -> getitem l i = nth_error l (Z.to_nat i).
Proof.
  intros Hi. unfold getitem. rewrite norm_index_in_range by exact Hi.
  reflexivity.
Qed.

Lemma getitem_some {A} (l : list A) (i : Z) :
  0 <= i < Z.of_nat (List.length l) -> exists x, getitem l i = Some x.
Proof.
  intros Hi. rewrite getitem_nth_error by exact Hi.
  destruct (nth_error l (Z.to_nat i)) eqn:E; [eauto|].
  apply nth_error_None in E. lia.
Qed.

Lemma setitem_in_range {A} (l : list A) (i : Z) (x : A) :
  0 <= i < Z.of_nat (List.length l) ->
  setitem l i x = Some (replace_nth l (Z.to_nat i) x).
Proof.
  intros Hi. unfold setitem. rewrite norm_index_in_range by exact Hi.
  reflexivity.
Qed.

Lemma least_true (P : nat -> bool) (M : nat) :
  P M = true ->
  exists m, (m <= M)%nat /\ P m = true /\ forall m', (m' < m)%nat -> P m' = false.
Proof.
  induction M as [M IH] using lt_wf_ind. intros HM.
  destruct (forallb (fun m' => negb (P m')) (seq 0 M)) eqn:E.
  - exists M. repeat split; auto. intros m' Hm'.
    rewrite forallb_forall in E. specialize (E m').
    rewrite negb_true_iff in E. apply E. apply in_seq. lia.
  - assert (Hex : exists m', (m' < M)%nat /\ P m' = true).
    { clear IH HM. induction M as [|M IHM]; [discriminate|].
      rewrite seq_S, forallb_app in E. simpl in E.
      destruct (forallb (fun m' => negb (P m')) (seq 0 M)) eqn:E1.
      - simpl in E. rewrite andb_true_r in E. apply negb_false_iff in E.
        exists M. auto.
      - destruct (IHM eq_refl) as (m' & Hm' & Hp). exists m'. split; [lia|auto]. }
    destruct Hex as (m' & Hm' & Hp).
    destruct (IH m' Hm' Hp) as (m & Hm & Hpm & Hmin).
    exists m. repeat split; auto. lia.
Qed.

(** The probe loop returns as soon as some slot of the table would stop
    it. *)
Lemma lookup_loop_terminates e i h skip t (j : Z) :
  (exists n : nat, hashtable.size t = 2 ^ Z.of_nat n) ->
  Z.of_nat (List.length (hashtable.internal_list t)) = hashtable.size t ->
  0 <= i < hashtable.size t -> 0 <= h ->
  0 <= j < hashtable.size t ->
  slot_stops (hashtable.internal_list t) e skip j = Some true ->
  exists fuel idx t', lookup_loop fuel e i h skip t = Done idx t'.
Proof.
  intros [n Hn] Hlen Hi Hh Hj Hstop. rewrite Hn in *.
  destruct (probe_reaches (hashtable.get_new_index t) n i h j Hi Hh Hj)
    as [M HM].
  set (P := fun m =>
    match slot_stops (hashtable.internal_list t) e skip
            (fst (probe_at (hashtable.get_new_index t) (2 ^ Z.of_nat n) m (i, h)))
    with Some false => false | _ => true end).
  destruct (least_true P M) as (m & Hm & Hpm & Hmin).
  { unfold P. rewrite HM, Hstop. reflexivity. }
  assert (Hsome : forall m, exists b,
    slot_stops (hashtable.internal_list t) e skip
      (fst (probe_at (hashtable.get_new_index t) (2 ^ Z.of_nat n) m (i, h)))
    = Some b).
  { intros m0. unfold slot_stops.
    destruct (getitem_some (hashtable.internal_list t)
      (fst (probe_at (hashtable.get_new_index t) (2 ^ Z.of_nat n) m0 (i, h))))
      as [x Hx].
    - rewrite Hlen. apply probe_at_range. exact Hi.
    - rewrite Hx. simpl. eauto. }
  exists (S m). eexists. eexists. apply (lookup_loop_found m).
  - lia.
  - intros m' Hm'. specialize (Hmin m' Hm'). unfold P in Hmin. rewrite Hn.
    destruct (Hsome m') as [b Hb]. rewrite Hb in *. destruct b; congruence.
  - unfold P in Hpm. rewrite Hn.
    destruct (Hsome m) as [b Hb]. rewrite Hb in *. destruct b; congruence.
Qed.

(** *** [__lookup_key] *)

(** The entry [__lookup_key] builds for the key it looks for. *)
Definition probe_entry (k : obj) (h : Z) : hashtable.HashTableEntry :=
  hashtable.mkEntry k PyNone (Some h) false.

(** The loop returns [idx], holding [slot], after [m] probe steps. *)
Definition found_at (t : hashtable.HashTable) (k : obj) (h : Z) (skip : bool)
    (m : nat) (idx : Z) (slot : hashtable.HashTableEntry) : Prop :=
  idx = fst (probe_at (hashtable.get_new_index t) (hashtable.size t) m
               (Z.land h (hashtable.size t - 1), h)) /\
  0 <= idx < hashtable.size t /\
  nth_error (hashtable.internal_list t) (Z.to_nat idx) = Some slot /\
  stops (probe_entry k h) slot skip = true /\
  forall m', (m' < m)%nat ->
    slot_stops (hashtable.internal_list t) (probe_entry k h) skip
      (fst (probe_at (hashtable.get_new_index t) (hashtable.size t) m'
              (Z.land h (hashtable.size t - 1), h))) = Some false.

Lemma lookup_key_hashed fuel k skip t h :
  hashable k = true -> get_hash fuel k = Some h ->
  lookup_key fuel k skip t
  = lookup_loop fuel (probe_entry k h)
      (Z.land h (hashtable.size t - 1)) h skip t.
Proof.
  intros Hk Hh. unfold hashtable.lookup_key.
  rewrite (new_entry_of_hash fuel k PyNone h Hk Hh). reflexivity.
Qed.

Lemma lookup_key_mono fuel fuel' k skip t r :
  (fuel <= fuel')%nat -> r <> Timeout ->
  lookup_key fuel k skip t = r -> lookup_key fuel' k skip t = r.
Proof.
  intros Hle Hr. unfold hashtable.lookup_key.
  destruct (new_entry fuel k PyNone) as [e|] eqn:E; [|congruence].
  rewrite (new_entry_mono fuel fuel' k PyNone e Hle E).
  destruct (hashtable.hash_value e); [|auto].
  apply lookup_loop_mono; assumption.
Qed.

Lemma start_index_range (n : nat) (h : Z) :
  0 <= Z.land h (2 ^ Z.of_nat n - 1) < 2 ^ Z.of_nat n.
Proof. rewrite land_mask. apply Z.mod_pos_bound. apply pow2_pos. Qed.

Lemma lookup_key_inv fuel k skip t idx t' :
  wf t -> lookup_key fuel k skip t = Done idx t' ->
  exists h m slot,
    hashable k = true /\ get_hash fuel k = Some h /\ (m < fuel)%nat /\
    found_at t k h skip m idx slot /\ t' = bump t m.
Proof.
  intros ([n Hn] & Hlen & _). unfold hashtable.lookup_key.
  destruct (new_entry fuel k PyNone) as [e|] eqn:E; [|discriminate].
  destruct (hashtable.hash_value e) as [h|] eqn:Eh; [|discriminate].
  destruct (new_entry_hashed fuel k PyNone e h E Eh) as (Hk & Hh & ->).
  intros H. apply lookup_loop_done_inv in H.
  destruct H as (m & Hm & Hidx & Ht' & Hbefore & Hat).
  assert (Hr : 0 <= idx < hashtable.size t).
  { rewrite Hidx, Hn. apply probe_at_range. apply start_index_range. }
  unfold slot_stops in Hat.
  rewrite getitem_nth_error in Hat by lia.
  destruct (nth_error (hashtable.internal_list t) (Z.to_nat idx)) as [slot|] eqn:Es;
    [|discriminate].
  simpl in Hat. injection Hat as Hat.
  exists h, m, slot. repeat split; auto; lia.
Qed.

Lemma lookup_key_intro fuel k skip t h m idx slot :
  hashable k = true -> get_hash fuel k = Some h -> (m < fuel)%nat ->
  found_at t k h skip m idx slot ->
  Z.of_nat (List.length (hashtable.internal_list t)) = hashtable.size t ->
  lookup_key fuel k skip t = Done idx (bump t m).
Proof.
  intros Hk Hh Hm (Hidx & Hr & Hs & Hstop & Hbefore) Hlen.
  rewrite (lookup_key_hashed fuel k skip t h Hk Hh). rewrite Hidx.
  apply lookup_loop_found; [exact Hm|exact Hbefore|].
  rewrite <- Hidx. unfold slot_stops.
  rewrite getitem_nth_error by lia. rewrite Hs. simpl. rewrite Hstop.
  reflexivity.
Qed.

Lemma lookup_key_total k skip t :
  wf t -> hashable k = true ->
  nonempty (hashtable.internal_list t) < hashtable.size t ->
  exists fuel idx t', lookup_key fuel k skip t = Done idx t'.
Proof.
  intros (Hn & Hlen & _) Hk Hfree.
  destruct (hashable_total k Hk) as (f1 & h & Hh).
  destruct (exists_empty_slot (hashtable.internal_list t)) as (j & slot & Hj & He);
    [lia|].
  assert (Hjr : (j < List.length (hashtable.internal_list t))%nat).
  { apply nth_error_Some. congruence. }
  destruct Hn as [n Hn].
  destruct (lookup_loop_terminates (probe_entry k h)
              (Z.land h (hashtable.size t - 1)) h skip t (Z.of_nat j))
    as (f2 & idx & t' & H2); eauto.
  - rewrite Hn. apply start_index_range.
  - eapply table_get_hash_nonneg. exact Hh.
  - lia.
  - unfold slot_stops. rewrite getitem_nth_error by lia.
    rewrite Nat2Z.id, Hj. simpl. rewrite empty_stops by exact He. reflexivity.
  - exists (Nat.max f1 f2), idx, t'.
    rewrite (lookup_key_hashed _ k skip t h Hk
               (table_get_hash_mono f1 _ k h (Nat.le_max_l _ _) Hh)).
    eapply lookup_loop_mono; [apply Nat.le_max_r|discriminate|exact H2].
Qed.

(** *** [update], split at the call of [__lookup_key] *)

(** The first two lines of [update]: grow the table when the load factor
    would be exceeded. *)
Definition grow (fuel : nat) (self : hashtable.HashTable)
  : outcome hashtable.HashTable unit :=
  if hashtable.over_load_factor self
  then hashtable.increment_size (update fuel) self
  else Done tt self.

(** The rest of [update]: find the slot, count it, write the entry. *)
Definition place (fuel : nat) (k v : obj) (self : hashtable.HashTable)
  : outcome hashtable.HashTable unit :=
  bind (lookup_key fuel k false self) (fun index self =>
  match getitem (hashtable.internal_list self) index with
  | None => Raised IndexError self
  | Some slot =>
      let self :=
        if negb (hashtable.is_dummy slot) && hashtable.update_used self
        then hashtable.with_used self (hashtable.used self + 1) else self in
      match new_entry fuel k v with
      | None => Timeout
      | Some entry =>
          match setitem (hashtable.internal_list self) index entry with
          | None => Raised IndexError self
          | Some l => Done tt (hashtable.with_list self l)
          end
      end
  end).

Lemma update_unfold fuel k v t :
  update (S fuel) k v t
  = if hashtable.size t =? 0 then Raised ZeroDivisionError t
    else bind (grow fuel t) (fun _ t1 => place fuel k v t1).
Proof. reflexivity. Qed.

(** The table [place] leaves: the entry written at [idx], [used] counted
    unless the slot was a dummy or the table is replaying, [m] collisions
    counted. *)
Definition placed (t : hashtable.HashTable) (idx : Z)
    (slot : hashtable.HashTableEntry) (k v : obj) (h : Z) (m : nat)
  : hashtable.HashTable :=
  hashtable.mkTable (hashtable.size t)
    (if negb (hashtable.is_dummy slot) && hashtable.update_used t
     then hashtable.used t + 1 else hashtable.used t)
    (hashtable.update_used t)
    (replace_nth (hashtable.internal_list t) (Z.to_nat idx)
       (hashtable.mkEntry k v (Some h) false))
    (hashtable.collision_counter t + Z.of_nat m)
    (hashtable.hash_key t) (hashtable.get_new_index t).

Lemma place_found fuel k v t h m idx slot :
  Z.of_nat (List.length (hashtable.internal_list t)) = hashtable.size t ->
  hashable k = true -> get_hash fuel k = Some h -> (m < fuel)%nat ->
  found_at t k h false m idx slot ->
  place fuel k v t = Done tt (placed t idx slot k v h m).
Proof.
  intros Hlen Hk Hh Hm Hf. unfold place.
  rewrite (lookup_key_intro fuel k false t h m idx slot Hk Hh Hm Hf Hlen).
  destruct Hf as (_ & Hr & Hs & _). cbn [bind].
  change (hashtable.internal_list (bump t m)) with (hashtable.internal_list t).
  rewrite getitem_nth_error by lia. rewrite Hs.
  rewrite (new_entry_of_hash fuel k v h Hk Hh).
  change (hashtable.update_used (bump t m)) with (hashtable.update_used t).
  destruct (negb (hashtable.is_dummy slot) && hashtable.update_used t) eqn:E.
  - change (hashtable.internal_list (hashtable.with_used (bump t m) _))
      with (hashtable.internal_list t).
    rewrite setitem_in_range by lia. unfold placed. rewrite E. reflexivity.
  - change (hashtable.internal_list (bump t m)) with (hashtable.internal_list t).
    rewrite setitem_in_range by lia. unfold placed. rewrite E. reflexivity.
Qed.

Lemma place_inv fuel k v t t' :
  wf t -> place fuel k v t = Done tt t' ->
  exists h m idx slot,
    hashable k = true /\ get_hash fuel k = Some h /\ (m < fuel)%nat /\
    found_at t k h false m idx slot /\ t' = placed t idx slot k v h m.
Proof.
  intros Hwf H. unfold place in H.
  destruct (lookup_key fuel k false t) as [idx t2|e t2|] eqn:El;
    try discriminate.
  destruct (lookup_key_inv fuel k false t idx t2 Hwf El)
    as (h & m & slot & Hk & Hh & Hm & Hf & ->).
  exists h, m, idx, slot.
  split; [exact Hk|]. split; [exact Hh|]. split; [exact Hm|].
  split; [exact Hf|].
  destruct Hwf as (_ & Hlen & _).
  pose proof (place_found fuel k v t h m idx slot Hlen Hk Hh Hm Hf) as Hp.
  unfold place in Hp. rewrite El in Hp. congruence.
Qed.

Lemma place_mono fuel fuel' k v t r :
  (fuel <= fuel')%nat -> r <> Timeout ->
  place fuel k v t = r -> place fuel' k v t = r.
Proof.
  intros Hle Hr. unfold place.
  destruct (lookup_key fuel k false t) as [idx t2|e t2|] eqn:El.
  - rewrite (lookup_key_mono fuel fuel' k false t (Done idx t2) Hle
               ltac:(discriminate) El).
    cbn [bind]. destruct (getitem _ idx) as [slot|]; [|auto].
    destruct (new_entry fuel k v) as [e|] eqn:E; [|congruence].
    rewrite (new_entry_mono fuel fuel' k v e Hle E). auto.
  - rewrite (lookup_key_mono fuel fuel' k false t (Raised e t2) Hle
               ltac:(discriminate) El).
    auto.
  - simpl. congruence.
Qed.

Lemma place_total k v t :
  wf t -> hashable k = true ->
  nonempty (hashtable.internal_list t) < hashtable.size t ->
  exists fuel t', place fuel k v t = Done tt t'.
Proof.
  intros Hwf Hk Hfree.
  destruct (lookup_key_total k false t Hwf Hk Hfree) as (fuel & idx & t2 & Hl).
  destruct (lookup_key_inv fuel k false t idx t2 Hwf Hl)
    as (h & m & slot & _ & Hh & Hm & Hf & ->).
  destruct Hwf as (_ & Hlen & _).
  exists fuel. eexists. eapply place_found; eauto.
Qed.

(** *** More fuel changes nothing *)

Lemma bind_not_timeout {S A B} (m : outcome S A) (k : A -> S -> outcome S B) :
  bind m k <> Timeout -> m <> Timeout.
Proof. destruct m; simpl; congruence. Qed.

Lemma replay_mono
    (upd upd' : obj -> obj -> hashtable.HashTable -> outcome hashtable.HashTable unit) :
  (forall k v t r, r <> Timeout -> upd k v t = r -> upd' k v t = r) ->
  forall its t r, r <> Timeout ->
    hashtable.replay upd its t = r -> hashtable.replay upd' its t = r.
Proof.
  intros Hupd its. induction its as [|[k v] its IH]; intros t r Hr H.
  - exact H.
  - simpl in *. subst r.
    destruct (upd k v t) as [[] t1|e t1|] eqn:E.
    + rewrite (Hupd k v t (Done tt t1) ltac:(discriminate) E). simpl.
      simpl in Hr. apply IH; [exact Hr|reflexivity].
    + rewrite (Hupd k v t (Raised e t1) ltac:(discriminate) E). reflexivity.
    + simpl in Hr. congruence.
Qed.

Lemma increment_size_mono
    (upd upd' : obj -> obj -> hashtable.HashTable -> outcome hashtable.HashTable unit) :
  (forall k v t r, r <> Timeout -> upd k v t = r -> upd' k v t = r) ->
  forall t r, r <> Timeout ->
    hashtable.increment_size upd t = r -> hashtable.increment_size upd' t = r.
Proof.
  intros Hupd t r Hr H. unfold hashtable.increment_size in *. subst r.
  destruct (hashtable.replay upd _ _) as [[] t1|e t1|] eqn:E.
  - rewrite (replay_mono upd upd' Hupd _ _ (Done tt t1) ltac:(discriminate) E).
    reflexivity.
  - rewrite (replay_mono upd upd' Hupd _ _ (Raised e t1) ltac:(discriminate) E).
    reflexivity.
  - simpl in Hr. congruence.
Qed.

Lemma update_mono fuel : forall fuel' k v t r,
  (fuel <= fuel')%nat -> r <> Timeout ->
  update fuel k v t = r -> update fuel' k v t = r.
Proof.
  induction fuel as [|fuel IH]; intros fuel' k v t r Hle Hr H.
  - simpl in H. congruence.
  - destruct fuel' as [|fuel']; [lia|]. rewrite update_unfold in *.
    destruct (hashtable.size t =? 0); [exact H|]. subst r.
    assert (Hg : forall r, r <> Timeout -> grow fuel t = r -> grow fuel' t = r).
    { intros r Hr' Hgr. unfold grow in *.
      destruct (hashtable.over_load_factor t); [|exact Hgr].
      eapply increment_size_mono; [|exact Hr'|exact Hgr].
      intros k0 v0 t0 r0 Hr0 Hu. apply (IH fuel'); [lia|exact Hr0|exact Hu]. }
    destruct (grow fuel t) as [[] t1|e t1|].
    + rewrite (Hg (Done tt t1) ltac:(discriminate) eq_refl). simpl.
      simpl in Hr. apply (place_mono fuel); [lia|exact Hr|reflexivity].
    + rewrite (Hg (Raised e t1) ltac:(discriminate) eq_refl). reflexivity.
    + simpl in Hr. congruence.
Qed.

Lemma grow_mono fuel fuel' t r :
  (fuel <= fuel')%nat -> r <> Timeout -> grow fuel t = r -> grow fuel' t = r.
Proof.
  intros Hle Hr H. unfold grow in *.
  destruct (hashtable.over_load_factor t); [|exact H].
  eapply increment_size_mono; [|exact Hr|exact H].
  intros k0 v0 t0 r0 Hr0 Hu. eapply update_mono; eauto.
Qed.

Lemma get_mono fuel fuel' k t r :
  (fuel <= fuel')%nat -> r <> Timeout -> get fuel k t = r -> get fuel' k t = r.
Proof.
  intros Hle Hr H. unfold hashtable.get in *. subst r.
  destruct (lookup_key fuel k true t) as [idx t2|e t2|] eqn:El.
  - rewrite (lookup_key_mono fuel fuel' k true t (Done idx t2) Hle
               ltac:(discriminate) El). reflexivity.
  - rewrite (lookup_key_mono fuel fuel' k true t (Raised e t2) Hle
               ltac:(discriminate) El). reflexivity.
  - simpl in Hr. congruence.
Qed.

Lemma remove_mono fuel fuel' k t r :
  (fuel <= fuel')%nat -> r <> Timeout -> remove fuel k t = r -> remove fuel' k t = r.
Proof.
  intros Hle Hr H. unfold hashtable.remove in *. subst r.
  destruct (lookup_key fuel k true t) as [idx t2|e t2|] eqn:El.
  - rewrite (lookup_key_mono fuel fuel' k true t (Done idx t2) Hle
               ltac:(discriminate) El). reflexivity.
  - rewrite (lookup_key_mono fuel fuel' k true t (Raised e t2) Hle
               ltac:(discriminate) El). reflexivity.
  - simpl in Hr. congruence.
Qed.

(** *** The load factor test *)

Lemma Qdiv_le_1 (a s : Z) :
  0 < s -> Qle_bool (inject_Z a / inject_Z s) 1 = (a <=? s).
Proof.
  intros Hs. destruct s as [|p|p]; try lia.
  unfold Qle_bool, Qdiv, Qmult, Qinv, inject_Z. simpl.
  rewrite !Z.mul_1_r. reflexivity.
Qed.

Lemma over_load_factor_spec t :
  0 < hashtable.size t ->
  hashtable.over_load_factor t = (hashtable.size t <? hashtable.used t + 1).
Proof.
  intros Hs. unfold hashtable.over_load_factor, hashtable.load_factor.
  rewrite Qdiv_le_1 by exact Hs. rewrite Z.ltb_antisym. reflexivity.
Qed.

Lemma wf_size_pos t : wf t -> 0 < hashtable.size t.
Proof. intros ([n ->] & _). apply pow2_pos. Qed.

(** *** What [place] leaves behind *)

Lemma Forall_replace_nth {A} (P : A -> Prop) (l : list A) (j : nat) (x : A) :
  Forall P l -> P x -> Forall P (replace_nth l j x).
Proof.
  intros Hl Hx. revert j. induction Hl as [|a l Ha Hl IH]; intros [|j]; simpl;
    constructor; auto.
Qed.

Lemma placed_wf t idx slot k v h m :
  wf t -> hashable k = true -> wf (placed t idx slot k v h m).
Proof.
  intros (Hn & Hlen & Hok) Hk. unfold wf, placed. simpl.
  split; [exact Hn|]. split.
  - rewrite replace_nth_length. exact Hlen.
  - apply Forall_replace_nth; [exact Hok|]. intros _. exact Hk.
Qed.

Lemma placed_nonempty t idx slot k v h m :
  nth_error (hashtable.internal_list t) (Z.to_nat idx) = Some slot ->
  nonempty (hashtable.internal_list (placed t idx slot k v h m))
  = nonempty (hashtable.internal_list t)
    + (if hashtable.is_empty slot then 1 else 0).
Proof.
  intros Hs. unfold placed. simpl.
  apply nonempty_replace_nth; [exact Hs|reflexivity].
Qed.

(** *** Keys and [==] *)

(** The keys that [==] compares by value: [int] and [str]. *)
Definition plain (k : obj) : bool :=
  match k with
  | PyInt _ => true
  | PyStr _ => true
  | _ => false
  end.

Lemma key_eq_plain (a b : obj) :
  plain a = true -> plain b = true -> (key_eq a b = true <-> a = b).
Proof.
  destruct a, b; simpl; intros Ha Hb; try discriminate;
    split; intros H; try congruence; try discriminate.
  - apply Z.eqb_eq in H. congruence.
  - injection H as ->. apply Z.eqb_refl.
  - destruct (list_eq_dec N.eq_dec s s0); congruence.
  - injection H as ->. destruct (list_eq_dec N.eq_dec s0 s0); congruence.
Qed.

Lemma key_eq_plain_refl (a : obj) : plain a = true -> key_eq a a = true.
Proof. intros Ha. apply key_eq_plain; auto. Qed.

(** [k] is [==] to none of the keys [ks]. *)
Definition equals_none (k : obj) (ks : list obj) : Prop :=
  Forall (fun k' => key_eq k k' = false) ks.

(** No two of the keys are [==], whichever of the two is asked. *)
Fixpoint apart (ks : list obj) : Prop :=
  match ks with
  | [] => True
  | k :: rest =>
      Forall (fun k' => key_eq k k' = false /\ key_eq k' k = false) rest /\
      apart rest
  end.

Lemma apart_perm (l l' : list obj) : Permutation l l' -> apart l -> apart l'.
Proof.
  induction 1 as [|x l l' Hp IH|x y l|l l' l'' _ IH1 _ IH2]; simpl.
  - auto.
  - intros [Hx Ha]. split; [|auto].
    eapply Permutation_Forall; eauto.
  - intros (Hy & Hx & Ha). inversion Hy as [|? ? [Hyx Hxy] Hy']; subst.
    split; [constructor; auto|]. split; assumption.
  - auto.
Qed.

Lemma apart_cons_inv (k : obj) (l : list obj) :
  apart (k :: l) -> equals_none k l /\ apart l.
Proof.
  simpl. intros [Hk Ha]. split; [|exact Ha].
  unfold equals_none. eapply Forall_impl; [|exact Hk]. simpl. tauto.
Qed.

Lemma apart_middle (l r : list obj) (k : obj) :
  apart (l ++ k :: r) <-> apart (k :: l ++ r).
Proof.
  split; apply apart_perm;
    [apply Permutation_sym|]; apply Permutation_middle.
Qed.

(** Among [int] and [str] keys, being apart is being different. *)
Lemma apart_of_nodup (ks : list obj) :
  Forall (fun k => plain k = true) ks -> NoDup ks -> apart ks.
Proof.
  induction ks as [|k ks IH]; intros Hp Hd; simpl; [exact I|].
  inversion Hp as [|? ? Hk Hp']; subst.
  inversion Hd as [|? ? Hn Hd']; subst.
  split; [|auto]. apply Forall_forall. intros k' Hin.
  rewrite Forall_forall in Hp'. specialize (Hp' k' Hin).
  split.
  - destruct (key_eq k k') eqn:E; [|reflexivity].
    apply key_eq_plain in E; auto. subst. contradiction.
  - destruct (key_eq k' k) eqn:E; [|reflexivity].
    apply key_eq_plain in E; auto. subst. contradiction.
Qed.

Lemma apart_app_l (l r : list obj) : apart (l ++ r) -> apart l.
Proof.
  induction l as [|k l IH]; simpl; [auto|].
  intros [Hk Ha]. apply Forall_app in Hk. split; [apply Hk|auto].
Qed.

(** A key that is equal to itself occurs once among keys that are apart. *)
Lemma apart_nodup_of (k : obj) (l r : list obj) :
  apart (l ++ k :: r) -> key_eq k k = true -> ~ In k (l ++ r).
Proof.
  intros Ha Hk Hin. apply apart_middle in Ha. destruct Ha as [Ha _].
  rewrite Forall_forall in Ha. destruct (Ha k Hin). congruence.
Qed.

(** *** Keys and items *)

(** The filled entries of a slot list, in slot order. *)
Definition filled (l : list hashtable.HashTableEntry) :=
  filter hashtable.is_filled l.

Definition entries_items (l : list hashtable.HashTableEntry) : list (obj * obj) :=
  map (fun e => (hashtable.key e, hashtable.value e)) (filled l).

Definition entries_keys (l : list hashtable.HashTableEntry) : list obj :=
  map hashtable.key (filled l).

Lemma get_items_of_eq l :
  hashtable.get_items_of l
  = (map hashtable.key (filled l), map hashtable.value (filled l),
     map hashtable.hash_value (filled l)).
Proof.
  induction l as [|e l IH]; [reflexivity|].
  simpl. rewrite IH. unfold filled. simpl.
  destruct (hashtable.is_filled e); reflexivity.
Qed.

Lemma items_eq t : hashtable.items t = entries_items (hashtable.internal_list t).
Proof.
  unfold hashtable.items, hashtable.get_items. rewrite get_items_of_eq.
  unfold entries_items. induction (filled (hashtable.internal_list t));
    simpl; congruence.
Qed.

Lemma keys_eq t : hashtable.keys t = entries_keys (hashtable.internal_list t).
Proof.
  unfold hashtable.keys, hashtable.get_items. rewrite get_items_of_eq.
  reflexivity.
Qed.

Lemma entries_keys_items l : entries_keys l = map fst (entries_items l).
Proof.
  unfold entries_keys, entries_items. rewrite map_map. reflexivity.
Qed.

Lemma entries_items_replace_unfilled l j slot e :
  nth_error l j = Some slot -> hashtable.is_filled slot = false ->
  hashtable.is_filled e = true ->
  Permutation (entries_items (replace_nth l j e))
    ((hashtable.key e, hashtable.value e) :: entries_items l).
Proof.
  revert j. induction l as [|a l IH]; intros [|j] Hn Hs He; simpl in Hn;
    try discriminate.
  - injection Hn as ->. unfold entries_items, filled. simpl.
    rewrite He, Hs. reflexivity.
  - specialize (IH j Hn Hs He). unfold entries_items, filled in *. simpl.
    destruct (hashtable.is_filled a); simpl.
    + rewrite IH. apply perm_swap.
    + exact IH.
Qed.

(** Overwriting the filled slot [j]: its pair is replaced, nothing else
    changes. *)
Lemma entries_items_replace_filled l j slot e :
  nth_error l j = Some slot -> hashtable.is_filled slot = true ->
  hashtable.is_filled e = true ->
  exists l1 l2,
    entries_items l = l1 ++ (hashtable.key slot, hashtable.value slot) :: l2 /\
    entries_items (replace_nth l j e)
    = l1 ++ (hashtable.key e, hashtable.value e) :: l2.
Proof.
  revert j. induction l as [|a l IH]; intros [|j] Hn Hs He; simpl in Hn;
    try discriminate.
  - injection Hn as ->. exists [], (entries_items l).
    unfold entries_items, filled. simpl. rewrite He, Hs. auto.
  - destruct (IH j Hn Hs He) as (l1 & l2 & H1 & H2).
    unfold entries_items, filled in *. simpl.
    destruct (hashtable.is_filled a); simpl.
    + exists ((hashtable.key a, hashtable.value a) :: l1), l2.
      rewrite H1, H2. auto.
    + exists l1, l2. auto.
Qed.

Definition no_dummy (l : list hashtable.HashTableEntry) : Prop :=
  Forall (fun e => hashtable.is_dummy e = false) l.

Lemma stops_cases e slot :
  stops e slot false = true ->
  hashtable.is_dummy slot = true \/
  (hashtable.is_filled slot = true /\ entry_eq e slot = true) \/
  hashtable.is_empty slot = true.
Proof.
  unfold stops.
  destruct (state_cases slot) as [(Hd&Hf&He)|[(Hd&Hf&He)|(Hd&Hf&He)]];
    rewrite Hd, Hf; auto.
Qed.

(** The entry built for the key [k] is [==] to a slot when the hashes agree
    and [k == slot.key]. *)
Lemma eq_probe_entry k h slot :
  entry_eq (probe_entry k h) slot = true ->
  key_eq k (hashtable.key slot) = true /\ hashtable.hash_value slot = Some h.
Proof.
  unfold hashtable.eq, probe_entry. simpl.
  destruct (hashtable.hash_value slot) as [h'|]; simpl; [|discriminate].
  destruct (h =? h') eqn:E; simpl; [|discriminate].
  intros H. apply Z.eqb_eq in E. subst. auto.
Qed.

Lemma eq_probe_entry_intro k h slot :
  key_eq k (hashtable.key slot) = true -> hashtable.hash_value slot = Some h ->
  entry_eq (probe_entry k h) slot = true.
Proof.
  intros Hk Hh. unfold hashtable.eq, probe_entry. simpl. rewrite Hh. simpl.
  rewrite Z.eqb_refl. simpl. exact Hk.
Qed.

Lemma in_entries_keys l j slot :
  nth_error l j = Some slot -> hashtable.is_filled slot = true ->
  In (hashtable.key slot) (entries_keys l).
Proof.
  intros Hn Hf. unfold entries_keys, filled. apply in_map.
  apply filter_In. split; [|exact Hf]. eapply nth_error_In. exact Hn.
Qed.

(** In a table without dummies a key that is [==] to no stored key is
    placed in an empty slot. *)
Lemma fresh_target_empty t k h m idx slot :
  found_at t k h false m idx slot ->
  no_dummy (hashtable.internal_list t) ->
  equals_none k (entries_keys (hashtable.internal_list t)) ->
  hashtable.is_empty slot = true.
Proof.
  intros (_ & _ & Hs & Hstop & _) Hnd Hfresh.
  destruct (stops_cases _ _ Hstop) as [Hd|[[Hf He]|He]]; [| |exact He].
  - unfold no_dummy in Hnd. rewrite Forall_forall in Hnd.
    rewrite (Hnd slot) in Hd; [discriminate|]. eapply nth_error_In. exact Hs.
  - destruct (eq_probe_entry k h slot He) as [Hk _]. exfalso.
    unfold equals_none in Hfresh. rewrite Forall_forall in Hfresh.
    rewrite (Hfresh (hashtable.key slot)) in Hk; [discriminate|].
    eapply in_entries_keys; eauto.
Qed.

Lemma placed_items_fresh t k v h m idx slot :
  found_at t k h false m idx slot -> hashtable.is_empty slot = true ->
  Permutation (entries_items (hashtable.internal_list (placed t idx slot k v h m)))
    ((k, v) :: entries_items (hashtable.internal_list t)).
Proof.
  intros (_ & _ & Hs & _) He. unfold placed. simpl.
  apply (entries_items_replace_unfilled _ _ slot
           (hashtable.mkEntry k v (Some h) false)); auto.
  destruct (state_cases slot) as [(?&?&?)|[(?&?&?)|(?&?&?)]]; congruence.
Qed.

Lemma placed_no_dummy t k v h m idx slot :
  no_dummy (hashtable.internal_list t) ->
  no_dummy (hashtable.internal_list (placed t idx slot k v h m)).
Proof.
  intros H. unfold placed. simpl. apply Forall_replace_nth; [exact H|].
  reflexivity.
Qed.

(** *** One [update] without growth *)

Lemma grow_not_over fuel t :
  hashtable.over_load_factor t = false -> grow fuel t = Done tt t.
Proof. intros H. unfold grow. rewrite H. reflexivity. Qed.

Lemma update_no_grow k v t :
  wf t -> hashtable.over_load_factor t = false -> hashable k = true ->
  nonempty (hashtable.internal_list t) < hashtable.size t ->
  exists fuel h m idx slot,
    found_at t k h false m idx slot /\
    update fuel k v t = Done tt (placed t idx slot k v h m).
Proof.
  intros Hwf Hover Hk Hfree.
  destruct (place_total k v t Hwf Hk Hfree) as (fuel & t' & Hp).
  destruct (place_inv fuel k v t t' Hwf Hp)
    as (h & m & idx & slot & _ & _ & _ & Hf & ->).
  exists (S fuel), h, m, idx, slot. split; [exact Hf|].
  rewrite update_unfold, grow_not_over by exact Hover.
  pose proof (wf_size_pos t Hwf).
  destruct (hashtable.size t =? 0) eqn:E; [apply Z.eqb_eq in E; lia|].
  exact Hp.
Qed.

(** *** The replay of [__increment_size] *)

Lemma replay_total (its : list (obj * obj)) : forall t,
  wf t -> hashtable.update_used t = false ->
  hashtable.used t + 1 <= hashtable.size t ->
  nonempty (hashtable.internal_list t) + Z.of_nat (List.length its)
    <= hashtable.size t ->
  Forall (fun kv => hashable (fst kv) = true) its ->
  exists fuel t',
    hashtable.replay (update fuel) its t = Done tt t' /\
    wf t' /\
    hashtable.size t' = hashtable.size t /\
    hashtable.used t' = hashtable.used t /\
    hashtable.update_used t' = false /\
    hashtable.get_new_index t' = hashtable.get_new_index t /\
    hashtable.hash_key t' = hashtable.hash_key t /\
    nonempty (hashtable.internal_list t')
      <= nonempty (hashtable.internal_list t) + Z.of_nat (List.length its) /\
    (no_dummy (hashtable.internal_list t) ->
     no_dummy (hashtable.internal_list t') /\
     (apart (entries_keys (hashtable.internal_list t) ++ map fst its) ->
      Permutation (entries_items (hashtable.internal_list t'))
        (entries_items (hashtable.internal_list t) ++ its))).
Proof.
  induction its as [|[k v] its IH]; intros t Hwf Huu Hused Hroom Hks.
  - exists 0%nat, t. simpl.
    split; [reflexivity|]. split; [exact Hwf|]. split; [reflexivity|].
    split; [reflexivity|]. split; [exact Huu|]. split; [reflexivity|].
    split; [reflexivity|]. split; [lia|].
    intros Hnd. split; [exact Hnd|]. intros _.
    rewrite app_nil_r. reflexivity.
  - simpl List.length in Hroom. rewrite Nat2Z.inj_succ in Hroom.
    inversion Hks as [|? ? Hk Hks']; subst. simpl in Hk.
    assert (Hover : hashtable.over_load_factor t = false).
    { rewrite over_load_factor_spec by (apply wf_size_pos; exact Hwf).
      apply Z.ltb_ge. lia. }
    destruct (update_no_grow k v t Hwf Hover Hk ltac:(lia))
      as (f1 & h & m & idx & slot & Hf & Hu).
    set (t1 := placed t idx slot k v h m) in *.
    assert (Hs : nth_error (hashtable.internal_list t) (Z.to_nat idx) = Some slot)
      by (destruct Hf as (_ & _ & Hs & _); exact Hs).
    pose proof (placed_nonempty t idx slot k v h m Hs) as Hne. fold t1 in Hne.
    assert (Hused1 : hashtable.used t1 = hashtable.used t).
    { unfold t1, placed. simpl. rewrite Huu, andb_false_r. reflexivity. }
    destruct (IH t1) as (f2 & t' & Hr & Hwf' & Hsz & Hu' & Huu' & Hgi & Hhk & Hn' & Hnd');
      auto.
    + apply placed_wf; assumption.
    + rewrite Hused1. exact Hused.
    + rewrite Hne. change (hashtable.size t1) with (hashtable.size t).
      destruct (hashtable.is_empty slot); lia.
    + exists (Nat.max f1 f2), t'. split.
      { simpl.
        rewrite (update_mono f1 (Nat.max f1 f2) k v t (Done tt t1)
                   (Nat.le_max_l _ _) ltac:(discriminate) Hu).
        simpl. fold t1.
        eapply replay_mono; [|discriminate|exact Hr].
        intros k0 v0 t0 r0 Hr0 H0.
        eapply update_mono; [apply Nat.le_max_r|exact Hr0|exact H0]. }
      split; [exact Hwf'|]. split; [exact Hsz|]. split; [congruence|].
      split; [exact Huu'|]. split; [exact Hgi|]. split; [exact Hhk|].
      split.
      { rewrite Hne in Hn'. simpl List.length. rewrite Nat2Z.inj_succ.
        destruct (hashtable.is_empty slot); lia. }
      intros Hnd.
      destruct (Hnd' (placed_no_dummy t k v h m idx slot Hnd)) as [Hnd1 Hperm].
      split; [exact Hnd1|]. intros Hap. cbn [map fst] in Hap.
      apply apart_middle in Hap.
      destruct (apart_cons_inv _ _ Hap) as [Hnone _].
      assert (Hempty : hashtable.is_empty slot = true).
      { eapply fresh_target_empty; eauto.
        unfold equals_none in *. apply Forall_app in Hnone. apply Hnone. }
      pose proof (placed_items_fresh t k v h m idx slot Hf Hempty) as Hp1.
      fold t1 in Hp1.
      rewrite Hperm.
      * rewrite Hp1. simpl. apply Permutation_middle.
      * apply (apart_perm (k :: entries_keys (hashtable.internal_list t)
                                ++ map fst its)); [|exact Hap].
        rewrite !entries_keys_items.
        change (k :: map fst (entries_items (hashtable.internal_list t))
                  ++ map fst its)
          with (map fst ((k, v) :: entries_items (hashtable.internal_list t))
                  ++ map fst its).
        apply Permutation_app_tail. apply Permutation_map.
        apply Permutation_sym. exact Hp1.
Qed.

(** *** [__increment_size] *)

Lemma filled_repeat_empty (n : nat) : filled (repeat hashtable.empty_entry n) = [].
Proof. induction n as [|n IH]; [reflexivity|]. simpl. exact IH. Qed.

Lemma nonempty_repeat_empty (n : nat) : nonempty (repeat hashtable.empty_entry n) = 0.
Proof.
  induction n as [|n IH]; [reflexivity|].
  change (repeat hashtable.empty_entry (S n))
    with (hashtable.empty_entry :: repeat hashtable.empty_entry n).
  rewrite nonempty_cons, IH. reflexivity.
Qed.

Lemma no_dummy_repeat_empty (n : nat) : no_dummy (repeat hashtable.empty_entry n).
Proof.
  apply Forall_forall. intros e He. apply repeat_spec in He. subst. reflexivity.
Qed.

Lemma entry_ok_repeat_empty (n : nat) : Forall entry_ok (repeat hashtable.empty_entry n).
Proof.
  apply Forall_forall. intros e He. apply repeat_spec in He. subst.
  intros H. discriminate.
Qed.

Lemma filled_length_le l : (List.length (filled l) <= List.length l)%nat.
Proof. apply filter_length_le. Qed.

Lemma filled_le_nonempty l : Z.of_nat (List.length (filled l)) <= nonempty l.
Proof.
  induction l as [|e l IH]; [reflexivity|].
  rewrite nonempty_cons. unfold filled in *. simpl.
  destruct (state_cases e) as [(?&Hf&He)|[(?&Hf&He)|(?&Hf&He)]];
    rewrite Hf, He; simpl List.length; lia.
Qed.

Lemma entries_items_hashable l :
  Forall entry_ok l ->
  Forall (fun kv => hashable (fst kv) = true) (entries_items l).
Proof.
  intros H. unfold entries_items, filled. apply Forall_forall.
  intros kv Hin. apply in_map_iff in Hin. destruct Hin as (e & <- & He).
  apply filter_In in He. destruct He as [He Hf].
  rewrite Forall_forall in H. apply (H e He Hf).
Qed.

Lemma increment_size_total t :
  wf t -> hashtable.used t + 1 <= 2 * hashtable.size t ->
  exists fuel t1,
    hashtable.increment_size (update fuel) t = Done tt t1 /\
    wf t1 /\
    hashtable.size t1 = 2 * hashtable.size t /\
    hashtable.used t1 = hashtable.used t /\
    hashtable.update_used t1 = true /\
    hashtable.get_new_index t1 = hashtable.get_new_index t /\
    hashtable.hash_key t1 = hashtable.hash_key t /\
    nonempty (hashtable.internal_list t1)
      <= Z.of_nat (List.length (filled (hashtable.internal_list t))) /\
    no_dummy (hashtable.internal_list t1) /\
    (apart (entries_keys (hashtable.internal_list t)) ->
     Permutation (entries_items (hashtable.internal_list t1))
       (entries_items (hashtable.internal_list t))).
Proof.
  intros Hwf Hused. pose proof (wf_size_pos t Hwf) as Hpos.
  destruct Hwf as ([n Hn] & Hlen & Hok).
  set (t0 := hashtable.with_size (hashtable.with_update_used t false)
               (Z.shiftl (hashtable.size t) 1)).
  set (ts := hashtable.with_list t0 (hashtable.init_internal_list t0)).
  assert (Hsz : hashtable.size ts = 2 * hashtable.size t).
  { change (hashtable.size ts) with (Z.shiftl (hashtable.size t) 1).
    rewrite Z.shiftl_mul_pow2 by lia. change (2 ^ 1) with 2. lia. }
  assert (Hl : hashtable.internal_list ts
               = repeat hashtable.empty_entry (Z.to_nat (2 * hashtable.size t))).
  { change (hashtable.internal_list ts)
      with (repeat hashtable.empty_entry (Z.to_nat (Z.shiftl (hashtable.size t) 1))).
    rewrite Z.shiftl_mul_pow2 by lia. change (2 ^ 1) with 2.
    f_equal. f_equal. lia. }
  assert (Hinc : forall fuel,
    hashtable.increment_size (update fuel) t
    = bind (hashtable.replay (update fuel)
              (entries_items (hashtable.internal_list t)) ts)
        (fun _ self => Done tt (hashtable.with_update_used self true))).
  { intros fuel. unfold hashtable.increment_size. rewrite items_eq.
    reflexivity. }
  destruct (replay_total (entries_items (hashtable.internal_list t)) ts)
    as (fuel & t' & Hr & Hwf' & Hsz' & Hu' & Huu' & Hgi & Hhk & Hn' & Hnd').
  - split; [exists (S n); rewrite Hsz, Hn, Nat2Z.inj_succ, Z.pow_succ_r; lia|].
    split.
    + rewrite Hl, repeat_length, Hsz. lia.
    + rewrite Hl. apply entry_ok_repeat_empty.
  - reflexivity.
  - rewrite Hsz. exact Hused.
  - rewrite Hl, nonempty_repeat_empty, Hsz.
    unfold entries_items. rewrite length_map.
    pose proof (filled_length_le (hashtable.internal_list t)). lia.
  - apply entries_items_hashable. exact Hok.
  - exists fuel, (hashtable.with_update_used t' true). rewrite Hinc, Hr.
    cbn [bind].
    split; [reflexivity|]. split; [exact Hwf'|].
    split; [change (hashtable.size t' = 2 * hashtable.size t); lia|].
    split; [exact Hu'|]. split; [reflexivity|].
    split; [exact Hgi|]. split; [exact Hhk|].
    change (hashtable.internal_list (hashtable.with_update_used t' true))
      with (hashtable.internal_list t').
    rewrite Hl in Hn', Hnd'. rewrite nonempty_repeat_empty in Hn'.
    split.
    { unfold entries_items in Hn'. rewrite length_map in Hn'. lia. }
    destruct (Hnd' (no_dummy_repeat_empty _)) as [Hnd1 Hperm].
    split; [exact Hnd1|]. intros Hdup.
    rewrite Hperm.
    + unfold entries_items at 1. rewrite filled_repeat_empty. reflexivity.
    + unfold entries_keys at 1. rewrite filled_repeat_empty.
      rewrite <- entries_keys_items. exact Hdup.
Qed.

(** *** The invariant of the public operations *)

(** Outside a resize: every slot that is not empty has been counted, and the
    count does not exceed the size. *)
Definition Inv (t : hashtable.HashTable) : Prop :=
  wf t /\
  hashtable.update_used t = true /\
  nonempty (hashtable.internal_list t) <= hashtable.used t /\
  hashtable.used t <= hashtable.size t.

Lemma grow_total t :
  Inv t ->
  exists fuel t1,
    grow fuel t = Done tt t1 /\
    Inv t1 /\
    hashtable.used t1 + 1 <= hashtable.size t1 /\
    hashtable.used t1 = hashtable.used t /\
    hashtable.get_new_index t1 = hashtable.get_new_index t /\
    hashtable.hash_key t1 = hashtable.hash_key t /\
    ((hashtable.over_load_factor t = false /\ t1 = t) \/
     (hashtable.over_load_factor t = true /\
      hashtable.size t1 = 2 * hashtable.size t /\
      no_dummy (hashtable.internal_list t1) /\
      (apart (entries_keys (hashtable.internal_list t)) ->
       Permutation (entries_items (hashtable.internal_list t1))
         (entries_items (hashtable.internal_list t))))).
Proof.
  intros (Hwf & Huu & Hne & Hus). pose proof (wf_size_pos t Hwf) as Hpos.
  unfold grow. destruct (hashtable.over_load_factor t) eqn:Eo.
  - rewrite over_load_factor_spec in Eo by exact Hpos. apply Z.ltb_lt in Eo.
    destruct (increment_size_total t Hwf ltac:(lia))
      as (fuel & t1 & Hi & Hwf1 & Hsz & Hu & Huu1 & Hgi & Hhk & Hn1 & Hnd & Hp).
    exists fuel, t1. split; [exact Hi|].
    pose proof (filled_le_nonempty (hashtable.internal_list t)).
    split; [|split; [lia|split; [exact Hu|split; [exact Hgi|split; [exact Hhk|]]]]].
    + split; [exact Hwf1|]. split; [exact Huu1|]. lia.
    + right. auto.
  - rewrite over_load_factor_spec in Eo by exact Hpos. apply Z.ltb_ge in Eo.
    exists 0%nat, t. split; [reflexivity|].
    split; [|split; [lia|split; [reflexivity|split; [reflexivity|split; [reflexivity|]]]]].
    + split; [exact Hwf|]. split; [exact Huu|]. lia.
    + left. split; reflexivity.
Qed.

Lemma placed_Inv t k v h m idx slot :
  Inv t -> hashtable.used t + 1 <= hashtable.size t -> hashable k = true ->
  found_at t k h false m idx slot ->
  Inv (placed t idx slot k v h m).
Proof.
  intros (Hwf & Huu & Hne & Hus) Hroom Hk Hf.
  split; [apply placed_wf; assumption|].
  split; [exact Huu|].
  destruct Hf as (_ & _ & Hs & _).
  rewrite (placed_nonempty t idx slot k v h m Hs).
  unfold placed. simpl. rewrite Huu, andb_true_r.
  destruct (state_cases slot) as [(Hd&_&He)|[(Hd&_&He)|(Hd&_&He)]];
    rewrite Hd, He; simpl; lia.
Qed.

(** [update] of a key that can be hashed returns: the table grows when it
    must, then the entry is placed in the slot the lookup finds. *)
Lemma update_total k v t :
  Inv t -> hashable k = true ->
  exists fuel t1 h m idx slot,
    grow fuel t = Done tt t1 /\
    get_hash fuel k = Some h /\ (m < fuel)%nat /\
    found_at t1 k h false m idx slot /\
    update (S fuel) k v t = Done tt (placed t1 idx slot k v h m) /\
    Inv (placed t1 idx slot k v h m).
Proof.
  intros HI Hk.
  destruct (grow_total t HI) as (f1 & t1 & Hg & HI1 & Hroom & _).
  assert (Hfree : nonempty (hashtable.internal_list t1) < hashtable.size t1).
  { destruct HI1 as (_ & _ & Hne & _). lia. }
  destruct HI1 as (Hwf1 & HI1').
  destruct (place_total k v t1 Hwf1 Hk Hfree) as (f2 & t' & Hp).
  destruct (place_inv f2 k v t1 t' Hwf1 Hp)
    as (h & m & idx & slot & _ & Hh & Hm & Hf & ->).
  exists (Nat.max f1 f2), t1, h, m, idx, slot.
  assert (Hg' : grow (Nat.max f1 f2) t = Done tt t1).
  { eapply grow_mono; [apply Nat.le_max_l|discriminate|exact Hg]. }
  split; [exact Hg'|].
  split; [eapply table_get_hash_mono; [apply Nat.le_max_r|exact Hh]|].
  split; [pose proof (Nat.le_max_r f1 f2); lia|].
  split; [exact Hf|]. split.
  - rewrite update_unfold, Hg'.
    pose proof (wf_size_pos t (proj1 HI)).
    destruct (hashtable.size t =? 0) eqn:E; [apply Z.eqb_eq in E; lia|].
    simpl. eapply place_mono; [apply Nat.le_max_r|discriminate|exact Hp].
  - apply placed_Inv; auto. split; assumption.
Qed.

(** *** The state an operation leaves, whether it returns or raises *)

Definition final_state {A} (r : outcome hashtable.HashTable A)
  : option hashtable.HashTable :=
  match r with
  | Done _ s => Some s
  | Raised _ s => Some s
  | Timeout => None
  end.

Lemma lookup_loop_final fuel : forall e i h skip t t',
  final_state (lookup_loop fuel e i h skip t) = Some t' ->
  exists m : nat, t' = bump t m.
Proof.
  induction fuel as [|fuel IH]; intros e i h skip t t' H; [discriminate|].
  rewrite lookup_loop_step in H.
  destruct (getitem (hashtable.internal_list t) i) as [slot|].
  - destruct (stops e slot skip).
    + injection H as <-. exists 0%nat. symmetry. apply bump_0.
    + apply IH in H. destruct H as [m ->]. exists (S m).
      apply bump_print_collision.
  - injection H as <-. exists 0%nat. symmetry. apply bump_0.
Qed.

Lemma lookup_key_final fuel k skip t t' :
  final_state (lookup_key fuel k skip t) = Some t' -> exists m : nat, t' = bump t m.
Proof.
  unfold hashtable.lookup_key.
  destruct (new_entry fuel k PyNone) as [e|]; [|discriminate].
  destruct (hashtable.hash_value e).
  - apply lookup_loop_final.
  - intros H. injection H as <-. exists 0%nat. symmetry. apply bump_0.
Qed.

Lemma final_state_bind {A B} (r : outcome hashtable.HashTable A)
    (k : A -> hashtable.HashTable -> outcome hashtable.HashTable B) t' :
  final_state (bind r k) = Some t' ->
  (exists e, r = Raised e t') \/
  (exists a s, r = Done a s /\ final_state (k a s) = Some t').
Proof.
  destruct r as [a s|e s|]; simpl; intros H.
  - right. eauto.
  - left. injection H as <-. eauto.
  - discriminate.
Qed.

Lemma wf_bump t m : wf t -> wf (bump t m).
Proof. intros H. exact H. Qed.

Lemma Inv_bump t m : Inv t -> Inv (bump t m).
Proof. intros H. exact H. Qed.

Lemma get_final fuel k t t' :
  final_state (get fuel k t) = Some t' -> exists m : nat, t' = bump t m.
Proof.
  unfold hashtable.get. intros H. apply final_state_bind in H.
  destruct H as [[e He]|(idx & s & Hl & H)].
  - apply (lookup_key_final fuel k true t). rewrite He. reflexivity.
  - assert (Hs : exists m : nat, s = bump t m)
      by (apply (lookup_key_final fuel k true t); rewrite Hl; reflexivity).
    destruct (getitem (hashtable.internal_list s) idx) as [slot|].
    + destruct (hashtable.is_filled slot); injection H as <-; exact Hs.
    + injection H as <-. exact Hs.
Qed.

Lemma set_dummy_state e :
  hashtable.is_dummy (hashtable.set_dummy e) = true /\
  hashtable.is_filled (hashtable.set_dummy e) = false /\
  hashtable.is_empty (hashtable.set_dummy e) = false.
Proof. repeat split. Qed.

Lemma setitem_inv {A} (l l' : list A) (i : Z) (x : A) :
  setitem l i x = Some l' ->
  exists j, norm_index l i = Some j /\ l' = replace_nth l j x.
Proof.
  unfold setitem. destruct (norm_index l i) as [j|]; [|discriminate].
  intros H. injection H as <-. eauto.
Qed.

Lemma remove_final fuel k t t' :
  final_state (remove fuel k t) = Some t' ->
  exists m : nat,
    t' = bump t m \/
    exists j slot,
      nth_error (hashtable.internal_list t) j = Some slot /\
      hashtable.is_filled slot = true /\
      t' = hashtable.with_list (bump t m)
             (replace_nth (hashtable.internal_list t) j (hashtable.set_dummy slot)).
Proof.
  unfold hashtable.remove. intros H. apply final_state_bind in H.
  destruct H as [[e He]|(idx & s & Hl & H)].
  - destruct (lookup_key_final fuel k true t t') as [m Hm];
      [rewrite He; reflexivity|]. exists m. auto.
  - destruct (lookup_key_final fuel k true t s) as [m ->];
      [rewrite Hl; reflexivity|]. exists m.
    change (hashtable.internal_list (bump t m))
      with (hashtable.internal_list t) in H.
    unfold getitem in H.
    destruct (norm_index (hashtable.internal_list t) idx) as [j|] eqn:Ej.
    + destruct (nth_error (hashtable.internal_list t) j) as [slot|] eqn:Es.
      * destruct (hashtable.is_filled slot) eqn:Ef.
        -- unfold setitem in H. rewrite Ej in H. injection H as <-.
           right. exists j, slot. auto.
        -- injection H as <-. auto.
      * injection H as <-. auto.
    + injection H as <-. auto.
Qed.

Lemma Inv_set_dummy t m j slot :
  Inv t -> nth_error (hashtable.internal_list t) j = Some slot ->
  hashtable.is_filled slot = true ->
  Inv (hashtable.with_list (bump t m)
         (replace_nth (hashtable.internal_list t) j (hashtable.set_dummy slot))).
Proof.
  intros ((Hn & Hlen & Hok) & Huu & Hne & Hus) Hs Hf.
  split; [split; [exact Hn|split]|split; [exact Huu|split; [|exact Hus]]].
  - cbn [hashtable.with_list hashtable.internal_list hashtable.size bump
         hashtable.with_collision_counter].
    rewrite replace_nth_length. exact Hlen.
  - cbn [hashtable.with_list hashtable.internal_list].
    apply Forall_replace_nth; [exact Hok|]. intros H. discriminate.
  - cbn [hashtable.with_list hashtable.internal_list hashtable.used bump
         hashtable.with_collision_counter].
    rewrite (nonempty_replace_nth _ j slot) by (auto; reflexivity).
    destruct (state_cases slot) as [(?&?&He)|[(?&?&He)|(?&?&He)]];
      try congruence; rewrite He; lia.
Qed.

Lemma get_Inv fuel k t t' :
  Inv t -> final_state (get fuel k t) = Some t' -> Inv t'.
Proof. intros HI H. apply get_final in H. destruct H as [m ->]. exact HI. Qed.

Lemma remove_Inv fuel k t t' :
  Inv t -> final_state (remove fuel k t) = Some t' -> Inv t'.
Proof.
  intros HI H. apply remove_final in H.
  destruct H as [m [->|(j & slot & Hs & Hf & ->)]]; [exact HI|].
  apply Inv_set_dummy; assumption.
Qed.

Lemma place_final fuel k v t t' :
  wf t -> final_state (place fuel k v t) = Some t' ->
  (exists m : nat, t' = bump t m) \/
  (exists h m idx slot,
     hashable k = true /\ found_at t k h false m idx slot /\
     place fuel k v t = Done tt (placed t idx slot k v h m) /\
     t' = placed t idx slot k v h m).
Proof.
  intros Hwf H.
  destruct (lookup_key fuel k false t) as [idx t2|e t2|] eqn:El.
  - right.
    destruct (lookup_key_inv fuel k false t idx t2 Hwf El)
      as (h & m & slot & Hk & Hh & Hm & Hf & ->).
    destruct Hwf as (_ & Hlen & _).
    pose proof (place_found fuel k v t h m idx slot Hlen Hk Hh Hm Hf) as Hp.
    rewrite Hp in H. injection H as <-.
    exists h, m, idx, slot. auto.
  - left. unfold place in H. rewrite El in H. simpl in H. injection H as <-.
    apply (lookup_key_final fuel k false t). rewrite El. reflexivity.
  - unfold place in H. rewrite El in H. discriminate.
Qed.

Lemma grow_final fuel t t' :
  Inv t -> final_state (grow fuel t) = Some t' ->
  grow fuel t = Done tt t' /\ Inv t' /\
  hashtable.used t' + 1 <= hashtable.size t' /\
  hashtable.used t' = hashtable.used t /\
  hashtable.get_new_index t' = hashtable.get_new_index t.
Proof.
  intros HI H.
  destruct (grow_total t HI) as (f1 & t1 & Hg & HI1 & Hroom & Hu & Hgi & _).
  assert (Hne : grow fuel t <> Timeout)
    by (destruct (grow fuel t); simpl in H; congruence).
  pose proof (grow_mono fuel (Nat.max fuel f1) t _ (Nat.le_max_l _ _) Hne eq_refl)
    as H1.
  pose proof (grow_mono f1 (Nat.max fuel f1) t (Done tt t1) (Nat.le_max_r _ _)
                ltac:(discriminate) Hg) as H2.
  rewrite H2 in H1. rewrite <- H1 in H. simpl in H. injection H as <-.
  auto.
Qed.

(** Every operation that returns or raises keeps the invariant. *)
Lemma update_Inv fuel k v t t' :
  Inv t -> final_state (update fuel k v t) = Some t' -> Inv t'.
Proof.
  intros HI H. destruct fuel as [|fuel]; [discriminate|].
  rewrite update_unfold in H.
  pose proof (wf_size_pos t (proj1 HI)).
  destruct (hashtable.size t =? 0) eqn:E; [apply Z.eqb_eq in E; lia|].
  apply final_state_bind in H. destruct H as [[e He]|([] & t1 & Hg & H)].
  - destruct (grow_final fuel t t' HI) as (Hd & _);
      [rewrite He; reflexivity|]. congruence.
  - destruct (grow_final fuel t t1 HI) as (_ & HI1 & Hroom & _);
      [rewrite Hg; reflexivity|].
    destruct (place_final fuel k v t1 t' (proj1 HI1) H)
      as [[m ->]|(h & m & idx & slot & Hk & Hf & _ & ->)].
    + exact HI1.
    + apply placed_Inv; assumption.
Qed.

(** *** The constructor *)

(** The table a successful constructor call returns. *)
Definition fresh (hk : option Z) (p : hashtable.probing) : hashtable.HashTable :=
  hashtable.mkTable 8 0 true (repeat hashtable.empty_entry 8) 0 hk p.

Definition strategy_of (collision_resolution : string) : option hashtable.probing :=
  if String.eqb collision_resolution "simple" then Some hashtable.simple
  else if String.eqb collision_resolution "modified" then Some hashtable.modified
  else if String.eqb collision_resolution "pythonic" then Some hashtable.pythonic
  else None.

Lemma init_eq hk cr :
  hashtable.init hk cr
  = match strategy_of cr with
    | Some p => inr (fresh hk p)
    | None => inl AssertionError
    end.
Proof.
  unfold hashtable.init, strategy_of.
  destruct (String.eqb cr "simple"); [reflexivity|].
  destruct (String.eqb cr "modified"); [reflexivity|].
  destruct (String.eqb cr "pythonic"); reflexivity.
Qed.

Lemma init_fresh hk cr t :
  hashtable.init hk cr = inr t -> exists p, t = fresh hk p.
Proof.
  rewrite init_eq. destruct (strategy_of cr) as [p|]; [|discriminate].
  intros H. injection H as <-. eauto.
Qed.

Lemma fresh_Inv hk p : Inv (fresh hk p).
Proof.
  split; [split; [exists 3%nat; reflexivity|split; [reflexivity|]]|].
  - apply (entry_ok_repeat_empty 8).
  - split; [reflexivity|].
    change (hashtable.internal_list (fresh hk p))
      with (repeat hashtable.empty_entry 8).
    rewrite (nonempty_repeat_empty 8). simpl. lia.
Qed.

(** *** Reachable tables *)

(** The tables a caller can hold: a constructed one, and the state any of
    [get], [remove], [update] leaves when it returns or raises. *)
Inductive reachable : hashtable.HashTable -> Prop :=
| reach_init hk cr t :
    hashtable.init hk cr = inr t -> reachable t
| reach_get fuel k t t' :
    reachable t -> final_state (get fuel k t) = Some t' -> reachable t'
| reach_remove fuel k t t' :
    reachable t -> final_state (remove fuel k t) = Some t' -> reachable t'
| reach_update fuel k v t t' :
    reachable t -> final_state (update fuel k v t) = Some t' -> reachable t'.

Lemma reachable_Inv t : reachable t -> Inv t.
Proof.
  induction 1 as [hk cr t H|fuel k t t' _ IH H|fuel k t t' _ IH H
                 |fuel k v t t' _ IH H].
  - apply init_fresh in H. destruct H as [p ->]. apply fresh_Inv.
  - eapply get_Inv; eauto.
  - eapply remove_Inv; eauto.
  - eapply update_Inv; eauto.
Qed.

Lemma load_ok_of_le (u s : Z) :
  0 < s -> u <= s -> (inject_Z u / inject_Z s <= hashtable.load_factor)%Q.
Proof.
  intros Hs Hu. apply Qle_bool_iff. unfold hashtable.load_factor.
  rewrite Qdiv_le_1 by exact Hs. apply Z.leb_le. exact Hu.
Qed.

(** C3: from a freshly constructed table, after any sequence of [get],
    [update] and [remove] calls, every [update] call that returns leaves
    [used / size <= load_factor]; and [update] does return for every key
    that can be hashed. *)
Theorem load_factor_after_update (t : hashtable.HashTable) :
  reachable t ->
  (forall fuel k v t',
     update fuel k v t = Done tt t' ->
     (inject_Z (hashtable.used t') / inject_Z (hashtable.size t')
      <= hashtable.load_factor)%Q) /\
  (forall k v, hashable k = true ->
     exists fuel t', update fuel k v t = Done tt t').
Proof.
  intros Hr. pose proof (reachable_Inv t Hr) as HI. split.
  - intros fuel k v t' H.
    assert (HI' : Inv t')
      by (apply (update_Inv fuel k v t t' HI); rewrite H; reflexivity).
    destruct HI' as (Hwf & _ & _ & Hus).
    apply load_ok_of_le; [apply wf_size_pos; exact Hwf|exact Hus].
  - intros k v Hk.
    destruct (update_total k v t HI Hk)
      as (fuel & t1 & h & m & idx & slot & _ & _ & _ & _ & Hu & _).
    eauto.
Qed.

(** *** [get] after [update] *)

Lemma get_found fuel k t h m idx slot :
  Z.of_nat (List.length (hashtable.internal_list t)) = hashtable.size t ->
  hashable k = true -> get_hash fuel k = Some h -> (m < fuel)%nat ->
  found_at t k h true m idx slot ->
  get fuel k t
  = Done (if hashtable.is_filled slot then hashtable.value slot else PyNone)
      (bump t m).
Proof.
  intros Hlen Hk Hh Hm Hf. unfold hashtable.get.
  rewrite (lookup_key_intro fuel k true t h m idx slot Hk Hh Hm Hf Hlen).
  destruct Hf as (_ & Hr & Hs & _). cbn [bind].
  change (hashtable.internal_list (bump t m)) with (hashtable.internal_list t).
  rewrite getitem_nth_error by lia. rewrite Hs.
  destruct (hashtable.is_filled slot); reflexivity.
Qed.

Lemma get_inv fuel k t r t' :
  wf t -> get fuel k t = Done r t' ->
  exists h m idx slot,
    hashable k = true /\ get_hash fuel k = Some h /\ (m < fuel)%nat /\
    found_at t k h true m idx slot /\
    r = (if hashtable.is_filled slot then hashtable.value slot else PyNone) /\
    t' = bump t m.
Proof.
  intros Hwf H.
  destruct (lookup_key fuel k true t) as [idx t2|e t2|] eqn:El;
    try (unfold hashtable.get in H; rewrite El in H; discriminate).
  destruct (lookup_key_inv fuel k true t idx t2 Hwf El)
    as (h & m & slot & Hk & Hh & Hm & Hf & ->).
  destruct Hwf as (_ & Hlen & _).
  rewrite (get_found fuel k t h m idx slot Hlen Hk Hh Hm Hf) in H.
  injection H as <- <-. exists h, m, idx, slot. auto 10.
Qed.

(** The slot [update] writes is the one [get] then reaches, for a key that
    is [==] to itself: the slots probed before it are filled with other keys,
    for both lookups. *)
Lemma found_after_place t k v h m idx slot :
  wf t -> key_eq k k = true -> found_at t k h false m idx slot ->
  found_at (placed t idx slot k v h m) k h true m idx
    (hashtable.mkEntry k v (Some h) false).
Proof.
  intros ([n Hn] & Hlen & _) Hkk (Hidx & Hr & Hs & Hstop & Hbefore).
  unfold found_at.
  change (hashtable.get_new_index (placed t idx slot k v h m))
    with (hashtable.get_new_index t).
  change (hashtable.size (placed t idx slot k v h m)) with (hashtable.size t).
  change (hashtable.internal_list (placed t idx slot k v h m))
    with (replace_nth (hashtable.internal_list t) (Z.to_nat idx)
            (hashtable.mkEntry k v (Some h) false)).
  split; [exact Hidx|]. split; [exact Hr|]. split.
  { apply nth_error_replace_nth_same. lia. }
  split.
  { unfold stops. simpl. apply (eq_probe_entry_intro k h); [exact Hkk|reflexivity]. }
  intros m' Hm'. specialize (Hbefore m' Hm').
  set (i' := fst (probe_at (hashtable.get_new_index t) (hashtable.size t) m'
                    (Z.land h (hashtable.size t - 1), h))) in *.
  assert (Hi' : 0 <= i' < hashtable.size t).
  { unfold i'. rewrite Hn. apply probe_at_range. apply start_index_range. }
  unfold slot_stops in *.
  rewrite getitem_nth_error in Hbefore by lia.
  rewrite getitem_nth_error by (rewrite replace_nth_length; lia).
  destruct (nth_error (hashtable.internal_list t) (Z.to_nat i')) as [s|] eqn:Es;
    [|discriminate].
  simpl in Hbefore. injection Hbefore as Hb.
  assert (Hne : Z.to_nat idx <> Z.to_nat i').
  { intros Heq. rewrite <- Heq in Es. rewrite Hs in Es. injection Es as <-.
    congruence. }
  rewrite nth_error_replace_nth_other by exact Hne. rewrite Es. simpl.
  f_equal. unfold stops in *.
  destruct (hashtable.is_dummy s); [discriminate|].
  destruct (hashtable.is_filled s); [exact Hb|discriminate].
Qed.

(** The value just written is the one [get] returns, for a key that is
    [==] to itself. *)
Lemma update_get k v t :
  Inv t -> hashable k = true -> key_eq k k = true ->
  exists fuel t1 t2,
    update fuel k v t = Done tt t1 /\ Inv t1 /\ get fuel k t1 = Done v t2.
Proof.
  intros HI Hk Hkk.
  destruct (update_total k v t HI Hk)
    as (fuel & t1 & h & m & idx & slot & Hg & Hh & Hm & Hf & Hu & HI').
  destruct (grow_final fuel t t1 HI) as (_ & HI1 & _);
    [rewrite Hg; reflexivity|].
  exists (S fuel), (placed t1 idx slot k v h m), (bump (placed t1 idx slot k v h m) m).
  split; [exact Hu|]. split; [exact HI'|].
  rewrite (get_found (S fuel) k _ h m idx (hashtable.mkEntry k v (Some h) false)).
  - reflexivity.
  - apply HI'.
  - exact Hk.
  - eapply table_get_hash_mono; [|exact Hh]. lia.
  - lia.
  - apply found_after_place; [apply HI1|exact Hkk|exact Hf].
Qed.

(** [get] of a key that is [==] to no stored key returns [None]. *)
Lemma get_absent fuel k t r t' :
  wf t -> equals_none k (hashtable.keys t) -> get fuel k t = Done r t' ->
  r = PyNone.
Proof.
  intros Hwf Habs H.
  destruct (get_inv fuel k t r t' Hwf H)
    as (h & m & idx & slot & _ & _ & _ & (_ & _ & Hs & Hstop & _) & -> & _).
  destruct (hashtable.is_filled slot) eqn:Ef; [|reflexivity].
  exfalso. rewrite keys_eq in Habs.
  unfold stops in Hstop.
  destruct (state_cases slot) as [(?&?&?)|[(Hd&_&_)|(?&?&?)]]; try congruence.
  rewrite Hd, Ef in Hstop.
  destruct (eq_probe_entry k h slot Hstop) as [Hk _].
  unfold equals_none in Habs. rewrite Forall_forall in Habs.
  rewrite (Habs (hashtable.key slot)) in Hk; [discriminate|].
  eapply in_entries_keys; eauto.
Qed.

Lemma get_total k t :
  wf t -> hashable k = true ->
  nonempty (hashtable.internal_list t) < hashtable.size t ->
  exists fuel r t', get fuel k t = Done r t'.
Proof.
  intros Hwf Hk Hfree.
  destruct (lookup_key_total k true t Hwf Hk Hfree) as (fuel & idx & t2 & Hl).
  destruct (lookup_key_inv fuel k true t idx t2 Hwf Hl)
    as (h & m & slot & _ & Hh & Hm & Hf & ->).
  exists fuel. eexists. eexists. apply (get_found fuel k t h m idx slot); auto.
  apply Hwf.
Qed.

(** As long as the table has an empty slot, [get] answers [None] both for
    a key stored with the value [None] and for a key that is not stored.
    After [update(k, None)] the call [get(k)] returns [None]; every [get] of
    a key [k'] that is [==] to no stored key and that returns, returns
    [None]; and such a [get] does return when [k'] can be hashed and the
    table has an empty slot. *)
Lemma get_none_with_empty_slot (t : hashtable.HashTable) (k k' : obj) :
  Inv t -> hashable k = true -> key_eq k k = true ->
  exists fuel t1 t2,
    update fuel k PyNone t = Done tt t1 /\
    get fuel k t1 = Done PyNone t2 /\
    (equals_none k' (hashtable.keys t1) ->
     (forall fuel' r t3, get fuel' k' t1 = Done r t3 -> r = PyNone) /\
     (hashable k' = true ->
      nonempty (hashtable.internal_list t1) < hashtable.size t1 ->
      exists fuel' t3, get fuel' k' t1 = Done PyNone t3)).
Proof.
  intros HI Hk Hkk.
  destruct (update_get k PyNone t HI Hk Hkk) as (fuel & t1 & t2 & Hu & HI1 & Hg).
  exists fuel, t1, t2. split; [exact Hu|]. split; [exact Hg|].
  intros Habs. split.
  - intros fuel' r t3 H. eapply get_absent; [apply HI1|exact Habs|exact H].
  - intros Hk' Hfree.
    destruct (get_total k' t1 (proj1 HI1) Hk' Hfree) as (fuel' & r & t3 & H).
    exists fuel', t3.
    rewrite (get_absent fuel' k' t1 r t3 (proj1 HI1) Habs H) in H. exact H.
Qed.

(** *** When [update] counts a slot *)

(** A table in the middle of the replay of [__increment_size]. *)
Definition in_replay (t : hashtable.HashTable) : Prop :=
  wf t /\ hashtable.update_used t = false /\
  hashtable.used t + 1 <= hashtable.size t.

(** C5: for a call [update(key, value)], made by a caller ([Inv]) or by the
    replay of a resize ([in_replay]): with [slot] the entry at the index the
    lookup with [skip_dummy=False] returns (in the table as the resize check
    leaves it), [used] grows by one exactly when [slot] is not a dummy and
    the call is not part of a replay, and is unchanged otherwise.  In
    particular a call that overwrites the filled slot of its own key counts
    it again. *)
Theorem update_counts_used fuel k v t t' :
  Inv t \/ in_replay t ->
  update fuel k v t = Done tt t' ->
  exists t1 m idx slot,
    grow (Nat.pred fuel) t = Done tt t1 /\
    hashtable.used t1 = hashtable.used t /\
    hashtable.update_used t1 = hashtable.update_used t /\
    lookup_key (Nat.pred fuel) k false t1 = Done idx (bump t1 m) /\
    getitem (hashtable.internal_list t1) idx = Some slot /\
    (hashtable.used t' = hashtable.used t + 1 <->
     hashtable.is_dummy slot = false /\ hashtable.update_used t = true) /\
    (hashtable.used t' = hashtable.used t \/
     hashtable.used t' = hashtable.used t + 1) /\
    (hashtable.is_filled slot = true -> hashtable.update_used t = true ->
     hashtable.used t' = hashtable.used t + 1).
Proof.
  intros Hst H. destruct fuel as [|fuel]; [discriminate|]. simpl Nat.pred.
  rewrite update_unfold in H.
  assert (Hwf : wf t) by (destruct Hst as [HI|HR]; [apply HI|apply HR]).
  pose proof (wf_size_pos t Hwf) as Hpos.
  destruct (hashtable.size t =? 0) eqn:E; [apply Z.eqb_eq in E; lia|].
  destruct (grow fuel t) as [[] t1|e t1|] eqn:Eg; try discriminate.
  simpl in H.
  assert (H1 : wf t1 /\ hashtable.used t1 = hashtable.used t /\
               hashtable.update_used t1 = hashtable.update_used t).
  { destruct Hst as [HI|(_ & Huu & Hroom)].
    - destruct (grow_final fuel t t1 HI) as (_ & HI1 & _ & Hu & _);
        [rewrite Eg; reflexivity|].
      split; [apply HI1|]. split; [exact Hu|].
      destruct HI as (_ & -> & _). apply HI1.
    - assert (Hover : hashtable.over_load_factor t = false).
      { rewrite over_load_factor_spec by exact Hpos. apply Z.ltb_ge. lia. }
      rewrite grow_not_over in Eg by exact Hover. injection Eg as <-. auto. }
  destruct H1 as (Hwf1 & Hu1 & Huu1).
  destruct (place_inv fuel k v t1 t' Hwf1 H)
    as (h & m & idx & slot & Hk & Hh & Hm & Hf & ->).
  exists t1, m, idx, slot.
  split; [reflexivity|]. split; [exact Hu1|]. split; [exact Huu1|].
  split; [apply (lookup_key_intro fuel k false t1 h m idx slot); auto; apply Hwf1|].
  destruct Hf as (_ & Hr & Hs & _).
  split.
  { rewrite getitem_nth_error by (destruct Hwf1 as (_ & Hlen & _); lia).
    exact Hs. }
  unfold placed. cbn [hashtable.used]. rewrite Huu1, Hu1.
  destruct (hashtable.is_dummy slot) eqn:Ed,
           (hashtable.update_used t) eqn:Euu; simpl;
    (split; [split; [intros; try lia; auto|intros [? ?]; try discriminate; lia]|]);
    (split; [lia|]); intros Hfil ?; try discriminate; try lia.
  destruct (state_cases slot) as [(?&?&?)|[(?&?&?)|(?&?&?)]]; congruence.
Qed.

(** *** Inserting keys that are not yet stored *)

Lemma grow_done_facts fuel t t1 :
  Inv t -> grow fuel t = Done tt t1 ->
  Inv t1 /\
  hashtable.used t1 + 1 <= hashtable.size t1 /\
  hashtable.used t1 = hashtable.used t /\
  hashtable.size t1
  = (if hashtable.size t <? hashtable.used t + 1
     then 2 * hashtable.size t else hashtable.size t) /\
  (no_dummy (hashtable.internal_list t) -> no_dummy (hashtable.internal_list t1)) /\
  (apart (entries_keys (hashtable.internal_list t)) ->
   Permutation (entries_items (hashtable.internal_list t1))
     (entries_items (hashtable.internal_list t))).
Proof.
  intros HI Hg.
  destruct (grow_total t HI) as (f1 & t1' & Hg' & HI1 & Hroom & Hu & _ & _ & Hcase).
  pose proof (grow_mono fuel (Nat.max fuel f1) t (Done tt t1) (Nat.le_max_l _ _)
                ltac:(discriminate) Hg) as H1.
  pose proof (grow_mono f1 (Nat.max fuel f1) t (Done tt t1') (Nat.le_max_r _ _)
                ltac:(discriminate) Hg') as H2.
  rewrite H2 in H1. injection H1 as ->.
  pose proof (wf_size_pos t (proj1 HI)) as Hpos.
  split; [exact HI1|]. split; [exact Hroom|]. split; [exact Hu|].
  rewrite <- over_load_factor_spec by exact Hpos.
  destruct Hcase as [[Ho ->]|(Ho & Hsz & Hnd & Hp)]; rewrite Ho.
  - split; [reflexivity|]. split; [auto|]. intros _. reflexivity.
  - split; [exact Hsz|]. split; [auto|]. exact Hp.
Qed.

Lemma update_fresh k v t :
  Inv t -> no_dummy (hashtable.internal_list t) ->
  apart (k :: entries_keys (hashtable.internal_list t)) ->
  hashable k = true ->
  exists fuel t1 t',
    grow fuel t = Done tt t1 /\
    update (S fuel) k v t = Done tt t' /\
    Inv t' /\ no_dummy (hashtable.internal_list t') /\
    apart (entries_keys (hashtable.internal_list t')) /\
    hashtable.used t' = hashtable.used t + 1 /\
    hashtable.size t' = hashtable.size t1 /\
    hashtable.size t1
    = (if hashtable.size t <? hashtable.used t + 1
       then 2 * hashtable.size t else hashtable.size t) /\
    Permutation (entries_items (hashtable.internal_list t1))
      (entries_items (hashtable.internal_list t)) /\
    Permutation (entries_items (hashtable.internal_list t'))
      ((k, v) :: entries_items (hashtable.internal_list t)).
Proof.
  intros HI Hnd Hap Hk.
  destruct (apart_cons_inv _ _ Hap) as [Hfresh Hdup].
  destruct (update_total k v t HI Hk)
    as (fuel & t1 & h & m & idx & slot & Hg & Hh & Hm & Hf & Hu & HI').
  destruct (grow_done_facts fuel t t1 HI Hg)
    as (HI1 & Hroom & Hu1 & Hsz & Hnd1 & Hp1).
  specialize (Hnd1 Hnd). specialize (Hp1 Hdup).
  assert (Hfresh1 : equals_none k (entries_keys (hashtable.internal_list t1))).
  { unfold equals_none. rewrite entries_keys_items.
    eapply Permutation_Forall;
      [apply Permutation_sym, (Permutation_map fst Hp1)|].
    rewrite <- entries_keys_items. exact Hfresh. }
  assert (Hempty : hashtable.is_empty slot = true)
    by (eapply fresh_target_empty; eauto).
  pose proof (placed_items_fresh t1 k v h m idx slot Hf Hempty) as Hp.
  assert (Hall : Permutation
                   (entries_items
                      (hashtable.internal_list (placed t1 idx slot k v h m)))
                   ((k, v) :: entries_items (hashtable.internal_list t))).
  { rewrite Hp. constructor. exact Hp1. }
  exists fuel, t1, (placed t1 idx slot k v h m).
  split; [exact Hg|]. split; [exact Hu|]. split; [exact HI'|].
  split; [apply placed_no_dummy; exact Hnd1|].
  split.
  { rewrite entries_keys_items.
    apply (apart_perm
             (map fst ((k, v) :: entries_items (hashtable.internal_list t))));
      [apply Permutation_sym, Permutation_map; exact Hall|].
    cbn [map fst]. rewrite <- entries_keys_items. exact Hap. }
  split.
  { unfold placed. cbn [hashtable.used].
    destruct HI1 as (_ & -> & _).
    destruct (state_cases slot) as [(?&?&?)|[(?&?&?)|(Hd&_&_)]]; try congruence.
    rewrite Hd. simpl. lia. }
  split; [reflexivity|]. split; [exact Hsz|]. split; [exact Hp1|].
  exact Hall.
Qed.

(** The size after [n] insertions of new keys, the first into a table of
    size [sz] with [u] counted slots. *)
Fixpoint size_after (sz u : Z) (n : nat) : Z :=
  match n with
  | O => sz
  | S n' => size_after (if sz <? u + 1 then 2 * sz else sz) (u + 1) n'
  end.

Lemma replay_fresh (kvs : list (obj * obj)) : forall t,
  Inv t -> no_dummy (hashtable.internal_list t) ->
  apart (entries_keys (hashtable.internal_list t) ++ map fst kvs) ->
  Forall (fun kv => hashable (fst kv) = true) kvs ->
  exists fuel t',
    hashtable.replay (update fuel) kvs t = Done tt t' /\
    Inv t' /\ no_dummy (hashtable.internal_list t') /\
    apart (entries_keys (hashtable.internal_list t')) /\
    hashtable.used t' = hashtable.used t + Z.of_nat (List.length kvs) /\
    hashtable.size t'
    = size_after (hashtable.size t) (hashtable.used t) (List.length kvs) /\
    Permutation (entries_items (hashtable.internal_list t'))
      (entries_items (hashtable.internal_list t) ++ kvs).
Proof.
  induction kvs as [|[k v] kvs IH]; intros t HI Hnd Hap Hks.
  - exists 0%nat, t. simpl. simpl in Hap. rewrite app_nil_r in Hap.
    split; [reflexivity|]. split; [exact HI|]. split; [exact Hnd|].
    split; [exact Hap|]. split; [lia|]. split; [reflexivity|].
    rewrite app_nil_r. reflexivity.
  - cbn [map fst] in Hap. apply apart_middle in Hap.
    inversion Hks as [|? ? Hk Hks']; subst. simpl in Hk.
    destruct (update_fresh k v t HI Hnd)
      as (f1 & t1 & t' & _ & Hu & HI' & Hnd' & Hdup' & Hus & Hsz & Hsz1 & _ & Hp);
      [|exact Hk|].
    { apply (apart_app_l _ (map fst kvs)). exact Hap. }
    destruct (IH t' HI' Hnd')
      as (f2 & t'' & Hr & HI'' & Hnd'' & Hdup'' & Hus'' & Hsz'' & Hp'');
      [|exact Hks'|].
    { apply (apart_perm (k :: entries_keys (hashtable.internal_list t)
                           ++ map fst kvs)); [|exact Hap].
      rewrite !entries_keys_items.
      change (k :: map fst (entries_items (hashtable.internal_list t))
                ++ map fst kvs)
        with (map fst ((k, v) :: entries_items (hashtable.internal_list t))
                ++ map fst kvs).
      apply Permutation_app_tail. apply Permutation_map.
      apply Permutation_sym. exact Hp. }
    exists (Nat.max (S f1) f2), t''. split.
    { cbn [hashtable.replay].
      rewrite (update_mono (S f1) (Nat.max (S f1) f2) k v t (Done tt t')
                 (Nat.le_max_l _ _) ltac:(discriminate) Hu).
      cbn [bind]. eapply replay_mono; [|discriminate|exact Hr].
      intros k0 v0 t0 r0 Hr0 H0.
      eapply update_mono; [apply Nat.le_max_r|exact Hr0|exact H0]. }
    split; [exact HI''|]. split; [exact Hnd''|]. split; [exact Hdup''|].
    split; [simpl List.length; lia|].
    split.
    { rewrite Hsz'', Hsz, Hsz1, Hus. reflexivity. }
    rewrite Hp'', Hp. simpl. apply Permutation_middle.
Qed.

(** *** The nine squares *)

(** The pairs [(i, i*i)] for [i] in [range(n)]. *)
Definition squares (n : nat) : list (obj * obj) :=
  map (fun i => (PyInt (Z.of_nat i), PyInt (Z.of_nat i * Z.of_nat i))) (seq 0 n).

Lemma squares_length n : List.length (squares n) = n.
Proof. unfold squares. rewrite length_map, length_seq. reflexivity. Qed.

Lemma squares_keys n : map fst (squares n) = map (fun i => PyInt (Z.of_nat i)) (seq 0 n).
Proof. unfold squares. rewrite map_map. reflexivity. Qed.

Lemma squares_keys_nodup n : NoDup (map fst (squares n)).
Proof.
  rewrite squares_keys. apply Finite.Injective_map_NoDup; [|apply seq_NoDup].
  intros a b H. injection H as H. lia.
Qed.

Lemma squares_keys_apart n : apart (map fst (squares n)).
Proof.
  apply apart_of_nodup; [|apply squares_keys_nodup].
  rewrite squares_keys. apply Forall_forall. intros k Hin.
  apply in_map_iff in Hin. destruct Hin as (i & <- & _). reflexivity.
Qed.

Lemma squares_hashable n : Forall (fun kv => hashable (fst kv) = true) (squares n).
Proof.
  apply Forall_forall. intros kv Hin. unfold squares in Hin.
  apply in_map_iff in Hin. destruct Hin as (i & <- & _). simpl.
  apply Z.leb_le. lia.
Qed.

Lemma squares_succ n :
  squares (S n)
  = squares n ++ [(PyInt (Z.of_nat n), PyInt (Z.of_nat n * Z.of_nat n))].
Proof. unfold squares. rewrite seq_S, map_app. reflexivity. Qed.

Lemma fresh_entries hk p : filled (hashtable.internal_list (fresh hk p)) = [].
Proof. apply (filled_repeat_empty 8). Qed.

Lemma squares_from_fresh (n : nat) hk p :
  exists fuel t,
    hashtable.replay (update fuel) (squares n) (fresh hk p) = Done tt t /\
    Inv t /\ no_dummy (hashtable.internal_list t) /\
    apart (entries_keys (hashtable.internal_list t)) /\
    hashtable.used t = Z.of_nat n /\
    hashtable.size t = size_after 8 0 n /\
    Permutation (hashtable.items t) (squares n).
Proof.
  destruct (replay_fresh (squares n) (fresh hk p))
    as (fuel & t & Hr & HI & Hnd & Hdup & Hu & Hsz & Hp).
  - apply fresh_Inv.
  - apply (no_dummy_repeat_empty 8).
  - unfold entries_keys. rewrite fresh_entries. apply squares_keys_apart.
  - apply squares_hashable.
  - exists fuel, t. rewrite squares_length in Hu, Hsz.
    split; [exact Hr|]. split; [exact HI|]. split; [exact Hnd|].
    split; [exact Hdup|]. split; [exact Hu|]. split; [exact Hsz|].
    rewrite items_eq, Hp. unfold entries_items. rewrite fresh_entries.
    reflexivity.
Qed.

(** C6: from a fresh table, the updates [(i, i*i)] for [i = 0..7] leave the
    size at 8 after each of them, with [used] equal to the number of updates
    made; the table is then over the load factor for one more insertion, and
    [update(8, 64)] first doubles the size to 16, keeping the items, and
    then places the entry: the size is 16, [used] is 9 and [items()] holds
    exactly the nine pairs. *)
Theorem nine_squares (hk : option Z) (cr : string) (t0 : hashtable.HashTable) :
  hashtable.init hk cr = inr t0 ->
  (forall n, (n <= 8)%nat ->
     exists fuel t,
       hashtable.replay (update fuel) (squares n) t0 = Done tt t /\
       hashtable.size t = 8 /\ hashtable.used t = Z.of_nat n /\
       Permutation (hashtable.items t) (squares n)) /\
  exists fuel t8 t8' t9,
    hashtable.replay (update fuel) (squares 8) t0 = Done tt t8 /\
    hashtable.size t8 = 8 /\ hashtable.used t8 = 8 /\
    hashtable.over_load_factor t8 = true /\
    grow fuel t8 = Done tt t8' /\
    hashtable.size t8' = 16 /\
    Permutation (hashtable.items t8') (hashtable.items t8) /\
    update (S fuel) (PyInt 8) (PyInt 64) t8 = Done tt t9 /\
    hashtable.size t9 = 16 /\ hashtable.used t9 = 9 /\
    Permutation (hashtable.items t9) (squares 9).
Proof.
  intros Hinit. apply init_fresh in Hinit. destruct Hinit as [p ->]. split.
  - intros n Hn.
    destruct (squares_from_fresh n hk p)
      as (fuel & t & Hr & _ & _ & _ & Hu & Hsz & Hp).
    exists fuel, t. split; [exact Hr|]. split; [|split; [exact Hu|exact Hp]].
    rewrite Hsz. do 9 (destruct n as [|n]; [reflexivity|]). lia.
  - destruct (squares_from_fresh 8 hk p)
      as (f1 & t8 & Hr & HI & Hnd & Hdup & Hu & Hsz & Hp).
    change (size_after 8 0 8) with 8 in Hsz. change (Z.of_nat 8) with 8 in Hu.
    assert (Hfresh : apart (PyInt 8 :: entries_keys (hashtable.internal_list t8))).
    { apply (apart_perm (map fst (squares 9))); [|apply squares_keys_apart].
      rewrite squares_succ, map_app. cbn [map fst].
      rewrite entries_keys_items, <- items_eq.
      apply Permutation_sym. apply Permutation_cons_app.
      rewrite app_nil_r. apply Permutation_map. exact Hp. }
    destruct (update_fresh (PyInt 8) (PyInt 64) t8 HI Hnd Hfresh eq_refl)
      as (f2 & t8' & t9 & Hg & Hup & _ & _ & _ & Hu9 & Hsz9 & Hsz8' & Hp8' & Hp9).
    rewrite Hsz, Hu in Hsz8'. change (if 8 <? 8 + 1 then 2 * 8 else 8) with 16 in Hsz8'.
    exists (Nat.max f1 f2), t8, t8', t9.
    split.
    { eapply replay_mono; [|discriminate|exact Hr].
      intros k0 v0 t0 r0 Hr0 H0.
      eapply update_mono; [apply Nat.le_max_l|exact Hr0|exact H0]. }
    split; [exact Hsz|]. split; [exact Hu|].
    split.
    { rewrite over_load_factor_spec by (rewrite Hsz; lia).
      rewrite Hsz, Hu. reflexivity. }
    split; [eapply grow_mono; [apply Nat.le_max_r|discriminate|exact Hg]|].
    split; [exact Hsz8'|].
    split; [rewrite !items_eq; exact Hp8'|].
    split.
    { eapply update_mono; [|discriminate|exact Hup].
      pose proof (Nat.le_max_r f1 f2). lia. }
    split; [congruence|]. split; [lia|].
    rewrite items_eq, Hp9, <- items_eq, Hp.
    change (squares 9) with (squares 8 ++ [(PyInt 8, PyInt 64)]).
    apply Permutation_cons_append.
Qed.

(** *** The probing rule never changes *)

Lemma replay_strategy
    (upd : obj -> obj -> hashtable.HashTable -> outcome hashtable.HashTable unit) :
  (forall k v t t', final_state (upd k v t) = Some t' ->
     hashtable.get_new_index t' = hashtable.get_new_index t) ->
  forall its t t', final_state (hashtable.replay upd its t) = Some t' ->
    hashtable.get_new_index t' = hashtable.get_new_index t.
Proof.
  intros Hupd its. induction its as [|[k v] its IH]; intros t t' H.
  - injection H as <-. reflexivity.
  - simpl in H. apply final_state_bind in H.
    destruct H as [[e He]|([] & s & Hs & H)].
    + apply (Hupd k v). rewrite He. reflexivity.
    + rewrite (IH s t' H). apply (Hupd k v). rewrite Hs. reflexivity.
Qed.

Lemma place_strategy fuel k v t t' :
  final_state (place fuel k v t) = Some t' ->
  hashtable.get_new_index t' = hashtable.get_new_index t.
Proof.
  unfold place. intros H. apply final_state_bind in H.
  destruct H as [[e He]|(idx & s & Hl & H)].
  - destruct (lookup_key_final fuel k false t t') as [m ->];
      [rewrite He; reflexivity|reflexivity].
  - destruct (lookup_key_final fuel k false t s) as [m ->];
      [rewrite Hl; reflexivity|].
    destruct (getitem _ idx) as [slot|]; [|injection H as <-; reflexivity].
    destruct (new_entry fuel k v) as [e|]; [|discriminate].
    destruct (negb (hashtable.is_dummy slot) && hashtable.update_used (bump t m));
      destruct (setitem _ idx e); injection H as <-; reflexivity.
Qed.

Lemma update_strategy fuel : forall k v t t',
  final_state (update fuel k v t) = Some t' ->
  hashtable.get_new_index t' = hashtable.get_new_index t.
Proof.
  induction fuel as [|fuel IH]; intros k v t t' H; [discriminate|].
  rewrite update_unfold in H.
  destruct (hashtable.size t =? 0); [injection H as <-; reflexivity|].
  assert (Hg : forall t1, final_state (grow fuel t) = Some t1 ->
                 hashtable.get_new_index t1 = hashtable.get_new_index t).
  { intros t1 Hg. unfold grow in Hg.
    destruct (hashtable.over_load_factor t); [|injection Hg as <-; reflexivity].
    unfold hashtable.increment_size in Hg. apply final_state_bind in Hg.
    destruct Hg as [[e He]|([] & s & Hs & Hg)].
    - apply (f_equal final_state) in He. simpl in He.
      exact (replay_strategy (update fuel) IH _ _ t1 He).
    - injection Hg as <-.
      apply (f_equal final_state) in Hs. simpl in Hs.
      exact (replay_strategy (update fuel) IH _ _ s Hs). }
  apply final_state_bind in H. destruct H as [[e He]|([] & s & Hs & H)].
  - apply Hg. rewrite He. reflexivity.
  - rewrite (place_strategy fuel k v s t' H). apply Hg. rewrite Hs. reflexivity.
Qed.

Lemma get_strategy fuel k t t' :
  final_state (get fuel k t) = Some t' ->
  hashtable.get_new_index t' = hashtable.get_new_index t.
Proof. intros H. apply get_final in H. destruct H as [m ->]. reflexivity. Qed.

Lemma remove_strategy fuel k t t' :
  final_state (remove fuel k t) = Some t' ->
  hashtable.get_new_index t' = hashtable.get_new_index t.
Proof.
  intros H. apply remove_final in H.
  destruct H as [m [->|(j & slot & _ & _ & ->)]]; reflexivity.
Qed.

(** C9: the constructor raises [AssertionError], and returns no table, for
    every [collision_resolution] other than ['simple'], ['modified'] and
    ['pythonic']; for each of these three it returns the fresh table bound
    to that probing rule; and no [get], [remove] or [update], returning or
    raising, changes the rule of a table. *)
Theorem probe_strategy_fixed_at_construction (hk : option Z) (cr : string) :
  (cr <> "simple"%string -> cr <> "modified"%string -> cr <> "pythonic"%string ->
   hashtable.init hk cr = inl AssertionError) /\
  hashtable.init hk "simple" = inr (fresh hk hashtable.simple) /\
  hashtable.init hk "modified" = inr (fresh hk hashtable.modified) /\
  hashtable.init hk "pythonic" = inr (fresh hk hashtable.pythonic) /\
  (forall p, hashtable.get_new_index (fresh hk p) = p) /\
  (forall fuel k t t', final_state (get fuel k t) = Some t' ->
     hashtable.get_new_index t' = hashtable.get_new_index t) /\
  (forall fuel k t t', final_state (remove fuel k t) = Some t' ->
     hashtable.get_new_index t' = hashtable.get_new_index t) /\
  (forall fuel k v t t', final_state (update fuel k v t) = Some t' ->
     hashtable.get_new_index t' = hashtable.get_new_index t).
Proof.
  split.
  { intros H1 H2 H3. rewrite init_eq. unfold strategy_of.
    apply String.eqb_neq in H1, H2, H3. rewrite H1, H2, H3. reflexivity. }
  split; [reflexivity|]. split; [reflexivity|]. split; [reflexivity|].
  split; [reflexivity|].
  split; [apply get_strategy|]. split; [apply remove_strategy|].
  intros fuel. apply update_strategy.
Qed.

(** *** Call sequences *)

Inductive op : Type :=
| Get (k : obj)
| Remove (k : obj)
| Update (k v : obj).

(** The calls made one after the other on one table; the result is the list
    of the values the [get] calls returned. *)
Fixpoint run (fuel : nat) (ops : list op) (self : hashtable.HashTable)
  : outcome hashtable.HashTable (list obj) :=
  match ops with
  | [] => Done [] self
  | Get k :: rest =>
      bind (get fuel k self) (fun r self =>
      bind (run fuel rest self) (fun rs self => Done (r :: rs) self))
  | Remove k :: rest =>
      bind (remove fuel k self) (fun _ self => run fuel rest self)
  | Update k v :: rest =>
      bind (update fuel k v self) (fun _ self => run fuel rest self)
  end.

(** *** Folding the hash into fewer bits *)

Lemma below_pow2_of_bits (x k : Z) :
  0 <= k -> 0 <= x -> (forall i, k <= i -> Z.testbit x i = false) -> x < 2 ^ k.
Proof.
  intros Hk Hx Hbits. destruct (Z.eq_dec x 0) as [->|Hne].
  - apply Z.pow_pos_nonneg; lia.
  - apply Z.log2_lt_pow2; [lia|].
    destruct (Z_lt_le_dec (Z.log2 x) k) as [H|H]; [exact H|].
    specialize (Hbits _ H). rewrite Z.bit_log2 in Hbits by lia. discriminate.
Qed.

Lemma lxor_below (a b k : Z) :
  0 <= k -> 0 <= a < 2 ^ k -> 0 <= b < 2 ^ k -> 0 <= Z.lxor a b < 2 ^ k.
Proof.
  intros Hk Ha Hb. split.
  - apply Z.lxor_nonneg. split; intros _; lia.
  - apply below_pow2_of_bits; [exact Hk| |].
    + apply Z.lxor_nonneg. split; intros _; lia.
    + intros i Hi. rewrite Z.lxor_spec.
      rewrite (testbit_above a k i), (testbit_above b k i) by lia. reflexivity.
Qed.

Lemma compress_hash_loop_range fuel c h r :
  0 <= c < 2 ^ Z.of_N hash_compress_bits -> 0 <= h ->
  compress_hash_loop fuel (Z.shiftl 1 (Z.of_N hash_compress_bits) - 1) c h = Some r ->
  0 <= r < 2 ^ Z.of_N hash_compress_bits.
Proof.
  revert c h. induction fuel as [|fuel IH]; intros c h Hc Hh H;
    simpl in H; destruct (h =? 0); try congruence.
  eapply IH; [| |exact H].
  - apply lxor_below; [lia|exact Hc|].
    rewrite Z.shiftl_1_l.
    change (2 ^ Z.of_N hash_compress_bits - 1)
      with (Z.pred (2 ^ Z.of_N hash_compress_bits)).
    rewrite <- Z.ones_equiv, Z.land_ones by lia.
    apply Z.mod_pos_bound. apply Z.pow_pos_nonneg; lia.
  - apply Z.shiftr_nonneg. exact Hh.
Qed.

Lemma compress_hash_loop_fold_word fuel c h r :
  0 <= c < 2 ^ 64 -> 0 <= h < 2 ^ 64 ->
  compress_hash_loop fuel (Z.shiftl 1 (Z.of_N hash_compress_bits) - 1) c h = Some r ->
  0 <= r < 2 ^ 64.
Proof.
  revert c h. induction fuel as [|fuel IH]; intros c h Hc Hh H;
    simpl in H; destruct (h =? 0); try congruence.
  eapply IH; [| |exact H].
  - apply lxor_below; [lia|exact Hc|]. split.
    + apply Z.land_nonneg. left. lia.
    + apply below_pow2_of_bits; [lia|apply Z.land_nonneg; left; lia|].
      intros i Hi. rewrite Z.land_spec, (testbit_above h 64 i) by lia.
      reflexivity.
  - rewrite Z.shiftr_div_pow2 by lia. split.
    + apply Z.div_pos; [lia|apply Z.pow_pos_nonneg; lia].
    + apply Z.div_lt_upper_bound; [apply Z.pow_pos_nonneg; lia|].
      assert (1 <= 2 ^ Z.of_N hash_compress_bits)
        by (pose proof (Z.pow_pos_nonneg 2 (Z.of_N hash_compress_bits)); lia).
      nia.
Qed.

(** X10: with a positive [hash_compress_bits], [__compress_hash] returns for
    every non-negative hash, its result fits in that many bits, and a hash
    that already fits is returned as it is. *)
Theorem compress_hash_fits_the_bits (h : Z) :
  (0 < hash_compress_bits)%N -> 0 <= h ->
  exists fuel c,
    compress_hash fuel h = Some c /\
    0 <= c < 2 ^ Z.of_N hash_compress_bits /\
    (h < 2 ^ Z.of_N hash_compress_bits -> c = h).
Proof.
  intros Hb Hh.
  destruct (compress_hash_loop_total (Z.to_nat h)
              (Z.shiftl 1 (Z.of_N hash_compress_bits) - 1) 0 h)
    as [c Hc]; [exact Hb|lia|].
  assert (Hpos : 0 < 2 ^ Z.of_N hash_compress_bits)
    by (apply Z.pow_pos_nonneg; lia).
  exists (S (Z.to_nat h)), c. split; [|split].
  - eapply compress_hash_loop_mono; [|exact Hc]. lia.
  - eapply compress_hash_loop_range; [| |exact Hc]; lia.
  - intros Hsmall.
    pose proof (compress_hash_loop_mono (Z.to_nat h) (S (S (Z.to_nat h)))
                  _ _ _ _ ltac:(lia) Hc) as H2.
    cbn [hashtable.compress_hash_loop] in H2.
    destruct (h =? 0) eqn:E; [apply Z.eqb_eq in E; congruence|].
    rewrite Z.shiftr_div_pow2, Z.div_small in H2 by lia.
    change (0 =? 0) with true in H2. cbv iota in H2. injection H2 as <-.
    rewrite Z.shiftl_1_l.
    change (2 ^ Z.of_N hash_compress_bits - 1)
      with (Z.pred (2 ^ Z.of_N hash_compress_bits)).
    rewrite <- Z.ones_equiv, Z.land_ones by lia.
    apply Z.mod_small. lia.
Qed.

Lemma default_secret_128 :
  (hashsecret_k0 < 2 ^ 64)%N -> (hashsecret_k1 < 2 ^ 64)%N ->
  0 <= siphash.secret_key siphash_ < 2 ^ 128.
Proof.
  intros H0 H1. split; [apply siphash_secret_nonneg|].
  simpl. unfold siphash.get_default_secret_key.
  rewrite Z.lor_comm, lor_shiftl_disjoint by lia.
  change (2 ^ 128) with (2 ^ 64 * 2 ^ 64).
  assert (Z.of_N hashsecret_k0 < 2 ^ 64) by lia.
  assert (Z.of_N hashsecret_k1 < 2 ^ 64) by lia. nia.
Qed.

(** X11: the hash an entry stores for its key is an unsigned 64-bit value,
    and fits in [hash_compress_bits] bits when that attribute is not 0 (the
    two words of the interpreter's hash secret being [c_uint64]). *)
Theorem entry_hash_range (fuel : nat) (k : obj) (h : Z) :
  (hashsecret_k0 < 2 ^ 64)%N -> (hashsecret_k1 < 2 ^ 64)%N ->
  get_hash fuel k = Some h ->
  0 <= h < 2 ^ 64 /\
  (hash_compress_bits <> 0%N -> h < 2 ^ Z.of_N hash_compress_bits).
Proof.
  intros H0 H1. unfold hashtable.get_hash.
  destruct (siphash.get_hash id fuel k siphash_) as [[h0 s0]|] eqn:E;
    [|discriminate].
  destruct (get_hash_pattern id fuel k siphash_ s0 h0
              (default_secret_128 H0 H1) E) as (p & Hr & Hp).
  cbn [siphash.allow_negative hashtable.siphash_ siphash.init] in Hp.
  subst p. unfold word64 in Hr.
  destruct (N.eqb_spec hash_compress_bits 0) as [Hz|Hnz]; simpl.
  - intros H. injection H as <-. split; [exact Hr|]. congruence.
  - intros H. unfold hashtable.compress_hash in H.
    assert (Hpos : 0 < 2 ^ Z.of_N hash_compress_bits)
      by (apply Z.pow_pos_nonneg; lia).
    pose proof (compress_hash_loop_range fuel 0 h0 h ltac:(lia) ltac:(lia) H)
      as Hc.
    split; [|intros _; lia]. split; [lia|].
    pose proof (compress_hash_loop_fold_word fuel 0 h0 h) as Hw.
    apply Hw; try assumption; lia.
Qed.

(** *** What [get] and [remove] leave untouched *)

(** X12: [get], whether it returns or raises, changes nothing in the table
    but [collision_counter], which it never lowers. *)
Theorem get_only_counts_collisions fuel k t t' :
  final_state (get fuel k t) = Some t' ->
  hashtable.internal_list t' = hashtable.internal_list t /\
  hashtable.size t' = hashtable.size t /\
  hashtable.used t' = hashtable.used t /\
  hashtable.update_used t' = hashtable.update_used t /\
  hashtable.hash_key t' = hashtable.hash_key t /\
  hashtable.get_new_index t' = hashtable.get_new_index t /\
  hashtable.collision_counter t <= hashtable.collision_counter t'.
Proof.
  intros H. apply get_final in H. destruct H as [m ->].
  repeat split. simpl. lia.
Qed.

Lemma entries_items_replace_by_unfilled l j slot e :
  nth_error l j = Some slot -> hashtable.is_filled slot = true ->
  hashtable.is_filled e = false ->
  exists l1 l2,
    entries_items l = l1 ++ (hashtable.key slot, hashtable.value slot) :: l2 /\
    entries_items (replace_nth l j e) = l1 ++ l2.
Proof.
  revert j. induction l as [|a l IH]; intros [|j] Hn Hs He; simpl in Hn;
    try discriminate.
  - injection Hn as ->. exists [], (entries_items l).
    unfold entries_items, filled. simpl. rewrite He, Hs. auto.
  - destruct (IH j Hn Hs He) as (l1 & l2 & H1 & H2).
    unfold entries_items, filled in *. simpl.
    destruct (hashtable.is_filled a); simpl.
    + exists ((hashtable.key a, hashtable.value a) :: l1), l2.
      rewrite H1, H2. auto.
    + exists l1, l2. auto.
Qed.

Lemma remove_found fuel k t h m idx slot :
  Z.of_nat (List.length (hashtable.internal_list t)) = hashtable.size t ->
  hashable k = true -> get_hash fuel k = Some h -> (m < fuel)%nat ->
  found_at t k h true m idx slot ->
  remove fuel k t
  = Done tt
      (if hashtable.is_filled slot
       then hashtable.with_list (bump t m)
              (replace_nth (hashtable.internal_list t) (Z.to_nat idx)
                 (hashtable.set_dummy slot))
       else bump t m).
Proof.
  intros Hlen Hk Hh Hm Hf. unfold hashtable.remove.
  rewrite (lookup_key_intro fuel k true t h m idx slot Hk Hh Hm Hf Hlen).
  destruct Hf as (_ & Hr & Hs & _). cbn [bind].
  change (hashtable.internal_list (bump t m)) with (hashtable.internal_list t).
  rewrite getitem_nth_error by lia. rewrite Hs.
  destruct (hashtable.is_filled slot); [|reflexivity].
  rewrite setitem_in_range by lia. reflexivity.
Qed.

Lemma remove_inv fuel k t t' :
  wf t -> remove fuel k t = Done tt t' ->
  exists h m idx slot,
    hashable k = true /\ get_hash fuel k = Some h /\ (m < fuel)%nat /\
    found_at t k h true m idx slot /\
    t' = (if hashtable.is_filled slot
          then hashtable.with_list (bump t m)
                 (replace_nth (hashtable.internal_list t) (Z.to_nat idx)
                    (hashtable.set_dummy slot))
          else bump t m).
Proof.
  intros Hwf H.
  destruct (lookup_key fuel k true t) as [idx t2|e t2|] eqn:El;
    try (unfold hashtable.remove in H; rewrite El in H; discriminate).
  destruct (lookup_key_inv fuel k true t idx t2 Hwf El)
    as (h & m & slot & Hk & Hh & Hm & Hf & ->).
  destruct Hwf as (_ & Hlen & _).
  rewrite (remove_found fuel k t h m idx slot Hlen Hk Hh Hm Hf) in H.
  injection H as <-. exists h, m, idx, slot. auto 10.
Qed.

Lemma found_true_filled t k h m idx slot :
  found_at t k h true m idx slot -> hashtable.is_filled slot = true ->
  key_eq k (hashtable.key slot) = true /\ hashtable.hash_value slot = Some h.
Proof.
  intros (_ & _ & _ & Hstop & _) Hf. unfold stops in Hstop.
  destruct (state_cases slot) as [(?&?&?)|[(Hd&_&_)|(?&?&?)]]; try congruence.
  rewrite Hd, Hf in Hstop. apply eq_probe_entry. exact Hstop.
Qed.

(** X13: a [remove] that returns never changes [used], the size or the number
    of occupied slots (the slot stays, as a dummy).  It takes at most one
    pair, with a key that the given key is [==] to, out of [items()], and it
    leaves the slot list as it is when the key is [==] to no stored key. *)
Theorem remove_marks_one_slot fuel k t t' :
  wf t -> remove fuel k t = Done tt t' ->
  hashtable.used t' = hashtable.used t /\
  hashtable.size t' = hashtable.size t /\
  nonempty (hashtable.internal_list t') = nonempty (hashtable.internal_list t) /\
  (hashtable.items t' = hashtable.items t \/
   exists l1 k' v l2,
     key_eq k k' = true /\
     hashtable.items t = l1 ++ (k', v) :: l2 /\
     hashtable.items t' = l1 ++ l2) /\
  (equals_none k (hashtable.keys t) ->
   hashtable.internal_list t' = hashtable.internal_list t).
Proof.
  intros Hwf H.
  destruct (remove_inv fuel k t t' Hwf H)
    as (h & m & idx & slot & _ & _ & _ & Hf & ->).
  pose proof Hf as (_ & _ & Hs & _).
  destruct (hashtable.is_filled slot) eqn:Efil.
  - destruct (found_true_filled t k h m idx slot Hf Efil) as [Hkey _].
    split; [reflexivity|]. split; [reflexivity|]. split.
    { cbn [hashtable.with_list hashtable.internal_list].
      rewrite (nonempty_replace_nth _ _ slot) by (auto; reflexivity).
      destruct (state_cases slot) as [(?&?&?)|[(?&?&He)|(?&?&?)]];
        try congruence. rewrite He. lia. }
    split.
    { right. rewrite !items_eq.
      cbn [hashtable.with_list hashtable.internal_list].
      destruct (entries_items_replace_by_unfilled _ _ slot
                  (hashtable.set_dummy slot) Hs Efil eq_refl)
        as (l1 & l2 & H1 & H2).
      exists l1, (hashtable.key slot), (hashtable.value slot), l2. auto. }
    intros Habs. exfalso. rewrite keys_eq in Habs.
    unfold equals_none in Habs. rewrite Forall_forall in Habs.
    rewrite (Habs (hashtable.key slot)) in Hkey; [discriminate|].
    eapply in_entries_keys; eauto.
  - split; [reflexivity|]. split; [reflexivity|]. split; [reflexivity|].
    split; [left; reflexivity|]. intros _. reflexivity.
Qed.

(** *** The key [None] *)

(** X14: [None] is no key.  [get] and [remove] raise [TypeError] at once and
    leave the table as it was; [update] raises it after the resize check, so
    that it leaves the table grown when the check had called for a resize. *)
Theorem none_key_raises_type_error fuel v t t1 :
  get fuel PyNone t = Raised TypeError t /\
  remove fuel PyNone t = Raised TypeError t /\
  (hashtable.size t <> 0 -> grow fuel t = Done tt t1 ->
   update (S fuel) PyNone v t = Raised TypeError t1).
Proof.
  split; [reflexivity|]. split; [reflexivity|].
  intros Hs Hg. rewrite update_unfold, Hg.
  destruct (hashtable.size t =? 0) eqn:E; [apply Z.eqb_eq in E; contradiction|].
  reflexivity.
Qed.

(** *** A table without an empty slot *)

Lemma lookup_loop_no_stop fuel : forall e i h t,
  (exists n : nat, hashtable.size t = 2 ^ Z.of_nat n) ->
  Z.of_nat (List.length (hashtable.internal_list t)) = hashtable.size t ->
  0 <= i < hashtable.size t ->
  (forall slot, In slot (hashtable.internal_list t) -> stops e slot true = false) ->
  lookup_loop fuel e i h true t = Timeout.
Proof.
  induction fuel as [|fuel IH]; intros e i h t Hn Hlen Hi Hall; [reflexivity|].
  rewrite lookup_loop_step.
  destruct (getitem_some (hashtable.internal_list t) i ltac:(lia)) as [slot Hs].
  rewrite Hs.
  assert (Hin : In slot (hashtable.internal_list t)).
  { rewrite getitem_nth_error in Hs by lia. eapply nth_error_In. exact Hs. }
  rewrite (Hall slot Hin). apply IH; auto.
  destruct Hn as [n Hn].
  change (hashtable.size (hashtable.print_collision t)) with (hashtable.size t).
  rewrite Hn. apply next_index_range.
Qed.

(** The lookup that skips dummies does not return when no slot is empty and
    the key is [==] to no stored key. *)
Lemma lookup_key_no_empty_slot fuel k t :
  wf t ->
  nonempty (hashtable.internal_list t) = hashtable.size t ->
  k <> PyNone -> equals_none k (hashtable.keys t) ->
  lookup_key fuel k true t = Timeout.
Proof.
  intros (Hn & Hlen & Hok) Hfull Hk Habs.
  unfold hashtable.lookup_key.
    destruct (new_entry fuel k PyNone) as [e|] eqn:E; [|reflexivity].
    destruct (hashtable.hash_value e) as [h|] eqn:Eh.
    - destruct (new_entry_hashed fuel k PyNone e h E Eh) as (_ & _ & ->).
      apply lookup_loop_no_stop; auto.
      + destruct Hn as [n Hn]. rewrite Hn. apply start_index_range.
      + intros slot Hin. unfold stops.
        destruct (state_cases slot) as [(Hd&Hf&He)|[(Hd&Hf&He)|(Hd&Hf&He)]];
          rewrite Hd; [reflexivity| |].
        * rewrite Hf.
          destruct (entry_eq (hashtable.mkEntry k PyNone (Some h) false) slot)
            eqn:Eeq; [|reflexivity].
          exfalso. rewrite keys_eq in Habs.
          destruct (eq_probe_entry k h slot Eeq) as [Hkey _].
          unfold equals_none in Habs. rewrite Forall_forall in Habs.
          rewrite (Habs (hashtable.key slot)) in Hkey; [discriminate|].
          unfold entries_keys, filled. apply in_map. apply filter_In. auto.
        * exfalso.
          assert (nonempty (hashtable.internal_list t)
                  < Z.of_nat (List.length (hashtable.internal_list t))); [|lia].
          clear - Hin He. induction (hashtable.internal_list t) as [|a l IH];
            [contradiction|].
          rewrite nonempty_cons. simpl List.length.
          pose proof (nonempty_le_length l).
          destruct Hin as [->|Hin].
          -- rewrite He. lia.
          -- specialize (IH Hin). destruct (hashtable.is_empty a); lia.
    - unfold hashtable.new_entry in E. destruct k; try contradiction;
        destruct (get_hash fuel _); try discriminate;
        injection E as <-; discriminate.
Qed.

(** X15: in a table where every slot is filled or dummy, [get] and [remove]
    of a key that is [==] to no stored key never return: the probe loop
    finds no empty slot to stop at. *)
Theorem lookup_in_full_table_never_returns fuel k t :
  wf t ->
  nonempty (hashtable.internal_list t) = hashtable.size t ->
  k <> PyNone -> equals_none k (hashtable.keys t) ->
  get fuel k t = Timeout /\ remove fuel k t = Timeout.
Proof.
  intros Hwf Hfull Hk Habs.
  pose proof (lookup_key_no_empty_slot fuel k t Hwf Hfull Hk Habs) as Hl.
  unfold hashtable.get, hashtable.remove. rewrite Hl. split; reflexivity.
Qed.

(** *** The probing rules *)

(** The index and hash after [m] calls of the table's [__get_new_index]. *)
Fixpoint probes (t : hashtable.HashTable) (m : nat) (x : Z * Z) : Z * Z :=
  match m with
  | O => x
  | S m' => probes t m' (hashtable.call_get_new_index t (fst x) (snd x))
  end.

Lemma probes_eq t m x :
  probes t m x = probe_at (hashtable.get_new_index t) (hashtable.size t) m x.
Proof.
  revert x. induction m as [|m IH]; intros x; [reflexivity|].
  simpl. rewrite call_get_new_index_eq. apply IH.
Qed.

(** X16: in a table whose size is a power of two, each of the three probing
    rules, started at any index of the table with any non-negative hash,
    stays inside the table and comes to every slot. *)
Theorem probing_reaches_every_slot (t : hashtable.HashTable) (n : nat) (i h j : Z) :
  hashtable.size t = 2 ^ Z.of_nat n ->
  0 <= i < hashtable.size t -> 0 <= h -> 0 <= j < hashtable.size t ->
  (forall m, 0 <= fst (probes t m (i, h)) < hashtable.size t) /\
  exists m, fst (probes t m (i, h)) = j.
Proof.
  intros Hn Hi Hh Hj. rewrite Hn in *. split.
  - intros m. rewrite probes_eq, Hn. apply probe_at_range. exact Hi.
  - destruct (probe_reaches (hashtable.get_new_index t) n i h j Hi Hh Hj)
      as [m Hm].
    exists m. rewrite probes_eq, Hn. exact Hm.
Qed.

(** *** Round trip *)

(** X17: on a reachable table, [update(k, v)] of a key that can be hashed
    and that is [==] to itself (every [int] and [str] is; [float('nan')] is
    not) returns, the pair is then among [items()], and a [get(k)] made next
    returns [v]. *)
Theorem get_after_update_returns_value k v t :
  reachable t -> hashable k = true -> key_eq k k = true ->
  exists fuel t1 t2,
    update fuel k v t = Done tt t1 /\
    In (k, v) (hashtable.items t1) /\
    get fuel k t1 = Done v t2.
Proof.
  intros Hr Hk Hkk. pose proof (reachable_Inv t Hr) as HI.
  destruct (update_total k v t HI Hk)
    as (fuel & t1 & h & m & idx & slot & Hg & Hh & Hm & Hf & Hu & HI').
  destruct (grow_final fuel t t1 HI) as (_ & HI1 & _);
    [rewrite Hg; reflexivity|].
  pose proof (found_after_place t1 k v h m idx slot (proj1 HI1) Hkk Hf) as Hf'.
  exists (S fuel), (placed t1 idx slot k v h m),
    (bump (placed t1 idx slot k v h m) m).
  split; [exact Hu|]. split.
  - rewrite items_eq.
    pose proof Hf' as (_ & _ & Hs & _).
    unfold entries_items, filled. apply in_map_iff.
    exists (hashtable.mkEntry k v (Some h) false). split; [reflexivity|].
    apply filter_In.
    split; [eapply nth_error_In; exact Hs|reflexivity].
  - rewrite (get_found (S fuel) k _ h m idx (hashtable.mkEntry k v (Some h) false)).
    + reflexivity.
    + apply HI'.
    + exact Hk.
    + eapply table_get_hash_mono; [|exact Hh]. lia.
    + lia.
    + exact Hf'.
Qed.

(** *** Resizing *)

(** X18: on a table that satisfies the invariant and in which no two stored
    keys are [==], [__increment_size] returns; it doubles the size, keeps
    [used] and the pairs of [items()], drops every dummy, and leaves
    [update_used] set. *)
Theorem resize_keeps_distinct_keys t :
  Inv t -> apart (hashtable.keys t) ->
  exists fuel t',
    hashtable.increment_size (update fuel) t = Done tt t' /\
    hashtable.size t' = 2 * hashtable.size t /\
    hashtable.used t' = hashtable.used t /\
    hashtable.update_used t' = true /\
    Permutation (hashtable.items t') (hashtable.items t) /\
    Forall (fun e => hashtable.is_dummy e = false) (hashtable.internal_list t') /\
    nonempty (hashtable.internal_list t') = Z.of_nat (List.length (hashtable.items t)).
Proof.
  intros (Hwf & Huu & Hne & Hus) Hdup. rewrite keys_eq in Hdup.
  pose proof (wf_size_pos t Hwf).
  destruct (increment_size_total t Hwf ltac:(lia))
    as (fuel & t' & Hi & Hwf' & Hsz & Hu & Huu' & _ & _ & Hn & Hnd & Hp).
  specialize (Hp Hdup).
  exists fuel, t'. split; [exact Hi|]. split; [exact Hsz|]. split; [exact Hu|].
  split; [exact Huu'|]. split; [rewrite !items_eq; exact Hp|].
  split; [exact Hnd|].
  rewrite items_eq.
  pose proof (filled_le_nonempty (hashtable.internal_list t')) as Hge.
  pose proof (Permutation_length Hp) as Hlen.
  unfold entries_items in *. rewrite !length_map in *. lia.
Qed.

(** *** Sizes and counts of a reachable table *)

Lemma update_size_grows fuel k v t t' :
  Inv t -> final_state (update fuel k v t) = Some t' ->
  hashtable.size t <= hashtable.size t'.
Proof.
  intros HI H. destruct fuel as [|fuel]; [discriminate|].
  rewrite update_unfold in H.
  pose proof (wf_size_pos t (proj1 HI)).
  destruct (hashtable.size t =? 0) eqn:E; [apply Z.eqb_eq in E; lia|].
  assert (Hg : forall t1, grow fuel t = Done tt t1 ->
                          hashtable.size t <= hashtable.size t1).
  { intros t1 Hg. destruct (grow_done_facts fuel t t1 HI Hg)
      as (_ & _ & _ & Hsz & _).
    rewrite Hsz. destruct (_ <? _); lia. }
  apply final_state_bind in H. destruct H as [[e He]|([] & t1 & Hg1 & H)].
  - destruct (grow_final fuel t t' HI) as (Hd & _);
      [rewrite He; reflexivity|]. congruence.
  - specialize (Hg t1 Hg1).
    destruct (grow_final fuel t t1 HI) as (_ & HI1 & _);
      [rewrite Hg1; reflexivity|].
    destruct (place_final fuel k v t1 t' (proj1 HI1) H)
      as [[m ->]|(h & m & idx & slot & _ & _ & _ & ->)]; exact Hg.
Qed.

Lemma reachable_size_ge_8 t : reachable t -> 8 <= hashtable.size t.
Proof.
  induction 1 as [hk cr t H|fuel k t t' Hr IH H|fuel k t t' Hr IH H
                 |fuel k v t t' Hr IH H].
  - apply init_fresh in H. destruct H as [p ->]. simpl. lia.
  - apply get_final in H. destruct H as [m ->]. exact IH.
  - apply remove_final in H.
    destruct H as [m [->|(j & slot & _ & _ & ->)]]; exact IH.
  - pose proof (update_size_grows fuel k v t t' (reachable_Inv t Hr) H). lia.
Qed.

(** X19: every table reachable from the constructor has a size of the form
    [8 * 2^j] with as many slots, at most [used] occupied slots, [used] at
    most the size, and [keys()], [values()] and [items()] of one length, at
    most [used]; and no [update] makes the size smaller. *)
Theorem reachable_table_shape t :
  reachable t ->
  (exists j : nat, hashtable.size t = 8 * 2 ^ Z.of_nat j) /\
  Z.of_nat (List.length (hashtable.internal_list t)) = hashtable.size t /\
  List.length (hashtable.keys t) = List.length (hashtable.items t) /\
  List.length (hashtable.values t) = List.length (hashtable.items t) /\
  Z.of_nat (List.length (hashtable.items t))
    <= nonempty (hashtable.internal_list t) /\
  nonempty (hashtable.internal_list t) <= hashtable.used t /\
  hashtable.used t <= hashtable.size t /\
  (forall fuel k v t', final_state (update fuel k v t) = Some t' ->
     hashtable.size t <= hashtable.size t').
Proof.
  intros Hr. pose proof (reachable_Inv t Hr) as HI.
  pose proof (reachable_size_ge_8 t Hr) as H8.
  destruct HI as (([n Hn] & Hlen & Hok) & Huu & Hne & Hus).
  split.
  { assert (3 <= n)%nat.
    { destruct (Nat.le_gt_cases 3 n) as [H|H]; [exact H|].
      assert (2 ^ Z.of_nat n <= 2 ^ 2) by (apply Z.pow_le_mono_r; lia).
      change (2 ^ 2) with 4 in *. lia. }
    exists (n - 3)%nat. rewrite Hn.
    replace (Z.of_nat n) with (3 + Z.of_nat (n - 3)) at 1 by lia.
    rewrite Z.pow_add_r by lia. reflexivity. }
  split; [exact Hlen|].
  unfold hashtable.keys, hashtable.values. rewrite items_eq.
  unfold hashtable.get_items. rewrite get_items_of_eq. cbn [fst snd].
  unfold entries_items. rewrite !length_map.
  split; [reflexivity|]. split; [reflexivity|].
  split; [apply filled_le_nonempty|]. split; [exact Hne|]. split; [exact Hus|].
  intros fuel k v t' H. eapply update_size_grows; [|exact H].
  exact (reachable_Inv t Hr).
Qed.

(** *** Probe chains

    A filled entry lies on the probe sequence of its key, it stores the hash
    of its key, and every slot probed before it is occupied. *)

Definition entry_chain (t : hashtable.HashTable) (j : nat)
    (e : hashtable.HashTableEntry) : Prop :=
  exists (h : Z) (m : nat),
    hashtable.hash_value e = Some h /\
    hashable (hashtable.key e) = true /\
    (exists fuel, get_hash fuel (hashtable.key e) = Some h) /\
    Z.of_nat j
    = fst (probe_at (hashtable.get_new_index t) (hashtable.size t) m
             (Z.land h (hashtable.size t - 1), h)) /\
    forall m', (m' < m)%nat ->
      exists s,
        nth_error (hashtable.internal_list t)
          (Z.to_nat (fst (probe_at (hashtable.get_new_index t) (hashtable.size t)
                            m' (Z.land h (hashtable.size t - 1), h))))
        = Some s /\
        hashtable.is_empty s = false.

Definition chain_ok (t : hashtable.HashTable) : Prop :=
  forall j e,
    nth_error (hashtable.internal_list t) j = Some e ->
    hashtable.is_filled e = true -> entry_chain t j e.

Lemma nth_error_replace_nth_occupied (l : list hashtable.HashTableEntry)
    (j i : nat) (x s : hashtable.HashTableEntry) :
  nth_error l i = Some s -> hashtable.is_empty s = false ->
  hashtable.is_empty x = false ->
  exists s', nth_error (replace_nth l j x) i = Some s' /\
             hashtable.is_empty s' = false.
Proof.
  intros Hs He Hx. destruct (Nat.eq_dec j i) as [->|Hne].
  - exists x. split; [|exact Hx]. apply nth_error_replace_nth_same.
    apply nth_error_Some. congruence.
  - exists s. rewrite nth_error_replace_nth_other by exact Hne. auto.
Qed.

Lemma chain_ok_replace t t' j x :
  chain_ok t -> hashtable.is_empty x = false ->
  (hashtable.is_filled x = true -> entry_chain t j x) ->
  hashtable.internal_list t' = replace_nth (hashtable.internal_list t) j x ->
  hashtable.size t' = hashtable.size t ->
  hashtable.get_new_index t' = hashtable.get_new_index t ->
  chain_ok t'.
Proof.
  intros Hc Hx Hnew Hl Hsz Hgi i e Hi Hf.
  rewrite Hl in Hi.
  assert (Hch : entry_chain t i e).
  { destruct (Nat.eq_dec j i) as [->|Hne].
    - assert (Hlt : (i < List.length (hashtable.internal_list t))%nat).
      { rewrite <- (replace_nth_length _ i x). apply nth_error_Some. congruence. }
      rewrite nth_error_replace_nth_same in Hi by exact Hlt.
      injection Hi as <-. apply Hnew. exact Hf.
    - rewrite nth_error_replace_nth_other in Hi by exact Hne.
      apply Hc; assumption. }
  destruct Hch as (h & m & Hh & Hk & Hg & Hpos & Hbefore).
  exists h, m. rewrite Hl, Hsz, Hgi.
  split; [exact Hh|]. split; [exact Hk|]. split; [exact Hg|].
  split; [exact Hpos|].
  intros m' Hm'. destruct (Hbefore m' Hm') as (s & Hs & He).
  eapply nth_error_replace_nth_occupied; eauto.
Qed.

Lemma placed_chain fuel t k v h m idx slot :
  wf t -> chain_ok t -> hashable k = true -> get_hash fuel k = Some h ->
  found_at t k h false m idx slot ->
  chain_ok (placed t idx slot k v h m).
Proof.
  intros Hwf Hc Hk Hh Hf.
  apply (chain_ok_replace t _ (Z.to_nat idx)
           (hashtable.mkEntry k v (Some h) false) Hc eq_refl);
    [|reflexivity|reflexivity|reflexivity].
  intros _. destruct Hf as (Hidx & Hr & Hs & Hstop & Hbefore).
  destruct Hwf as ([n Hn] & Hlen & _).
  exists h, m. cbn [hashtable.hash_value hashtable.key].
  split; [reflexivity|]. split; [exact Hk|]. split; [eauto|].
  split; [rewrite <- Hidx; lia|].
  intros m' Hm'. specialize (Hbefore m' Hm').
  set (i' := fst (probe_at (hashtable.get_new_index t) (hashtable.size t) m'
                    (Z.land h (hashtable.size t - 1), h))) in *.
  assert (Hi' : 0 <= i' < hashtable.size t).
  { unfold i'. rewrite Hn. apply probe_at_range. apply start_index_range. }
  unfold slot_stops in Hbefore. rewrite getitem_nth_error in Hbefore by lia.
  destruct (nth_error (hashtable.internal_list t) (Z.to_nat i')) as [s|];
    [|discriminate].
  exists s. split; [reflexivity|].
  simpl in Hbefore. injection Hbefore as Hb.
  destruct (hashtable.is_empty s) eqn:E; [|reflexivity].
  rewrite empty_stops in Hb by exact E. discriminate.
Qed.

Lemma set_dummy_chain t m j slot :
  chain_ok t -> nth_error (hashtable.internal_list t) j = Some slot ->
  chain_ok (hashtable.with_list (bump t m)
              (replace_nth (hashtable.internal_list t) j (hashtable.set_dummy slot))).
Proof.
  intros Hc Hs.
  apply (chain_ok_replace t _ j (hashtable.set_dummy slot) Hc eq_refl);
    [|reflexivity|reflexivity|reflexivity].
  intros H. discriminate.
Qed.

Lemma chain_ok_no_filled t :
  filled (hashtable.internal_list t) = [] -> chain_ok t.
Proof.
  intros H j e Hj Hf. exfalso.
  assert (Hin : In e (filled (hashtable.internal_list t))).
  { apply filter_In. split; [eapply nth_error_In; exact Hj|exact Hf]. }
  rewrite H in Hin. contradiction.
Qed.

Lemma replay_chain fuel (its : list (obj * obj)) : forall t t',
  in_replay t -> chain_ok t ->
  hashtable.replay (update fuel) its t = Done tt t' ->
  in_replay t' /\ chain_ok t'.
Proof.
  induction its as [|[k v] its IH]; intros t t' HR Hc H.
  - injection H as <-. auto.
  - simpl in H.
    destruct (update fuel k v t) as [[] t1|e t1|] eqn:Eu; try discriminate.
    simpl in H. apply (IH t1 t'); [| |exact H].
    + destruct fuel as [|fuel]; [discriminate|].
      rewrite update_unfold in Eu.
      destruct HR as (Hwf & Huu & Hroom).
      pose proof (wf_size_pos t Hwf) as Hpos.
      destruct (hashtable.size t =? 0) eqn:E; [apply Z.eqb_eq in E; lia|].
      rewrite grow_not_over in Eu
        by (rewrite over_load_factor_spec by exact Hpos; apply Z.ltb_ge; lia).
      simpl in Eu.
      destruct (place_inv fuel k v t t1 Hwf Eu)
        as (h & m & idx & slot & Hk & Hh & Hm & Hf & ->).
      split; [apply placed_wf; assumption|].
      unfold placed. cbn [hashtable.update_used hashtable.used hashtable.size].
      rewrite Huu, andb_false_r. auto.
    + destruct fuel as [|fuel]; [discriminate|].
      rewrite update_unfold in Eu.
      destruct HR as (Hwf & Huu & Hroom).
      pose proof (wf_size_pos t Hwf) as Hpos.
      destruct (hashtable.size t =? 0) eqn:E; [apply Z.eqb_eq in E; lia|].
      rewrite grow_not_over in Eu
        by (rewrite over_load_factor_spec by exact Hpos; apply Z.ltb_ge; lia).
      simpl in Eu.
      destruct (place_inv fuel k v t t1 Hwf Eu)
        as (h & m & idx & slot & Hk & Hh & Hm & Hf & ->).
      eapply placed_chain; eauto.
Qed.

Lemma grow_chain fuel t t1 :
  Inv t -> chain_ok t -> grow fuel t = Done tt t1 -> chain_ok t1.
Proof.
  intros HI Hc Hg. unfold grow in Hg.
  destruct (hashtable.over_load_factor t) eqn:Eo;
    [|injection Hg as <-; exact Hc].
  destruct HI as (Hwf & Huu & Hne & Hus).
  pose proof (wf_size_pos t Hwf) as Hpos.
  destruct Hwf as ([n Hn] & Hlen & Hok).
  unfold hashtable.increment_size in Hg.
  match type of Hg with
  | bind (hashtable.replay _ ?its ?ts) _ = _ =>
      destruct (hashtable.replay (update fuel) its ts) as [[] t'|e t'|] eqn:Er;
        try discriminate;
      destruct (replay_chain fuel its ts t') as [_ Hc']; [| |exact Er|]
  end.
  - split; [split; [exists (S n)|split]|split; [reflexivity|]].
    + cbn [hashtable.size hashtable.with_list hashtable.with_size].
      change (hashtable.size (hashtable.with_update_used t false))
        with (hashtable.size t).
      rewrite Z.shiftl_mul_pow2, Hn, Nat2Z.inj_succ, Z.pow_succ_r by lia.
      change (2 ^ 1) with 2. lia.
    + cbn [hashtable.size hashtable.with_list hashtable.with_size
           hashtable.internal_list].
      unfold hashtable.init_internal_list.
      cbn [hashtable.size hashtable.with_size].
      rewrite repeat_length, Z2Nat.id; [reflexivity|].
      apply Z.shiftl_nonneg.
      change (hashtable.size (hashtable.with_update_used t false))
        with (hashtable.size t). lia.
    + cbn [hashtable.with_list hashtable.internal_list].
      apply entry_ok_repeat_empty.
    + cbn [hashtable.size hashtable.with_list hashtable.with_size hashtable.used].
      change (hashtable.size (hashtable.with_update_used t false))
        with (hashtable.size t).
      change (hashtable.used (hashtable.with_update_used t false))
        with (hashtable.used t).
      rewrite Z.shiftl_mul_pow2 by lia. change (2 ^ 1) with 2. lia.
  - apply chain_ok_no_filled.
    cbn [hashtable.with_list hashtable.internal_list].
    apply filled_repeat_empty.
  - simpl in Hg. injection Hg as <-. exact Hc'.
Qed.

Lemma update_chain fuel k v t t' :
  Inv t -> chain_ok t -> final_state (update fuel k v t) = Some t' ->
  chain_ok t'.
Proof.
  intros HI Hc H. destruct fuel as [|fuel]; [discriminate|].
  rewrite update_unfold in H.
  pose proof (wf_size_pos t (proj1 HI)).
  destruct (hashtable.size t =? 0) eqn:E; [apply Z.eqb_eq in E; lia|].
  apply final_state_bind in H. destruct H as [[e He]|([] & t1 & Hg & H)].
  - destruct (grow_final fuel t t' HI) as (Hd & _);
      [rewrite He; reflexivity|]. congruence.
  - pose proof (grow_chain fuel t t1 HI Hc Hg) as Hc1.
    destruct (grow_final fuel t t1 HI) as (_ & HI1 & _);
      [rewrite Hg; reflexivity|].
    destruct (place_final fuel k v t1 t' (proj1 HI1) H)
      as [[m ->]|(h & m & idx & slot & _ & _ & Hp & ->)]; [exact Hc1|].
    destruct (place_inv fuel k v t1 _ (proj1 HI1) Hp)
      as (h' & m' & idx' & slot' & Hk & Hh & _ & Hf & ->).
    eapply placed_chain; eauto. apply HI1.
Qed.

Lemma reachable_chain t : reachable t -> chain_ok t.
Proof.
  induction 1 as [hk cr t H|fuel k t t' Hr IH H|fuel k t t' Hr IH H
                 |fuel k v t t' Hr IH H].
  - apply init_fresh in H. destruct H as [p ->].
    apply chain_ok_no_filled. apply fresh_entries.
  - apply get_final in H. destruct H as [m ->]. exact IH.
  - apply remove_final in H.
    destruct H as [m [->|(j & slot & Hs & _ & ->)]]; [exact IH|].
    apply set_dummy_chain; assumption.
  - eapply update_chain; eauto. apply reachable_Inv. exact Hr.
Qed.

(** *** Looking up a stored key *)

Lemma in_entries_keys_inv l k :
  In k (entries_keys l) ->
  exists j e, nth_error l j = Some e /\ hashtable.is_filled e = true /\
              hashtable.key e = k.
Proof.
  unfold entries_keys, filled. intros H. apply in_map_iff in H.
  destruct H as (e & Hk & He). apply filter_In in He. destruct He as [He Hf].
  apply In_nth_error in He. destruct He as [j Hj]. eauto.
Qed.

(** The lookup that skips dummies, for the key of a filled entry that is
    [==] to itself, stops at a filled entry whose key it is [==] to, at the
    latest at the entry itself. *)
Lemma chain_found t j e :
  wf t -> chain_ok t ->
  nth_error (hashtable.internal_list t) j = Some e ->
  hashtable.is_filled e = true ->
  key_eq (hashtable.key e) (hashtable.key e) = true ->
  exists fuel h m idx slot,
    get_hash fuel (hashtable.key e) = Some h /\ (m < fuel)%nat /\
    found_at t (hashtable.key e) h true m idx slot /\
    hashtable.is_filled slot = true /\
    key_eq (hashtable.key e) (hashtable.key slot) = true.
Proof.
  intros Hwf Hc Hj Hf Hkk.
  destruct (Hc j e Hj Hf) as (h & m & Hh & Hk & [fuel Hg] & Hpos & Hbefore).
  pose proof Hwf as ([n Hn] & Hlen & _).
  set (k := hashtable.key e) in *.
  set (pos := fun m' => fst (probe_at (hashtable.get_new_index t)
                               (hashtable.size t) m'
                               (Z.land h (hashtable.size t - 1), h))).
  assert (Hrange : forall m', 0 <= pos m' < hashtable.size t).
  { intros m'. unfold pos. rewrite Hn. apply probe_at_range.
    apply start_index_range. }
  set (P := fun m' =>
    match nth_error (hashtable.internal_list t) (Z.to_nat (pos m')) with
    | Some s => stops (probe_entry k h) s true
    | None => true
    end).
  assert (Hje : nth_error (hashtable.internal_list t) (Z.to_nat (pos m)) = Some e).
  { unfold pos. rewrite <- Hpos, Nat2Z.id. exact Hj. }
  assert (Hse : stops (probe_entry k h) e true = true).
  { unfold stops.
    destruct (state_cases e) as [(?&?&?)|[(Hd&_&_)|(?&?&?)]]; try congruence.
    rewrite Hd, Hf. apply eq_probe_entry_intro; [exact Hkk|exact Hh]. }
  destruct (least_true P m) as (m0 & Hm0 & Hp0 & Hmin).
  { unfold P. rewrite Hje. exact Hse. }
  assert (Hsome : forall m', exists s,
    nth_error (hashtable.internal_list t) (Z.to_nat (pos m')) = Some s).
  { intros m'. specialize (Hrange m').
    destruct (nth_error (hashtable.internal_list t) (Z.to_nat (pos m'))) eqn:E;
      [eauto|]. apply nth_error_None in E. lia. }
  destruct (Hsome m0) as [slot Hslot].
  assert (Hstop : stops (probe_entry k h) slot true = true).
  { unfold P in Hp0. rewrite Hslot in Hp0. exact Hp0. }
  assert (Hocc : hashtable.is_empty slot = false).
  { destruct (Nat.eq_dec m0 m) as [->|Hne].
    - rewrite Hje in Hslot. injection Hslot as <-.
      destruct (state_cases e) as [(?&?&?)|[(?&?&?)|(?&?&?)]]; congruence.
    - destruct (Hbefore m0 ltac:(lia)) as (s & Hs & He).
      fold (pos m0) in Hs. congruence. }
  assert (Hfs : hashtable.is_filled slot = true).
  { unfold stops in Hstop.
    destruct (state_cases slot) as [(Hd&?&?)|[(?&?&?)|(?&?&?)]];
      try congruence. rewrite Hd in Hstop. discriminate. }
  exists (S (Nat.max fuel m0)), h, m0, (pos m0), slot.
  split; [eapply table_get_hash_mono; [|exact Hg]; lia|].
  split; [lia|]. split.
  - split; [reflexivity|]. split; [apply Hrange|]. split; [exact Hslot|].
    split; [exact Hstop|].
    intros m' Hm'. specialize (Hmin m' Hm'). unfold P in Hmin.
    fold (pos m'). unfold slot_stops.
    rewrite getitem_nth_error by (specialize (Hrange m'); lia).
    destruct (Hsome m') as [s Hs]. rewrite Hs in *. simpl. congruence.
  - split; [exact Hfs|].
    unfold stops in Hstop.
    destruct (state_cases slot) as [(?&?&?)|[(Hd&_&_)|(?&?&?)]]; try congruence.
    rewrite Hd, Hfs in Hstop. apply (eq_probe_entry k h slot Hstop).
Qed.

(** X20: on a reachable table, [get] of a key that [keys()] lists and that
    is [==] to itself returns, even when no slot is empty, and the value it
    returns is stored under a key that the given key is [==] to. *)
Theorem get_finds_stored_key k t :
  reachable t -> In k (hashtable.keys t) -> key_eq k k = true ->
  exists fuel v t' k',
    get fuel k t = Done v t' /\
    key_eq k k' = true /\ In (k', v) (hashtable.items t).
Proof.
  intros Hr Hin Hkk. pose proof (reachable_Inv t Hr) as (Hwf & _).
  pose proof (reachable_chain t Hr) as Hc.
  rewrite keys_eq in Hin.
  destruct (in_entries_keys_inv _ k Hin) as (j & e & Hj & Hf & <-).
  destruct (chain_found t j e Hwf Hc Hj Hf Hkk)
    as (fuel & h & m & idx & slot & Hg & Hm & Hfound & Hfs & Hks).
  assert (Hk : hashable (hashtable.key e) = true).
  { destruct Hwf as (_ & _ & Hok). rewrite Forall_forall in Hok.
    apply (Hok e); [eapply nth_error_In; exact Hj|exact Hf]. }
  exists fuel, (hashtable.value slot), (bump t m), (hashtable.key slot).
  split; [|split; [exact Hks|]].
  - rewrite (get_found fuel _ t h m idx slot (proj1 (proj2 Hwf)) Hk Hg Hm Hfound).
    rewrite Hfs. reflexivity.
  - rewrite items_eq. unfold entries_items, filled.
    apply in_map_iff. exists slot. split; [reflexivity|].
    apply filter_In. split; [|exact Hfs].
    destruct Hfound as (_ & _ & Hs & _). eapply nth_error_In. exact Hs.
Qed.

(** X21: on a reachable table in which no two stored keys are [==] and
    which has an empty slot, [remove] of a stored key that is [==] to itself
    returns, the key is then no longer among [keys()], [used] is what it
    was, and a [get] of the key made next returns [None]. *)
Theorem get_after_remove_of_single_key k t :
  reachable t -> apart (hashtable.keys t) -> In k (hashtable.keys t) ->
  key_eq k k = true ->
  nonempty (hashtable.internal_list t) < hashtable.size t ->
  exists fuel t1 t2,
    remove fuel k t = Done tt t1 /\
    ~ In k (hashtable.keys t1) /\
    hashtable.used t1 = hashtable.used t /\
    get fuel k t1 = Done PyNone t2.
Proof.
  intros Hr Hdup Hin Hkk Hfree. pose proof (reachable_Inv t Hr) as HI.
  pose proof HI as (Hwf & _).
  pose proof (reachable_chain t Hr) as Hc.
  pose proof Hin as Hin0.
  rewrite keys_eq in Hin.
  destruct (in_entries_keys_inv _ k Hin) as (j & e & Hj & Hf & Hke).
  subst k.
  destruct (chain_found t j e Hwf Hc Hj Hf Hkk)
    as (f1 & h & m & idx & slot & Hg & Hm & Hfound & Hfs & Hks).
  assert (Hk : hashable (hashtable.key e) = true).
  { destruct Hwf as (_ & _ & Hok). rewrite Forall_forall in Hok.
    apply (Hok e); [eapply nth_error_In; exact Hj|exact Hf]. }
  pose proof (remove_found f1 _ t h m idx slot (proj1 (proj2 Hwf)) Hk Hg Hm Hfound)
    as Hrem.
  rewrite Hfs in Hrem.
  set (t1 := hashtable.with_list (bump t m)
               (replace_nth (hashtable.internal_list t) (Z.to_nat idx)
                  (hashtable.set_dummy slot))) in *.
  assert (HI1 : Inv t1).
  { apply (remove_Inv f1 (hashtable.key e) t t1 HI). rewrite Hrem. reflexivity. }
  assert (Hu : hashtable.used t1 = hashtable.used t) by reflexivity.
  assert (Hsz : hashtable.size t1 = hashtable.size t) by reflexivity.
  assert (Hne : nonempty (hashtable.internal_list t1)
                = nonempty (hashtable.internal_list t)).
  { pose proof Hfound as (_ & _ & Hs & _).
    unfold t1. cbn [hashtable.with_list hashtable.internal_list].
    rewrite (nonempty_replace_nth _ _ slot) by (auto; reflexivity).
    destruct (state_cases slot) as [(?&?&?)|[(?&?&He)|(?&?&?)]];
      try congruence. rewrite He. lia. }
  assert (Hkeys : exists l1 l2,
    hashtable.keys t = l1 ++ hashtable.key slot :: l2 /\
    hashtable.keys t1 = l1 ++ l2).
  { pose proof Hfound as (_ & _ & Hs & _).
    destruct (entries_items_replace_by_unfilled _ _ slot
                (hashtable.set_dummy slot) Hs Hfs eq_refl)
      as (l1 & l2 & H1 & H2).
    exists (map fst l1), (map fst l2).
    rewrite !keys_eq, !entries_keys_items.
    change (hashtable.internal_list t1)
      with (replace_nth (hashtable.internal_list t) (Z.to_nat idx)
              (hashtable.set_dummy slot)).
    rewrite H1, H2, !map_app. split; reflexivity. }
  destruct Hkeys as (l1 & l2 & Hk1 & Hk2).
  rewrite Hk1 in Hdup, Hin0.
  pose proof (proj1 (apart_middle _ _ _) Hdup) as Hdup'.
  destruct Hdup' as [Hrest _]. rewrite Forall_forall in Hrest.
  assert (Hsame : hashtable.key slot = hashtable.key e).
  { apply in_app_or in Hin0. destruct Hin0 as [Hin0|[Hin0|Hin0]]; [|exact Hin0|].
    - destruct (Hrest (hashtable.key e)) as [_ Hx];
        [apply in_or_app; auto|congruence].
    - destruct (Hrest (hashtable.key e)) as [_ Hx];
        [apply in_or_app; auto|congruence]. }
  rewrite Hsame in Hrest.
  assert (Hnone : equals_none (hashtable.key e) (hashtable.keys t1)).
  { rewrite Hk2. apply Forall_forall. intros k' Hk'. apply (Hrest k' Hk'). }
  assert (Habs : ~ In (hashtable.key e) (hashtable.keys t1)).
  { intros Hx. unfold equals_none in Hnone. rewrite Forall_forall in Hnone.
    rewrite (Hnone _ Hx) in Hkk. discriminate. }
  destruct (get_total (hashtable.key e) t1 (proj1 HI1) Hk) as (f2 & r & t2 & Hget).
  { rewrite Hne, Hsz. exact Hfree. }
  rewrite (get_absent f2 _ t1 r t2 (proj1 HI1) Hnone Hget) in Hget.
  exists (Nat.max f1 f2), t1, t2.
  split; [eapply remove_mono; [apply Nat.le_max_l|discriminate|exact Hrem]|].
  split; [exact Habs|]. split; [exact Hu|].
  eapply get_mono; [apply Nat.le_max_r|discriminate|exact Hget].
Qed.

(** *** A table that is only written to, with [int] and [str] keys *)

(** No dummy, no key stored twice, every key an [int] or a [str], and the
    invariants of a reachable table: what a table looks like as long as
    nothing is removed and the keys are compared by value. *)
Definition clean (t : hashtable.HashTable) : Prop :=
  Inv t /\ chain_ok t /\ no_dummy (hashtable.internal_list t) /\
  NoDup (entries_keys (hashtable.internal_list t)) /\
  Forall (fun k => plain k = true) (entries_keys (hashtable.internal_list t)).

Lemma empty_target_fresh fuel t k h m idx slot :
  wf t -> chain_ok t -> get_hash fuel k = Some h -> key_eq k k = true ->
  found_at t k h false m idx slot -> hashtable.is_empty slot = true ->
  ~ In k (entries_keys (hashtable.internal_list t)).
Proof.
  intros Hwf Hc Hh Hkk (Hidx & Hr & Hs & Hstop & Hbefore) He Hin.
  destruct (in_entries_keys_inv _ k Hin) as (j & e & Hj & Hf & Hk).
  destruct (Hc j e Hj Hf) as (h' & me & Hh' & _ & [fuel' Hg] & Hpos & Hchain).
  rewrite Hk in Hg.
  assert (h' = h).
  { pose proof (table_get_hash_mono fuel (Nat.max fuel fuel') k h
                  (Nat.le_max_l _ _) Hh) as H1.
    pose proof (table_get_hash_mono fuel' (Nat.max fuel fuel') k h'
                  (Nat.le_max_r _ _) Hg) as H2.
    congruence. }
  subst h'.
  destruct (lt_eq_lt_dec m me) as [[Hlt|Heq]|Hgt].
  - destruct (Hchain m Hlt) as (s & Hs' & Hocc).
    rewrite <- Hidx in Hs'. congruence.
  - subst me. rewrite <- Hidx in Hpos.
    assert (j = Z.to_nat idx) by lia. subst j.
    assert (slot = e) by congruence. subst slot.
    destruct (state_cases e) as [(?&?&?)|[(?&?&?)|(?&?&?)]]; congruence.
  - specialize (Hbefore me Hgt). rewrite <- Hpos in Hbefore.
    unfold slot_stops in Hbefore.
    destruct Hwf as (_ & Hlen & _).
    assert (Hjr : (j < List.length (hashtable.internal_list t))%nat)
      by (apply nth_error_Some; congruence).
    rewrite getitem_nth_error, Nat2Z.id, Hj in Hbefore by lia.
    simpl in Hbefore. injection Hbefore as Hb.
    unfold stops in Hb.
    destruct (state_cases e) as [(?&?&?)|[(Hd&_&_)|(?&?&?)]]; try congruence.
    rewrite Hd, Hf in Hb.
    rewrite eq_probe_entry_intro in Hb; [discriminate| |exact Hh'].
    rewrite Hk. exact Hkk.
Qed.

Lemma nodup_keys_value (l : list (obj * obj)) k v v' :
  NoDup (map fst l) -> In (k, v) l -> In (k, v') l -> v = v'.
Proof.
  induction l as [|[a b] l IH]; intros Hd H1 H2; [contradiction|].
  simpl in Hd. inversion Hd as [|? ? Hn Hd']; subst.
  destruct H1 as [H1|H1], H2 as [H2|H2].
  - congruence.
  - injection H1 as -> ->. exfalso. apply Hn.
    apply (in_map fst) in H2. exact H2.
  - injection H2 as -> ->. exfalso. apply Hn.
    apply (in_map fst) in H1. exact H1.
  - apply IH; assumption.
Qed.

Lemma update_clean k v t :
  clean t -> hashable k = true -> plain k = true ->
  exists fuel t',
    update fuel k v t = Done tt t' /\ clean t' /\
    forall k' v',
      In (k', v') (hashtable.items t') <->
      (k' = k /\ v' = v) \/ (k' <> k /\ In (k', v') (hashtable.items t)).
Proof.
  intros (HI & Hc & Hnd & Hdup & Hpl) Hk Hpk.
  pose proof (key_eq_plain_refl k Hpk) as Hkk.
  destruct (update_total k v t HI Hk)
    as (fuel & t1 & h & m & idx & slot & Hg & Hh & Hm & Hf & Hu & HI').
  destruct (grow_done_facts fuel t t1 HI Hg)
    as (HI1 & _ & _ & _ & Hnd1 & Hp1).
  specialize (Hnd1 Hnd). specialize (Hp1 (apart_of_nodup _ Hpl Hdup)).
  pose proof (grow_chain fuel t t1 HI Hc Hg) as Hc1.
  assert (Hkeys1 : Permutation (entries_keys (hashtable.internal_list t))
                     (entries_keys (hashtable.internal_list t1))).
  { rewrite !entries_keys_items. apply Permutation_map.
    apply Permutation_sym. exact Hp1. }
  assert (Hdup1 : NoDup (entries_keys (hashtable.internal_list t1)))
    by (apply (Permutation_NoDup Hkeys1); exact Hdup).
  assert (Hpl1 : Forall (fun k => plain k = true)
                   (entries_keys (hashtable.internal_list t1)))
    by (apply (Permutation_Forall Hkeys1); exact Hpl).
  assert (Hsame : forall kv, In kv (entries_items (hashtable.internal_list t1))
                             <-> In kv (hashtable.items t)).
  { intros kv. rewrite items_eq. split; apply Permutation_in;
      [exact Hp1|apply Permutation_sym; exact Hp1]. }
  pose proof Hf as (_ & _ & Hs & Hstop & _).
  exists (S fuel), (placed t1 idx slot k v h m). split; [exact Hu|].
  assert (Hc' : chain_ok (placed t1 idx slot k v h m))
    by (eapply placed_chain; eauto; apply HI1).
  pose proof (placed_no_dummy t1 k v h m idx slot Hnd1) as Hnd'.
  destruct (stops_cases _ _ Hstop) as [Hd|[[Hfil Heq]|He]].
  - exfalso. unfold no_dummy in Hnd1. rewrite Forall_forall in Hnd1.
    rewrite (Hnd1 slot) in Hd; [discriminate|]. eapply nth_error_In; exact Hs.
  - destruct (eq_probe_entry k h slot Heq) as [Hkey _].
    assert (Hps : plain (hashtable.key slot) = true).
    { rewrite Forall_forall in Hpl1. apply Hpl1.
      eapply in_entries_keys; eauto. }
    apply key_eq_plain in Hkey; [|exact Hpk|exact Hps].
    destruct (entries_items_replace_filled _ _ slot
                (hashtable.mkEntry k v (Some h) false) Hs Hfil eq_refl)
      as (l1 & l2 & H1 & H2).
    cbn [hashtable.key hashtable.value] in H2. rewrite <- Hkey in H1.
    change (replace_nth (hashtable.internal_list t1) (Z.to_nat idx)
              (hashtable.mkEntry k v (Some h) false))
      with (hashtable.internal_list (placed t1 idx slot k v h m)) in H2.
    assert (Hkeys : map fst (entries_items
                               (hashtable.internal_list (placed t1 idx slot k v h m)))
                    = map fst (entries_items (hashtable.internal_list t1))).
    { rewrite H1, H2, !map_app. reflexivity. }
    split.
    { split; [exact HI'|]. split; [exact Hc'|]. split; [exact Hnd'|].
      rewrite entries_keys_items, Hkeys, <- entries_keys_items.
      split; assumption. }
    rewrite entries_keys_items, H1, map_app in Hdup1. simpl in Hdup1.
    pose proof (NoDup_remove_2 _ _ _ Hdup1) as Hnotin.
    intros k' v'. rewrite items_eq, H2, <- Hsame, H1.
    rewrite !in_app_iff. simpl. split.
    + intros [H|[H|H]].
      * right. split; [|auto]. intros ->. apply Hnotin.
        apply in_or_app. left. apply (in_map fst) in H. exact H.
      * injection H as <- <-. auto.
      * right. split; [|auto]. intros ->. apply Hnotin.
        apply in_or_app. right. apply (in_map fst) in H. exact H.
    + intros [[-> ->]|[Hne [H|[H|H]]]]; auto.
      injection H as <- _. congruence.
  - pose proof (empty_target_fresh fuel t1 k h m idx slot (proj1 HI1) Hc1 Hh
                  Hkk Hf He) as Hfresh.
    pose proof (placed_items_fresh t1 k v h m idx slot Hf He) as Hp.
    assert (Hkeys : Permutation
                      (k :: entries_keys (hashtable.internal_list t1))
                      (entries_keys
                         (hashtable.internal_list (placed t1 idx slot k v h m)))).
    { rewrite !entries_keys_items.
      apply Permutation_sym. apply (Permutation_map fst Hp). }
    split.
    { split; [exact HI'|]. split; [exact Hc'|]. split; [exact Hnd'|]. split.
      - apply (Permutation_NoDup Hkeys). constructor; assumption.
      - apply (Permutation_Forall Hkeys). constructor; assumption. }
    intros k' v'. rewrite items_eq, <- Hsame. split.
    + intros H. apply (Permutation_in _ Hp) in H. destruct H as [H|H].
      * injection H as <- <-. auto.
      * right. split; [|exact H]. intros ->. apply Hfresh.
        rewrite entries_keys_items. apply (in_map fst) in H. exact H.
    + intros H. apply (Permutation_in _ (Permutation_sym Hp)).
      destruct H as [[-> ->]|[_ H]]; [left; reflexivity|right; exact H].
Qed.

(** The value of the last pair with key [k] in a list of updates. *)
Fixpoint last_value (k : obj) (kvs : list (obj * obj)) : option obj :=
  match kvs with
  | [] => None
  | (k', v) :: rest =>
      match last_value k rest with
      | Some w => Some w
      | None => if obj_eq_dec k' k then Some v else None
      end
  end.

Lemma replay_clean (kvs : list (obj * obj)) : forall t,
  clean t -> Forall (fun kv => hashable (fst kv) = true) kvs ->
  Forall (fun kv => plain (fst kv) = true) kvs ->
  exists fuel t',
    hashtable.replay (update fuel) kvs t = Done tt t' /\ clean t' /\
    forall k v,
      In (k, v) (hashtable.items t') <->
      last_value k kvs = Some v \/
      (last_value k kvs = None /\ In (k, v) (hashtable.items t)).
Proof.
  induction kvs as [|[k0 v0] kvs IH]; intros t Hcl Hks Hps.
  - exists 0%nat, t. split; [reflexivity|]. split; [exact Hcl|].
    intros k v. simpl. split; [auto|]. intros [H|[_ H]]; [discriminate|exact H].
  - inversion Hks as [|? ? Hk Hks']; subst. simpl in Hk.
    inversion Hps as [|? ? Hp Hps']; subst. simpl in Hp.
    destruct (update_clean k0 v0 t Hcl Hk Hp) as (f1 & t1 & Hu & Hcl1 & Hcont1).
    destruct (IH t1 Hcl1 Hks' Hps') as (f2 & t' & Hr & Hcl' & Hcont').
    exists (Nat.max f1 f2), t'. split.
    { cbn [hashtable.replay].
      rewrite (update_mono f1 (Nat.max f1 f2) k0 v0 t (Done tt t1)
                 (Nat.le_max_l _ _) ltac:(discriminate) Hu).
      cbn [bind]. eapply replay_mono; [|discriminate|exact Hr].
      intros k1 v1 t2 r0 Hr0 H0.
      eapply update_mono; [apply Nat.le_max_r|exact Hr0|exact H0]. }
    split; [exact Hcl'|].
    intros k v. rewrite Hcont', Hcont1. cbn [last_value].
    destruct (last_value k kvs) as [w|].
    + split; [intros [H|[H _]]; [auto|discriminate]|intros [H|[H _]]; [auto|discriminate]].
    + destruct (obj_eq_dec k0 k) as [->|Hne].
      * split.
        -- intros [H|[_ [[_ ->]|[Hne _]]]]; [discriminate|auto|congruence].
        -- intros [H|[H _]]; [|discriminate]. injection H as <-. auto.
      * split.
        -- intros [H|[_ [[-> _]|[_ H]]]]; [discriminate|congruence|auto].
        -- intros [H|[_ H]]; [discriminate|]. right. split; [reflexivity|].
           right. split; [congruence|exact H].
Qed.

Lemma get_of_stored k v t :
  wf t -> chain_ok t -> NoDup (entries_keys (hashtable.internal_list t)) ->
  Forall (fun k => plain k = true) (entries_keys (hashtable.internal_list t)) ->
  In (k, v) (hashtable.items t) ->
  exists fuel t', get fuel k t = Done v t'.
Proof.
  intros Hwf Hc Hdup Hpl Hin.
  assert (Hink : In k (entries_keys (hashtable.internal_list t))).
  { rewrite entries_keys_items, <- items_eq. apply (in_map fst) in Hin. exact Hin. }
  assert (Hpk : plain k = true).
  { rewrite Forall_forall in Hpl. apply Hpl. exact Hink. }
  destruct (in_entries_keys_inv _ k Hink) as (j & e & Hj & Hf & <-).
  destruct (chain_found t j e Hwf Hc Hj Hf (key_eq_plain_refl _ Hpk))
    as (fuel & h & m & idx & slot & Hg & Hm & Hfound & Hfs & Hks).
  assert (Hslot : In slot (hashtable.internal_list t)).
  { destruct Hfound as (_ & _ & Hs & _). eapply nth_error_In. exact Hs. }
  assert (Hps : plain (hashtable.key slot) = true).
  { rewrite Forall_forall in Hpl. apply Hpl.
    unfold entries_keys, filled. apply in_map. apply filter_In. auto. }
  apply key_eq_plain in Hks; [|exact Hpk|exact Hps].
  assert (Hk : hashable (hashtable.key e) = true).
  { destruct Hwf as (_ & _ & Hok). rewrite Forall_forall in Hok.
    apply (Hok e); [eapply nth_error_In; exact Hj|exact Hf]. }
  exists fuel, (bump t m).
  rewrite (get_found fuel _ t h m idx slot (proj1 (proj2 Hwf)) Hk Hg Hm Hfound).
  rewrite Hfs. f_equal.
  assert (Hin' : In (hashtable.key e, hashtable.value slot) (hashtable.items t)).
  { rewrite items_eq, Hks. unfold entries_items, filled.
    apply in_map_iff. exists slot. split; [reflexivity|].
    apply filter_In. split; [exact Hslot|exact Hfs]. }
  rewrite entries_keys_items, <- items_eq in Hdup.
  eapply nodup_keys_value; eauto.
Qed.

(** X22: with [int] and [str] keys, a table that is only written to is a
    dictionary.  After any list of [update] calls whose keys are [str]s or
    [int]s that are not negative, made on a fresh table, all calls have
    returned, no key is stored twice, [items()] holds for each key exactly
    the value of its last [update], and [get] of such a key returns that
    value. *)
Theorem updates_make_a_dictionary (hk : option Z) (cr : string)
    (t0 : hashtable.HashTable) (kvs : list (obj * obj)) :
  hashtable.init hk cr = inr t0 ->
  Forall (fun kv => hashable (fst kv) = true) kvs ->
  Forall (fun kv => plain (fst kv) = true) kvs ->
  exists fuel t,
    hashtable.replay (update fuel) kvs t0 = Done tt t /\
    NoDup (hashtable.keys t) /\
    (forall k v, In (k, v) (hashtable.items t) <-> last_value k kvs = Some v) /\
    (forall k v, last_value k kvs = Some v ->
       exists fuel' t', get fuel' k t = Done v t').
Proof.
  intros Hinit Hks Hps. apply init_fresh in Hinit. destruct Hinit as [p ->].
  assert (Hcl : clean (fresh hk p)).
  { split; [apply fresh_Inv|]. split; [apply chain_ok_no_filled, fresh_entries|].
    split; [apply (no_dummy_repeat_empty 8)|].
    unfold entries_keys. rewrite fresh_entries. split; constructor. }
  destruct (replay_clean kvs (fresh hk p) Hcl Hks Hps)
    as (fuel & t & Hr & (HI & Hc & _ & Hdup & Hpl) & Hcont).
  assert (Hcont' : forall k v,
    In (k, v) (hashtable.items t) <-> last_value k kvs = Some v).
  { intros k v. rewrite Hcont. split; [|auto].
    intros [H|[_ H]]; [exact H|].
    rewrite items_eq in H. unfold entries_items in H.
    rewrite fresh_entries in H. contradiction. }
  exists fuel, t. split; [exact Hr|]. split; [rewrite keys_eq; exact Hdup|].
  split; [exact Hcont'|].
  intros k v Hl. apply (get_of_stored k v t (proj1 HI) Hc Hdup Hpl).
  apply Hcont'. exact Hl.
Qed.

(** *** The constructor's [hash_key] *)

(** The same table with another value in [self.__hash_key]. *)
Definition with_hash_key (self : hashtable.HashTable) (hk : option Z)
  : hashtable.HashTable :=
  hashtable.mkTable (hashtable.size self) (hashtable.used self)
    (hashtable.update_used self) (hashtable.internal_list self)
    (hashtable.collision_counter self) hk (hashtable.get_new_index self).

Definition on_state {A} (f : hashtable.HashTable -> hashtable.HashTable)
    (r : outcome hashtable.HashTable A) : outcome hashtable.HashTable A :=
  match r with
  | Done a s => Done a (f s)
  | Raised e s => Raised e (f s)
  | Timeout => Timeout
  end.

Lemma on_state_bind {A B} f (m : outcome hashtable.HashTable A)
    (k k' : A -> hashtable.HashTable -> outcome hashtable.HashTable B) :
  (forall a s, k' a (f s) = on_state f (k a s)) ->
  bind (on_state f m) k' = on_state f (bind m k).
Proof. intros H. destruct m; simpl; auto. Qed.

Lemma lookup_loop_hash_key hk fuel : forall entry index h skip t,
  lookup_loop fuel entry index h skip (with_hash_key t hk)
  = on_state (fun s => with_hash_key s hk)
      (lookup_loop fuel entry index h skip t).
Proof.
  induction fuel as [|fuel IH]; intros entry index h skip t; [reflexivity|].
  cbn [hashtable.lookup_loop].
  change (hashtable.internal_list (with_hash_key t hk))
    with (hashtable.internal_list t).
  destruct (getitem (hashtable.internal_list t) index) as [slot|];
    [|reflexivity].
  change (hashtable.print_collision (with_hash_key t hk))
    with (with_hash_key (hashtable.print_collision t) hk).
  change (hashtable.call_get_new_index
            (with_hash_key (hashtable.print_collision t) hk) index h)
    with (hashtable.call_get_new_index (hashtable.print_collision t) index h).
  destruct (hashtable.call_get_new_index (hashtable.print_collision t) index h)
    as [i' h'].
  rewrite IH.
  destruct (hashtable.is_dummy slot); [destruct (negb skip); reflexivity|].
  destruct (hashtable.is_filled slot); [|reflexivity].
  destruct (entry_eq entry slot); reflexivity.
Qed.

Lemma lookup_key_hash_key hk fuel k skip t :
  lookup_key fuel k skip (with_hash_key t hk)
  = on_state (fun s => with_hash_key s hk) (lookup_key fuel k skip t).
Proof.
  unfold hashtable.lookup_key.
  destruct (new_entry fuel k PyNone) as [entry|]; [|reflexivity].
  destruct (hashtable.hash_value entry) as [h|]; [|reflexivity].
  apply lookup_loop_hash_key.
Qed.

Lemma get_hash_key hk fuel k t :
  get fuel k (with_hash_key t hk)
  = on_state (fun s => with_hash_key s hk) (get fuel k t).
Proof.
  unfold hashtable.get. rewrite lookup_key_hash_key.
  apply on_state_bind. intros index s.
  change (hashtable.internal_list (with_hash_key s hk))
    with (hashtable.internal_list s).
  destruct (getitem (hashtable.internal_list s) index) as [slot|];
    [|reflexivity].
  destruct (hashtable.is_filled slot); reflexivity.
Qed.

Lemma remove_hash_key hk fuel k t :
  remove fuel k (with_hash_key t hk)
  = on_state (fun s => with_hash_key s hk) (remove fuel k t).
Proof.
  unfold hashtable.remove. rewrite lookup_key_hash_key.
  apply on_state_bind. intros index s.
  change (hashtable.internal_list (with_hash_key s hk))
    with (hashtable.internal_list s).
  destruct (getitem (hashtable.internal_list s) index) as [slot|];
    [|reflexivity].
  destruct (hashtable.is_filled slot); [|reflexivity].
  destruct (setitem (hashtable.internal_list s) index (hashtable.set_dummy slot));
    reflexivity.
Qed.

Lemma replay_hash_key hk
    (upd : obj -> obj -> hashtable.HashTable -> outcome hashtable.HashTable unit) :
  (forall k v t, upd k v (with_hash_key t hk)
                 = on_state (fun s => with_hash_key s hk) (upd k v t)) ->
  forall kvs t,
    hashtable.replay upd kvs (with_hash_key t hk)
    = on_state (fun s => with_hash_key s hk) (hashtable.replay upd kvs t).
Proof.
  intros Hupd. induction kvs as [|[k v] kvs IH]; intros t; [reflexivity|].
  cbn [hashtable.replay]. rewrite Hupd.
  apply on_state_bind. intros _ s. apply IH.
Qed.

Lemma update_hash_key hk fuel : forall k v t,
  update fuel k v (with_hash_key t hk)
  = on_state (fun s => with_hash_key s hk) (update fuel k v t).
Proof.
  induction fuel as [|fuel IH]; intros k v t; [reflexivity|].
  cbn [hashtable.update].
  change (hashtable.size (with_hash_key t hk)) with (hashtable.size t).
  destruct (hashtable.size t =? 0); [reflexivity|].
  change (hashtable.over_load_factor (with_hash_key t hk))
    with (hashtable.over_load_factor t).
  assert (Hgrow :
    (if hashtable.over_load_factor t
     then hashtable.increment_size (update fuel) (with_hash_key t hk)
     else Done tt (with_hash_key t hk))
    = on_state (fun s => with_hash_key s hk)
        (if hashtable.over_load_factor t
         then hashtable.increment_size (update fuel) t else Done tt t)).
  { destruct (hashtable.over_load_factor t); [|reflexivity].
    unfold hashtable.increment_size.
    change (hashtable.items
              (hashtable.with_size
                 (hashtable.with_update_used (with_hash_key t hk) false)
                 (Z.shiftl
                    (hashtable.size
                       (hashtable.with_update_used (with_hash_key t hk) false)) 1)))
      with (hashtable.items
              (hashtable.with_size (hashtable.with_update_used t false)
                 (Z.shiftl
                    (hashtable.size (hashtable.with_update_used t false)) 1))).
    match goal with
    | |- bind (hashtable.replay _ ?kvs ?s') _
         = on_state _ (bind (hashtable.replay _ _ ?s) _) =>
        change s' with (with_hash_key s hk)
    end.
    rewrite (replay_hash_key hk (update fuel) IH).
    apply on_state_bind. intros _ s. reflexivity. }
  rewrite Hgrow. apply on_state_bind.
  intros _ s. rewrite lookup_key_hash_key.
  apply on_state_bind. intros index s'.
  change (hashtable.internal_list (with_hash_key s' hk))
    with (hashtable.internal_list s').
  destruct (getitem (hashtable.internal_list s') index) as [slot|];
    [|reflexivity].
  change (hashtable.update_used (with_hash_key s' hk))
    with (hashtable.update_used s').
  destruct (negb (hashtable.is_dummy slot) && hashtable.update_used s');
    (destruct (new_entry fuel k v) as [entry|]; [|reflexivity]).
  - change (hashtable.internal_list
              (hashtable.with_used (with_hash_key s' hk)
                 (hashtable.used (with_hash_key s' hk) + 1)))
      with (hashtable.internal_list
              (hashtable.with_used s' (hashtable.used s' + 1))).
    destruct (setitem _ index entry); reflexivity.
  - change (hashtable.internal_list (with_hash_key s' hk))
      with (hashtable.internal_list s').
    destruct (setitem _ index entry); reflexivity.
Qed.

(** X23: the constructor's [hash_key] argument is stored and never used.
    Two tables built with different [hash_key] values and the same probing
    rule behave alike under every sequence of [get], [remove] and [update]
    calls: the same calls return, raise or run on, the [get] calls return
    the same values, and the two tables end up equal in every field but
    [hash_key] (the hashes of the keys come from the process-wide secret
    only). *)
Theorem hash_key_is_never_used (hk hk' : option Z) (cr : string)
    (t : hashtable.HashTable) :
  hashtable.init hk cr = inr t ->
  hashtable.init hk' cr = inr (with_hash_key t hk') /\
  forall fuel ops,
    run fuel ops (with_hash_key t hk')
    = on_state (fun s => with_hash_key s hk') (run fuel ops t).
Proof.
  intros Hinit. split.
  - apply init_fresh in Hinit as Hf. destruct Hf as [p ->].
    revert Hinit. unfold hashtable.init.
    destruct (negb _); [discriminate|].
    repeat (destruct (String.eqb cr _); [intros H; injection H as <-; reflexivity|]).
    discriminate.
  - clear Hinit. intros fuel ops. revert t.
    induction ops as [|[k|k|k v] ops IH]; intros t; [reflexivity| | |];
      cbn [run].
    + rewrite get_hash_key. apply on_state_bind. intros r s.
      rewrite IH. apply on_state_bind. reflexivity.
    + rewrite remove_hash_key. apply on_state_bind. intros _ s. apply IH.
    + rewrite update_hash_key. apply on_state_bind. intros _ s. apply IH.
Qed.

(** *** Sequences of calls stay among the reachable tables *)

Lemma run_reachable fuel ops : forall t t',
  reachable t -> final_state (run fuel ops t) = Some t' -> reachable t'.
Proof.
  induction ops as [|[k|k|k v] ops IH]; intros t t' Hr H; cbn [run] in H.
  - injection H as <-. exact Hr.
  - destruct (get fuel k t) as [r s|e s|] eqn:E; cbn [bind] in H;
      [|injection H as <-; apply (reach_get fuel k t); [exact Hr|rewrite E; reflexivity]
       |discriminate].
    assert (Hs : reachable s)
      by (apply (reach_get fuel k t); [exact Hr|rewrite E; reflexivity]).
    apply (IH s t' Hs).
    destruct (run fuel ops s) as [rs s2|e s2|]; exact H.
  - destruct (remove fuel k t) as [r s|e s|] eqn:E; cbn [bind] in H;
      [|injection H as <-; apply (reach_remove fuel k t); [exact Hr|rewrite E; reflexivity]
       |discriminate].
    apply (IH s t'); [|exact H].
    apply (reach_remove fuel k t); [exact Hr|rewrite E; reflexivity].
  - destruct (update fuel k v t) as [r s|e s|] eqn:E; cbn [bind] in H;
      [|injection H as <-; apply (reach_update fuel k v t); [exact Hr|rewrite E; reflexivity]
       |discriminate].
    apply (IH s t'); [|exact H].
    apply (reach_update fuel k v t); [exact Hr|rewrite E; reflexivity].
Qed.

End TableFacts.

(** ** Concrete runs

    The interpreter started with [PYTHONHASHSEED=0] has an all-zero hash
    secret; [hash_compress_bits] keeps its default 0.  Under this secret the
    integer keys 1 and 3 have the same initial index 0, in a table of size 8
    and in one of size 16.  All keys below are [int]s, which [==] compares
    by value. *)

Definition zero_id : obj -> N := fun _ => 0%N.

(** [==] as [object.__eq__] answers it: an object is equal to itself and to
    no other object. *)
Definition identity_eq (a b : obj) : bool :=
  if obj_eq_dec a b then true else false.

Definition run0 := run 0 0 zero_id 0 identity_eq 30.

Example keys_1_and_3_collide :
  option_map (fun h => (Z.land h 7, Z.land h 15))
    (hashtable.get_hash 0 0 zero_id 0 5 (PyInt 1)) = Some (0, 0) /\
  option_map (fun h => (Z.land h 7, Z.land h 15))
    (hashtable.get_hash 0 0 zero_id 0 5 (PyInt 3)) = Some (0, 0).
Proof. vm_compute. split; reflexivity. Qed.

(** The calls that store key 3 twice: key 3 is placed after key 1 in the
    probe chain, key 1 is removed, and the next [update] of key 3 stops at
    the dummy left by key 1 without looking further. *)
Definition store_3_twice : list op :=
  [Update (PyInt 1) (PyInt 10); Update (PyInt 3) (PyInt 30);
   Remove (PyInt 1); Update (PyInt 3) (PyInt 31)].

Definition fill_to_eight : list op :=
  [Update (PyInt 4) (PyInt 16); Update (PyInt 5) (PyInt 25);
   Update (PyInt 6) (PyInt 36); Update (PyInt 7) (PyInt 49);
   Update (PyInt 8) (PyInt 64); Update (PyInt 9) (PyInt 81)].

(** C1 at the failing input: [update(3, 31)] is followed by updates of
    other keys only, and [get(3)] returns 31 until the ninth counted update
    resizes the table; after it [get(3)] returns the value 30 that was
    overwritten. *)
Theorem resize_brings_back_overwritten_value :
  exists t0 t',
    hashtable.init None "simple" = inr t0 /\
    run0 (store_3_twice ++ [Get (PyInt 3)] ++ fill_to_eight
          ++ [Get (PyInt 3); Update (PyInt 10) (PyInt 100); Get (PyInt 3)]) t0
    = Done [PyInt 31; PyInt 31; PyInt 30] t'.
Proof.
  eexists. eexists. split; [reflexivity|]. vm_compute. reflexivity.
Qed.

(** C2 at the failing input: key 3 is present, [remove(3)] returns, and the
    next [get(3)] returns the value 30 instead of [None]. *)
Theorem get_after_remove_returns_old_value :
  exists t0 t t',
    hashtable.init None "simple" = inr t0 /\
    run0 store_3_twice t0 = Done [] t /\
    In (PyInt 3) (hashtable.keys t) /\
    run0 [Get (PyInt 3); Remove (PyInt 3); Get (PyInt 3)] t
    = Done [PyInt 31; PyInt 30] t'.
Proof.
  eexists. eexists. eexists. split; [reflexivity|].
  split; [vm_compute; reflexivity|].
  split; [vm_compute; auto|]. vm_compute. reflexivity.
Qed.

(** C4 at the failing input: the table holds eight counted slots, two of
    them for key 3; the resize that the next [update] starts with replays
    both pairs into one slot, and the pair [(3, 31)] is gone. *)
Theorem resize_loses_a_pair :
  exists t0 t t',
    hashtable.init None "simple" = inr t0 /\
    run0 (store_3_twice ++ fill_to_eight) t0 = Done [] t /\
    hashtable.over_load_factor t = true /\
    hashtable.increment_size (hashtable.update 0 0 zero_id 0 identity_eq 30) t = Done tt t' /\
    hashtable.size t = 8 /\ hashtable.size t' = 16 /\
    In (PyInt 3, PyInt 31) (hashtable.items t) /\
    In (PyInt 3, PyInt 30) (hashtable.items t) /\
    ~ In (PyInt 3, PyInt 31) (hashtable.items t') /\
    List.length (hashtable.items t) = 8%nat /\
    List.length (hashtable.items t') = 7%nat.
Proof.
  eexists. eexists. eexists. split; [reflexivity|].
  split; [vm_compute; reflexivity|].
  split; [vm_compute; reflexivity|].
  split; [vm_compute; reflexivity|].
  split; [reflexivity|]. split; [reflexivity|].
  split; [vm_compute; auto|]. split; [vm_compute; auto|].
  split; [|split; reflexivity].
  vm_compute. intros H.
  repeat (destruct H as [H|H]; [discriminate H|]). exact H.
Qed.

(** An [update] that overwrites the slot of its own key counts it again:
    after [update(1, 1); update(1, 2)] one pair is stored and [used] is 2. *)
Example overwrite_counts_again :
  exists t,
    run0 [Update (PyInt 1) (PyInt 1); Update (PyInt 1) (PyInt 2)]
      (fresh None hashtable.simple) = Done [] t /\
    hashtable.items t = [(PyInt 1, PyInt 2)] /\ hashtable.used t = 2.
Proof. eexists. split; [vm_compute; reflexivity|]. split; reflexivity. Qed.

(** The table the calls [ops] leave, made on a fresh table. *)
Definition table_after (ops : list op) : hashtable.HashTable :=
  match run0 ops (fresh None hashtable.simple) with
  | Done _ t => t
  | Raised _ t => t
  | Timeout => fresh None hashtable.simple
  end.

Lemma table_after_reachable (ops : list op) :
  reachable 0 0 zero_id 0 identity_eq (table_after ops).
Proof.
  assert (H0 : reachable 0 0 zero_id 0 identity_eq (fresh None hashtable.simple))
    by (apply (reach_init 0 0 zero_id 0 identity_eq None "simple"); reflexivity).
  unfold table_after.
  destruct (run0 ops (fresh None hashtable.simple)) as [r t|e t|] eqn:E;
    [| |exact H0];
    apply (run_reachable 0 0 zero_id 0 identity_eq 30 ops
             (fresh None hashtable.simple) t H0);
    unfold run0 in E; rewrite E; reflexivity.
Qed.

(** The calls that fill the eight slots of a fresh table: seven squares, and
    the key 7 with the value [None]. *)
Definition fill_with_none : list op :=
  [Update (PyInt 0) (PyInt 0); Update (PyInt 1) (PyInt 1);
   Update (PyInt 2) (PyInt 4); Update (PyInt 3) (PyInt 9);
   Update (PyInt 4) (PyInt 16); Update (PyInt 5) (PyInt 25);
   Update (PyInt 6) (PyInt 36); Update (PyInt 7) PyNone].

(** C10 at the failing input: the eight updates return without a resize and
    leave no slot empty.  [get(7)] then returns [None], the value stored
    under 7, while [get(100)], of a key that was never inserted, does not
    return [None]: it returns nothing, the probe loop is still running after
    every number of steps. *)
Theorem get_of_absent_key_never_returns_on_full_table :
  exists t0 t t',
    hashtable.init None "simple" = inr t0 /\
    run0 fill_with_none t0 = Done [] t /\
    hashtable.size t = 8 /\ hashtable.used t = 8 /\
    run0 [Get (PyInt 7)] t = Done [PyNone] t' /\
    ~ In (PyInt 100) (hashtable.keys t) /\
    forall fuel,
      hashtable.get 0 0 zero_id 0 identity_eq fuel (PyInt 100) t = Timeout.
Proof.
  exists (fresh None hashtable.simple), (table_after fill_with_none).
  eexists. split; [reflexivity|].
  split; [vm_compute; reflexivity|].
  split; [vm_compute; reflexivity|]. split; [vm_compute; reflexivity|].
  split; [vm_compute; reflexivity|].
  assert (Hk : exists ks,
    hashtable.keys (table_after fill_with_none) = ks /\
    ~ In (PyInt 100) ks /\ equals_none identity_eq (PyInt 100) ks).
  { eexists. split; [vm_compute; reflexivity|]. split.
    - simpl. intuition discriminate.
    - repeat (constructor; [reflexivity|]). constructor. }
  destruct Hk as (ks & Hks & Hnin & Hnone). rewrite Hks.
  split; [exact Hnin|]. intros fuel. unfold hashtable.get.
  rewrite (lookup_key_no_empty_slot 0 0 zero_id 0 identity_eq fuel (PyInt 100)
             (table_after fill_with_none)).
  - reflexivity.
  - apply (proj1 (reachable_Inv 0 0 zero_id 0 identity_eq _
                    (table_after_reachable fill_with_none))).
  - vm_compute. reflexivity.
  - discriminate.
  - rewrite Hks. exact Hnone.
Qed.

(** A key that is not [==] to itself, as [float('nan')] is not: with [==]
    answering [False] for it, two updates of the one object store it twice,
    both are counted, and [get] does not find it. *)
Example key_unequal_to_itself_is_stored_twice :
  exists t,
    run 0 0 zero_id 0 (fun _ _ => false) 30
      [Update (PyObj 0) (PyInt 1); Update (PyObj 0) (PyInt 2); Get (PyObj 0)]
      (fresh None hashtable.simple) = Done [PyNone] t /\
    hashtable.items t = [(PyObj 0, PyInt 1); (PyObj 0, PyInt 2)] /\
    hashtable.used t = 2.
Proof. eexists. split; [vm_compute; reflexivity|]. split; reflexivity. Qed.

(** ** The theorems at concrete inputs *)

Lemma load_factor_after_update_witness :
  exists t',
    hashtable.update 0 0 zero_id 0 identity_eq 5 (PyInt 1) (PyInt 1)
      (fresh None hashtable.simple) = Done tt t' /\
    (inject_Z (hashtable.used t') / inject_Z (hashtable.size t')
     <= hashtable.load_factor)%Q.
Proof.
  eexists. split; [vm_compute; reflexivity|].
  apply (proj1 (load_factor_after_update 0 0 zero_id 0 identity_eq
                  (fresh None hashtable.simple)
                  (reach_init 0 0 zero_id 0 identity_eq None "simple" _ eq_refl))
           5%nat (PyInt 1) (PyInt 1)).
  vm_compute. reflexivity.
Defined.

Lemma update_counts_used_witness :
  exists t',
    hashtable.update 0 0 zero_id 0 identity_eq 5 (PyInt 1) (PyInt 1)
      (fresh None hashtable.simple) = Done tt t' /\
    hashtable.used t' = hashtable.used (fresh None hashtable.simple) + 1.
Proof.
  eexists. split; [vm_compute; reflexivity|].
  match goal with
  | |- hashtable.used ?t' = _ =>
      assert (Hu : hashtable.update 0 0 zero_id 0 identity_eq 5 (PyInt 1) (PyInt 1)
                     (fresh None hashtable.simple) = Done tt t')
        by (vm_compute; reflexivity)
  end.
  destruct (update_counts_used 0 0 zero_id 0 identity_eq 5 (PyInt 1) (PyInt 1)
              (fresh None hashtable.simple) _
              (or_introl (fresh_Inv None hashtable.simple)) Hu)
    as (t1 & m & idx & slot & Hg & _ & _ & _ & Hs & Hiff & _).
  apply Hiff. split; [|reflexivity].
  vm_compute in Hg. injection Hg as <-.
  unfold getitem in Hs.
  destruct (norm_index _ idx) as [j|]; [|discriminate].
  apply nth_error_In in Hs. simpl in Hs.
  repeat (destruct Hs as [<-|Hs]; [reflexivity|]). contradiction.
Defined.

Lemma nine_squares_witness :
  hashtable.init None "simple" = inr (fresh None hashtable.simple) /\
  exists fuel t9,
    hashtable.replay (hashtable.update 0 0 zero_id 0 identity_eq fuel) (squares 9)
      (fresh None hashtable.simple) = Done tt t9 /\
    hashtable.size t9 = 16 /\ hashtable.used t9 = 9 /\
    Permutation (hashtable.items t9) (squares 9).
Proof.
  split; [reflexivity|].
  destruct (nine_squares 0 0 zero_id 0 identity_eq None "simple"
              (fresh None hashtable.simple) eq_refl)
    as (_ & fuel & t8 & t8' & t9 & Hr & _ & _ & _ & _ & _ & _ & Hu & Hsz & Hus & Hp).
  exists (S fuel), t9. split; [|auto].
  rewrite squares_succ.
  assert (Happ : forall upd a b t,
    hashtable.replay upd (a ++ b) t
    = bind (hashtable.replay upd a t) (fun _ s => hashtable.replay upd b s)).
  { intros upd a. induction a as [|[k v] a IH]; intros b t; simpl.
    - reflexivity.
    - destruct (upd k v t) as [[] s|e s|]; simpl; auto. }
  rewrite Happ.
  rewrite (replay_mono _ (hashtable.update 0 0 zero_id 0 identity_eq (S fuel))
             (fun k v t r Hr' H =>
                update_mono 0 0 zero_id 0 identity_eq fuel (S fuel) k v t r
                  (Nat.le_succ_diag_r fuel) Hr' H)
             (squares 8) _ (Done tt t8) ltac:(discriminate) Hr).
  cbn [bind hashtable.replay]. change (Z.of_nat 8) with 8.
  change (8 * 8) with 64. rewrite Hu. reflexivity.
Defined.

Lemma probe_strategy_fixed_at_construction_witness :
  hashtable.init None "quadratic" = inl AssertionError.
Proof.
  apply (proj1 (probe_strategy_fixed_at_construction 0 0 zero_id 0 identity_eq None
                  "quadratic")); discriminate.
Defined.

(** ** The further properties at concrete inputs

    The tables are built by the calls themselves, under the all-zero hash
    secret and the simple probing rule. *)

(** One stored pair. *)
Definition one_key_table : hashtable.HashTable :=
  table_after [Update (PyInt 1) (PyInt 10)].

(** Eight stored pairs in eight slots: no slot is empty. *)
Definition full_table : hashtable.HashTable :=
  table_after
    [Update (PyInt 0) (PyInt 0); Update (PyInt 1) (PyInt 1);
     Update (PyInt 2) (PyInt 4); Update (PyInt 3) (PyInt 9);
     Update (PyInt 4) (PyInt 16); Update (PyInt 5) (PyInt 25);
     Update (PyInt 6) (PyInt 36); Update (PyInt 7) (PyInt 49)].

Lemma full_table_facts :
  hashtable.size full_table = 8 /\
  nonempty (hashtable.internal_list full_table) = 8 /\
  hashtable.keys full_table
  = [PyInt 1; PyInt 3; PyInt 4; PyInt 6; PyInt 7; PyInt 0; PyInt 2; PyInt 5].
Proof. vm_compute. repeat split. Qed.

Lemma full_table_keys_apart : apart identity_eq (hashtable.keys full_table).
Proof.
  rewrite (proj2 (proj2 full_table_facts)). apply apart_of_nodup.
  - repeat (constructor; [reflexivity|]). constructor.
  - repeat (constructor; [simpl; intuition discriminate|]). constructor.
Qed.

Lemma one_key_table_facts :
  hashtable.size one_key_table = 8 /\
  nonempty (hashtable.internal_list one_key_table) = 1 /\
  hashtable.keys one_key_table = [PyInt 1].
Proof. vm_compute. repeat split. Qed.

Lemma circular_shift_rotates_witness :
  Z.testbit (siphash.circular_shift 1 13) 13 = Z.testbit 1 ((13 - 13) mod 64).
Proof.
  apply (proj2 (circular_shift_rotates 1 13 ltac:(lia) ltac:(lia))). lia.
Defined.

Lemma circular_shift_round_trip_witness :
  siphash.circular_shift (siphash.circular_shift 1 13) (64 - 13) = 1.
Proof. apply (circular_shift_round_trip 1 13); lia. Defined.

Lemma str2int_packs_bytes_witness :
  0 <= siphash.str2int [104%N; 105%N] < 2 ^ (8 * Z.of_nat 2).
Proof.
  apply (str2int_packs_bytes [104%N; 105%N]).
  repeat (constructor; [reflexivity|]). constructor.
Defined.

Lemma negate_is_twos_complement_witness :
  siphash.negate (2 ^ 63) = 2 ^ 63 - 2 ^ 64.
Proof. apply (negate_is_twos_complement (2 ^ 63)). lia. Defined.

Lemma get_hash_is_a_64_bit_value_witness :
  exists h r,
    siphash.get_hash zero_id 5 (PyInt 1) (siphash.init 0 0 None false)
    = Some (h, r) /\
    - 2 ^ 63 <= h < 2 ^ 63.
Proof.
  assert (H : exists p,
    siphash.get_hash zero_id 5 (PyInt 1) (siphash.init 0 0 None false) = Some p)
    by (eexists; vm_compute; reflexivity).
  destruct H as [[h r] E]. exists h, r. split; [exact E|].
  apply (get_hash_is_a_64_bit_value zero_id 5 (PyInt 1)
           (siphash.init 0 0 None false) r h);
    [vm_compute; split; [discriminate|reflexivity]|exact E|reflexivity].
Defined.

Lemma get_hash_starts_afresh_witness :
  exists h r,
    siphash.get_hash zero_id 5 (PyInt 1) (siphash.init 0 0 None false)
    = Some (h, r) /\
    option_map fst (siphash.get_hash zero_id 5 (PyInt 2) r)
    = option_map fst
        (siphash.get_hash zero_id 5 (PyInt 2)
           (siphash.init 0 0
              (Some (siphash.secret_key (siphash.init 0 0 None false)))
              (siphash.allow_negative (siphash.init 0 0 None false)))).
Proof.
  assert (H : exists p,
    siphash.get_hash zero_id 5 (PyInt 1) (siphash.init 0 0 None false) = Some p)
    by (eexists; vm_compute; reflexivity).
  destruct H as [[h r] E]. exists h, r. split; [exact E|].
  apply (proj1 (get_hash_starts_afresh zero_id 5 5 (PyInt 1) (PyInt 2)
                  (siphash.init 0 0 None false) r h 0 E)).
Defined.

Lemma get_hash_returns_within_word_count_witness :
  exists h r,
    siphash.get_hash zero_id (Z.to_nat (word_count (message_of zero_id (PyInt 1))))
      (PyInt 1) (siphash.init 0 0 None false) = Some (h, r).
Proof.
  apply (get_hash_returns_within_word_count zero_id (PyInt 1)
           (siphash.init 0 0 None false)).
  intros n H. injection H as <-. lia.
Defined.

Lemma compress_hash_fits_the_bits_witness :
  exists fuel c,
    hashtable.compress_hash 4 fuel 1000 = Some c /\
    0 <= c < 2 ^ Z.of_N 4 /\
    (1000 < 2 ^ Z.of_N 4 -> c = 1000).
Proof. apply (compress_hash_fits_the_bits 4 1000); [reflexivity|lia]. Defined.

Lemma entry_hash_range_witness :
  exists h,
    hashtable.get_hash 0 0 zero_id 0 5 (PyInt 1) = Some h /\ 0 <= h < 2 ^ 64.
Proof.
  assert (H : exists h, hashtable.get_hash 0 0 zero_id 0 5 (PyInt 1) = Some h)
    by (eexists; vm_compute; reflexivity).
  destruct H as [h E]. exists h. split; [exact E|].
  apply (proj1 (entry_hash_range 0 0 zero_id 0 5 (PyInt 1) h
                  eq_refl eq_refl E)).
Defined.

Lemma get_only_counts_collisions_witness :
  exists t',
    final_state (hashtable.get 0 0 zero_id 0 identity_eq 5 (PyInt 9) one_key_table) = Some t' /\
    hashtable.internal_list t' = hashtable.internal_list one_key_table.
Proof.
  assert (H : exists t',
    final_state (hashtable.get 0 0 zero_id 0 identity_eq 5 (PyInt 9) one_key_table) = Some t')
    by (eexists; vm_compute; reflexivity).
  destruct H as [t' E]. exists t'. split; [exact E|].
  apply (proj1 (get_only_counts_collisions 0 0 zero_id 0 identity_eq 5 (PyInt 9)
                  one_key_table t' E)).
Defined.

Lemma remove_marks_one_slot_witness :
  exists t',
    hashtable.remove 0 0 zero_id 0 identity_eq 5 (PyInt 1) one_key_table = Done tt t' /\
    hashtable.used t' = hashtable.used one_key_table.
Proof.
  assert (H : exists t',
    hashtable.remove 0 0 zero_id 0 identity_eq 5 (PyInt 1) one_key_table = Done tt t')
    by (eexists; vm_compute; reflexivity).
  destruct H as [t' E]. exists t'. split; [exact E|].
  apply (proj1 (remove_marks_one_slot 0 0 zero_id 0 identity_eq 5 (PyInt 1) one_key_table t'
                  (proj1 (reachable_Inv 0 0 zero_id 0 identity_eq one_key_table
                            (table_after_reachable _))) E)).
Defined.

Lemma none_key_raises_type_error_witness :
  exists t1,
    hashtable.update 0 0 zero_id 0 identity_eq 31 PyNone (PyInt 1) full_table
    = Raised TypeError t1 /\
    hashtable.size t1 = 16.
Proof.
  assert (H : exists t1,
    grow 0 0 zero_id 0 identity_eq 30 full_table = Done tt t1 /\ hashtable.size t1 = 16)
    by (eexists; vm_compute; split; reflexivity).
  destruct H as (t1 & E & Hs). exists t1. split; [|exact Hs].
  apply (proj2 (proj2 (none_key_raises_type_error 0 0 zero_id 0 identity_eq 30 (PyInt 1)
                         full_table t1))); [|exact E].
  rewrite (proj1 full_table_facts). discriminate.
Defined.

Lemma lookup_in_full_table_never_returns_witness :
  hashtable.get 0 0 zero_id 0 identity_eq 1000 (PyInt 100) full_table = Timeout /\
  hashtable.remove 0 0 zero_id 0 identity_eq 1000 (PyInt 100) full_table = Timeout.
Proof.
  apply (lookup_in_full_table_never_returns 0 0 zero_id 0 identity_eq 1000 (PyInt 100)
           full_table).
  - apply (proj1 (reachable_Inv 0 0 zero_id 0 identity_eq full_table
                    (table_after_reachable _))).
  - rewrite (proj1 full_table_facts). apply (proj1 (proj2 full_table_facts)).
  - discriminate.
  - rewrite (proj2 (proj2 full_table_facts)).
    repeat (constructor; [reflexivity|]). constructor.
Defined.

Lemma probing_reaches_every_slot_witness :
  exists m, fst (probes (fresh None hashtable.modified) m (0, 0)) = 5.
Proof.
  assert (H1 : hashtable.size (fresh None hashtable.modified) = 2 ^ Z.of_nat 3)
    by reflexivity.
  assert (H2 : 0 <= 0 < hashtable.size (fresh None hashtable.modified))
    by (split; [discriminate|reflexivity]).
  assert (H3 : 0 <= 5 < hashtable.size (fresh None hashtable.modified))
    by (split; [discriminate|reflexivity]).
  exact (proj2 (probing_reaches_every_slot (fresh None hashtable.modified)
                  3 0 0 5 H1 H2 (Z.le_refl 0) H3)).
Defined.

Lemma get_after_update_returns_value_witness :
  exists fuel t1 t2,
    hashtable.update 0 0 zero_id 0 identity_eq fuel (PyInt 3) (PyInt 30) one_key_table
    = Done tt t1 /\
    In (PyInt 3, PyInt 30) (hashtable.items t1) /\
    hashtable.get 0 0 zero_id 0 identity_eq fuel (PyInt 3) t1 = Done (PyInt 30) t2.
Proof.
  apply (get_after_update_returns_value 0 0 zero_id 0 identity_eq (PyInt 3) (PyInt 30)
           one_key_table (table_after_reachable _)); reflexivity.
Defined.

Lemma resize_keeps_distinct_keys_witness :
  exists fuel t',
    hashtable.increment_size (hashtable.update 0 0 zero_id 0 identity_eq fuel) full_table
    = Done tt t' /\
    hashtable.size t' = 2 * hashtable.size full_table /\
    Permutation (hashtable.items t') (hashtable.items full_table).
Proof.
  destruct (resize_keeps_distinct_keys 0 0 zero_id 0 identity_eq full_table
              (reachable_Inv 0 0 zero_id 0 identity_eq full_table (table_after_reachable _))
              full_table_keys_apart)
    as (fuel & t' & H & Hs & _ & _ & Hp & _).
  exists fuel, t'. auto.
Defined.

Lemma reachable_table_shape_witness :
  List.length (hashtable.keys full_table)
  = List.length (hashtable.items full_table) /\
  hashtable.used full_table <= hashtable.size full_table.
Proof.
  destruct (reachable_table_shape 0 0 zero_id 0 identity_eq full_table
              (table_after_reachable _))
    as (_ & _ & Hk & _ & _ & _ & Hu & _).
  split; assumption.
Defined.

Lemma get_finds_stored_key_witness :
  exists fuel v t' k',
    hashtable.get 0 0 zero_id 0 identity_eq fuel (PyInt 5) full_table = Done v t' /\
    obj_eqb identity_eq (PyInt 5) k' = true /\
    In (k', v) (hashtable.items full_table).
Proof.
  apply (get_finds_stored_key 0 0 zero_id 0 identity_eq (PyInt 5) full_table
           (table_after_reachable _)); [|reflexivity].
  rewrite (proj2 (proj2 full_table_facts)). simpl. auto 10.
Defined.

Lemma get_after_remove_of_single_key_witness :
  exists fuel t1 t2,
    hashtable.remove 0 0 zero_id 0 identity_eq fuel (PyInt 1) one_key_table = Done tt t1 /\
    ~ In (PyInt 1) (hashtable.keys t1) /\
    hashtable.used t1 = hashtable.used one_key_table /\
    hashtable.get 0 0 zero_id 0 identity_eq fuel (PyInt 1) t1 = Done PyNone t2.
Proof.
  apply (get_after_remove_of_single_key 0 0 zero_id 0 identity_eq (PyInt 1) one_key_table
           (table_after_reachable _)).
  - rewrite (proj2 (proj2 one_key_table_facts)).
    split; constructor.
  - rewrite (proj2 (proj2 one_key_table_facts)). left. reflexivity.
  - reflexivity.
  - rewrite (proj1 one_key_table_facts), (proj1 (proj2 one_key_table_facts)).
    reflexivity.
Defined.

Lemma updates_make_a_dictionary_witness :
  exists fuel t,
    hashtable.replay (hashtable.update 0 0 zero_id 0 identity_eq fuel)
      [(PyInt 1, PyInt 10); (PyInt 2, PyInt 20); (PyInt 1, PyInt 11)]
      (fresh None hashtable.simple) = Done tt t /\
    In (PyInt 1, PyInt 11) (hashtable.items t).
Proof.
  destruct (updates_make_a_dictionary 0 0 zero_id 0 identity_eq None "simple"
              (fresh None hashtable.simple)
              [(PyInt 1, PyInt 10); (PyInt 2, PyInt 20); (PyInt 1, PyInt 11)]
              eq_refl)
    as (fuel & t & Hr & _ & Hc & _).
  { repeat (constructor; [reflexivity|]). constructor. }
  { repeat (constructor; [reflexivity|]). constructor. }
  exists fuel, t. split; [exact Hr|]. apply Hc. reflexivity.
Defined.

Lemma hash_key_is_never_used_witness :
  hashtable.init (Some 5) "simple"
  = inr (with_hash_key (fresh None hashtable.simple) (Some 5)).
Proof.
  apply (proj1 (hash_key_is_never_used 0 0 zero_id 0 identity_eq None (Some 5) "simple"
                  (fresh None hashtable.simple) eq_refl)).
Defined.
